(** * Evenk: the bounded concurrent queue of [evenk/bounded_queue.h]

    The queue is a ring of ticketed slots shared by any number of
    producer and consumer threads.  Every public operation is embedded
    as an interaction tree over the atomic accesses it performs on the
    queue object; a handler gives those accesses their meaning on a
    [BoundedQueue] record, and a scheduler interleaves the trees of
    several threads one access at a time.

    Integers are [Z] with the wrap-around of [std::uint32_t] and
    [std::uint64_t] written out.  The interleaving semantics is
    sequentially consistent: the [memory_order] of an access is recorded
    in its event and ignored by the handler. *)

From Stdlib Require Import ZArith List Lia Bool Morphisms.
From ITree Require Import ITree ITreeFacts.
Import ListNotations ITreeNotations.

Local Open Scope Z_scope.
Local Open Scope itree_scope.

(* ===================================================================== *)
(** ** Fixed-width integers *)
(* ===================================================================== *)

(** Conversion to [std::uint32_t]. *)
Definition u32 (z : Z) : Z := z mod 2 ^ 32.

(** Conversion to [std::uint64_t]. *)
Definition u64 (z : Z) : Z := z mod 2 ^ 64.

(** Conversion of a [std::uint64_t] to [int64_t] (two's complement). *)
Definition i64 (z : Z) : Z := if u64 z <? 2 ^ 63 then u64 z else u64 z - 2 ^ 64.

(** [N] is a power of two. *)
Definition power_of_two (N : Z) : Prop := exists k : Z, 0 <= k /\ N = 2 ^ k.

(* ===================================================================== *)
(** ** Lists indexed as C arrays *)
(* ===================================================================== *)

(** [update l n f] applies [f] to element [n]; out of range it leaves
    the list alone (the handler below refuses such an access before it
    gets here). *)
Fixpoint update {A : Type} (l : list A) (n : nat) (f : A -> A) : list A :=
  match l, n with
  | [], _ => []
  | x :: l', O => f x :: l'
  | x :: l', S n' => x :: update l' n' f
  end.

(** The indices [i, i+1, ..., i+n-1]. *)
Fixpoint indices (i : Z) (n : nat) : list Z :=
  match n with
  | O => []
  | S n' => i :: indices (i + 1) n'
  end.

(* ===================================================================== *)
(** ** Slots and wait strategies *)
(* ===================================================================== *)

(** [class BoundedQueueSlotBase]: the atomic 32-bit ticket. *)
Record BoundedQueueSlotBase : Type := { ticket_ : Z }.

Definition Initialize (value : Z) (_ : BoundedQueueSlotBase) : BoundedQueueSlotBase :=
  {| ticket_ := value |}.

Definition Load (s : BoundedQueueSlotBase) : Z := ticket_ s.

Definition Store (value : Z) (_ : BoundedQueueSlotBase) : BoundedQueueSlotBase :=
  {| ticket_ := value |}.

(** The [WaitType] template parameter: what a strategy adds to the slot
    base.  The strategies that keep no state beyond the ticket are
    instances; [BoundedQueueFutexWait] and [BoundedQueueSynchWait] park
    the thread through [evenk/futex.h] and [evenk/synch.h] and are not
    modelled. *)
Class WaitType : Type := {
  WaitAndLoad : Z -> BoundedQueueSlotBase -> Z;
  StoreAndWake : Z -> BoundedQueueSlotBase -> BoundedQueueSlotBase;
  Wake : BoundedQueueSlotBase -> BoundedQueueSlotBase
}.

(** [class BoundedQueueNoWait]. *)
Definition BoundedQueueNoWait : WaitType := {|
  WaitAndLoad := fun _ s => Load s;
  StoreAndWake := fun value s => Store value s;
  Wake := fun s => s
|}.

(** [class BoundedQueueYieldWait]: as above after a
    [std::this_thread::yield()], which an interleaving semantics already
    allows at every step. *)
Definition BoundedQueueYieldWait : WaitType := {|
  WaitAndLoad := fun _ s => Load s;
  StoreAndWake := fun value s => Store value s;
  Wake := fun s => s
|}.

(* ===================================================================== *)
(** ** Running an interaction tree against a handler *)
(* ===================================================================== *)

Section Machine.

Context {E : Type -> Type}.

(** One observed access: the event and the answer it received. *)
Inductive obs : Type :=
| Obs : forall A : Type, E A -> A -> obs.

(** How a run ends.  [Fault] is an access the handler refuses
    (undefined behaviour in the source); [Timeout] is fuel running
    out.  Each carries the accesses performed so far. *)
Inductive outcome (St R : Type) : Type :=
| Done (r : R) (s : St) (tr : list obs)
| Fault (tr : list obs)
| Timeout (tr : list obs).

Definition prepend {St R : Type} (o : obs) (x : outcome St R) : outcome St R :=
  match x with
  | Done _ _ r s tr => Done _ _ r s (o :: tr)
  | Fault _ _ tr => Fault _ _ (o :: tr)
  | Timeout _ _ tr => Timeout _ _ (o :: tr)
  end.

Context {St : Type} (h : forall A : Type, E A -> St -> option (St * A)).

(** [run fuel t s]: every node of the tree costs one unit of fuel. *)
Fixpoint run {R : Type} (fuel : nat) (t : itree E R) (s : St) : outcome St R :=
  match fuel with
  | O => Timeout _ _ []
  | S n =>
      match observe t with
      | RetF r => Done _ _ r s []
      | TauF t' => run n t' s
      | VisF e k =>
          match h _ e s with
          | None => Fault _ _ []
          | Some (s', a) => prepend (Obs _ e a) (run n (k a) s')
          end
      end
  end.

(** [replay tr s]: the state after the accesses of [tr], answers
    aside. *)
Fixpoint replay (tr : list obs) (s : St) : option St :=
  match tr with
  | [] => Some s
  | Obs _ e _ :: tr' =>
      match h _ e s with
      | Some (s', _) => replay tr' s'
      | None => None
      end
  end.

End Machine.

Arguments Obs {E A} e a.
Arguments obs E : clear implicits.
Arguments outcome E St R : clear implicits.
Arguments Done {E St R} r s tr.
Arguments Fault {E St R} tr.
Arguments Timeout {E St R} tr.
Arguments replay {E St} h tr s.

(* ===================================================================== *)
(** ** The queue object and the accesses of its operations *)
(* ===================================================================== *)

Inductive memory_order : Type :=
| memory_order_relaxed
| memory_order_acquire
| memory_order_release
| memory_order_seq_cst.

(** The two reservation counters of the queue. *)
Inductive counter : Type := head_counter | tail_counter.

(** What the constructor can throw. *)
Inductive exception : Type := invalid_argument | bad_alloc.

(** What [Destroy] does to the ring. *)
Inductive teardown : Type :=
| SlotDestructor (i : Z)
| Free.

Section Queue.

Context {ValueType Backoff : Type}.

(** [struct Slot : public WaitType { ValueType value; }]. *)
Record Slot : Type := {
  wait : BoundedQueueSlotBase;
  value : ValueType
}.

(** [class BoundedQueue]; [ring_ = None] is the null pointer. *)
Record BoundedQueue : Type := {
  ring_ : option (list Slot);
  mask_ : Z;
  finish_ : bool;
  head_ : Z;
  tail_ : Z
}.

(** The accesses an operation makes to the shared queue object, and
    the calls of the caller's backoff object.  A slot is named by its
    index in [ring_]. *)
Variant queueE : Type -> Type :=
| FetchAdd (c : counter) (mo : memory_order) : queueE Z
    (* c.fetch_add(1, mo); answers the value before the addition *)
| CounterLoad (c : counter) (mo : memory_order) : queueE Z
| FinishLoad : queueE bool
    (* finish_.load(std::memory_order_relaxed) *)
| FinishStore : queueE unit
    (* finish_.store(true, std::memory_order_relaxed) *)
| SlotLoad (i : Z) : queueE Z
    (* ring_[i].Load() *)
| SlotWaitAndLoad (i : Z) (value : Z) : queueE Z
    (* ring_[i].WaitAndLoad(value) *)
| SlotStoreAndWake (i : Z) (value : Z) : queueE unit
    (* ring_[i].StoreAndWake(value) *)
| SlotWake (i : Z) : queueE unit
    (* ring_[i].Wake() *)
| SlotAssign (i : Z) (x : ValueType) : queueE unit
    (* ring_[i].value = x *)
| SlotMove (i : Z) : queueE ValueType
    (* std::move(ring_[i].value) *)
| CallBackoff (backoff : Backoff) : queueE (bool * Backoff).
    (* backoff(); answers the result and the callable's next state *)

(** *** Private members *)

(** The locals of the wait loops that take a backoff. *)
Record wait_locals : Type := {
  waiting : bool;
  current : Z;
  callable : Backoff
}.

(** One turn of the [while] loop of [WaitTail]: [inr] leaves the
    loop, [inl] goes round again with the new [current_ticket]. *)
Definition WaitTail_iteration (slot required_ticket current_ticket : Z)
  : itree queueE (Z + unit) :=
  if current_ticket =? u32 required_ticket then Ret (inr tt)
  else
    current_ticket <- ITree.trigger (SlotWaitAndLoad slot current_ticket);;
    Ret (inl current_ticket).

(** [void WaitTail(Slot &slot, std::uint64_t required_ticket)]. *)
Definition WaitTail (slot required_ticket : Z) : itree queueE unit :=
  current_ticket <- ITree.trigger (SlotLoad slot);;
  ITree.iter (WaitTail_iteration slot required_ticket) current_ticket.

(** The [if (waiting) ... else ...] statement shared by the two loops
    that take a backoff. *)
Definition wait_or_backoff {R : Type} (slot : Z) (l : wait_locals)
  : itree queueE (wait_locals + R) :=
  if waiting l then
    c <- ITree.trigger (SlotWaitAndLoad slot (current l));;
    Ret (inl {| waiting := waiting l; current := c; callable := callable l |})
  else
    wb <- ITree.trigger (CallBackoff (callable l));;
    c <- ITree.trigger (SlotLoad slot);;
    Ret (inl {| waiting := fst wb; current := c; callable := snd wb |}).

Definition WaitTail_backoff_iteration (slot required_ticket : Z) (l : wait_locals)
  : itree queueE (wait_locals + unit) :=
  if current l =? u32 required_ticket then Ret (inr tt)
  else wait_or_backoff slot l.

(** [void WaitTail(Slot &slot, std::uint64_t required_ticket, Backoff backoff)]. *)
Definition WaitTail_backoff (slot required_ticket : Z) (backoff : Backoff)
  : itree queueE unit :=
  current_ticket <- ITree.trigger (SlotLoad slot);;
  ITree.iter (WaitTail_backoff_iteration slot required_ticket)
    {| waiting := false; current := current_ticket; callable := backoff |}.

(** [bool Finished() const]. *)
Definition Finished : itree queueE bool := ITree.trigger FinishLoad.

(** The shutdown test at the top of a consumer iteration:
    [if (Finished()) { tail = tail_.load(seq_cst);
                       if (required_ticket >= tail) return false; }]
    and then [otherwise]. *)
Definition unless_finished {I : Type} (required_ticket : Z)
    (otherwise : itree queueE (I + bool)) : itree queueE (I + bool) :=
  finished <- Finished;;
  if (finished : bool) then
    tail <- ITree.trigger (CounterLoad tail_counter memory_order_seq_cst);;
    if required_ticket >=? tail then Ret (inr false)
    else otherwise
  else otherwise.

Definition WaitHead_iteration (slot required_ticket current_ticket : Z)
  : itree queueE (Z + bool) :=
  if current_ticket =? u32 required_ticket then Ret (inr true)
  else
    unless_finished required_ticket
      (current_ticket <- ITree.trigger (SlotWaitAndLoad slot current_ticket);;
       Ret (inl current_ticket)).

(** [bool WaitHead(Slot &slot, std::uint64_t required_ticket)]. *)
Definition WaitHead (slot required_ticket : Z) : itree queueE bool :=
  current_ticket <- ITree.trigger (SlotLoad slot);;
  ITree.iter (WaitHead_iteration slot required_ticket) current_ticket.

Definition WaitHead_backoff_iteration (slot required_ticket : Z) (l : wait_locals)
  : itree queueE (wait_locals + bool) :=
  if current l =? u32 required_ticket then Ret (inr true)
  else unless_finished required_ticket (wait_or_backoff slot l).

(** [bool WaitHead(Slot &slot, std::uint64_t required_ticket, Backoff backoff)]. *)
Definition WaitHead_backoff (slot required_ticket : Z) (backoff : Backoff)
  : itree queueE bool :=
  current_ticket <- ITree.trigger (SlotLoad slot);;
  ITree.iter (WaitHead_backoff_iteration slot required_ticket)
    {| waiting := false; current := current_ticket; callable := backoff |}.

(** [void WakeHead(Slot &slot, std::uint32_t new_ticket)]; the caller's
    64-bit argument is converted to the parameter type. *)
Definition WakeHead (slot new_ticket : Z) : itree queueE unit :=
  ITree.trigger (SlotStoreAndWake slot (u32 new_ticket)).

(** [void WakeTail(Slot &slot, std::uint32_t new_ticket)]. *)
Definition WakeTail (slot new_ticket : Z) : itree queueE unit :=
  ITree.trigger (SlotStoreAndWake slot (u32 new_ticket)).

(** *** Public members; [mask] is the object's [mask_], constant
    after construction. *)

(** [bool Empty() const]. *)
Definition Empty : itree queueE bool :=
  head <- ITree.trigger (CounterLoad head_counter memory_order_relaxed);;
  tail <- ITree.trigger (CounterLoad tail_counter memory_order_relaxed);;
  Ret (i64 tail <=? i64 head).

(** One turn of [for (std::uint32_t i = 0; i < mask_ + 1; i++)]. *)
Definition Finish_iteration (mask i : Z) : itree queueE (Z + unit) :=
  if i <? u32 (mask + 1) then
    ITree.trigger (SlotWake i);; Ret (inl (u32 (i + 1)))
  else Ret (inr tt).

(** [void Finish()]. *)
Definition Finish (mask : Z) : itree queueE unit :=
  ITree.trigger FinishStore;;
  ITree.iter (Finish_iteration mask) 0.

(** [void Enqueue(ValueType &&value, Backoff... backoff)] and its
    [const ValueType &] twin, which differ only in how the value
    reaches the slot. [backoff] is the variadic pack: empty or one
    callable. *)
Definition Enqueue (mask : Z) (value : ValueType) (backoff : option Backoff)
  : itree queueE unit :=
  tail <- ITree.trigger (FetchAdd tail_counter memory_order_seq_cst);;
  let slot := Z.land tail mask in
  match backoff with
  | None => WaitTail slot tail
  | Some b => WaitTail_backoff slot tail b
  end;;
  ITree.trigger (SlotAssign slot value);;
  WakeHead slot (u64 (tail + 1)).

(** [bool Dequeue(ValueType &value, Backoff... backoff)]; the result
    pairs the returned flag with the caller's [value] afterwards. *)
Definition Dequeue (mask : Z) (value : ValueType) (backoff : option Backoff)
  : itree queueE (bool * ValueType) :=
  head <- ITree.trigger (FetchAdd head_counter memory_order_relaxed);;
  let slot := Z.land head mask in
  ok <- match backoff with
        | None => WaitHead slot (u64 (head + 1))
        | Some b => WaitHead_backoff slot (u64 (head + 1)) b
        end;;
  if negb ok then Ret (false, value)
  else
    x <- ITree.trigger (SlotMove slot);;
    WakeTail slot (u64 (u64 (head + mask) + 1));;
    Ret (true, x).

(** *** The handler: one access on the queue object *)

Context {W : WaitType}.

(** What is left in a moved-from value, and what a backoff call does
    ([evenk/backoff.h] is the caller's business). *)
Variable moved_from : ValueType -> ValueType.
Variable call_backoff : Backoff -> bool * Backoff.

Definition slot_at (q : BoundedQueue) (i : Z) : option Slot :=
  match ring_ q with
  | Some ring => if i <? 0 then None else nth_error ring (Z.to_nat i)
  | None => None
  end.

Definition with_slot (q : BoundedQueue) (i : Z) (f : Slot -> Slot) : BoundedQueue :=
  {| ring_ := option_map (fun ring => update ring (Z.to_nat i) f) (ring_ q);
     mask_ := mask_ q; finish_ := finish_ q; head_ := head_ q; tail_ := tail_ q |}.

Definition on_wait (f : BoundedQueueSlotBase -> BoundedQueueSlotBase) (s : Slot) : Slot :=
  {| wait := f (wait s); value := value s |}.

Definition on_value (f : ValueType -> ValueType) (s : Slot) : Slot :=
  {| wait := wait s; value := f (value s) |}.

Definition handle (A : Type) (e : queueE A) (q : BoundedQueue)
  : option (BoundedQueue * A) :=
  match e in queueE A return option (BoundedQueue * A) with
  | FetchAdd head_counter _ =>
      Some ({| ring_ := ring_ q; mask_ := mask_ q; finish_ := finish_ q;
               head_ := u64 (head_ q + 1); tail_ := tail_ q |}, head_ q)
  | FetchAdd tail_counter _ =>
      Some ({| ring_ := ring_ q; mask_ := mask_ q; finish_ := finish_ q;
               head_ := head_ q; tail_ := u64 (tail_ q + 1) |}, tail_ q)
  | CounterLoad head_counter _ => Some (q, head_ q)
  | CounterLoad tail_counter _ => Some (q, tail_ q)
  | FinishLoad => Some (q, finish_ q)
  | FinishStore =>
      Some ({| ring_ := ring_ q; mask_ := mask_ q; finish_ := true;
               head_ := head_ q; tail_ := tail_ q |}, tt)
  | SlotLoad i =>
      match slot_at q i with
      | Some s => Some (q, Load (wait s))
      | None => None
      end
  | SlotWaitAndLoad i v =>
      match slot_at q i with
      | Some s => Some (q, WaitAndLoad v (wait s))
      | None => None
      end
  | SlotStoreAndWake i v =>
      match slot_at q i with
      | Some _ => Some (with_slot q i (on_wait (StoreAndWake v)), tt)
      | None => None
      end
  | SlotWake i =>
      match slot_at q i with
      | Some _ => Some (with_slot q i (on_wait Wake), tt)
      | None => None
      end
  | SlotAssign i x =>
      match slot_at q i with
      | Some _ => Some (with_slot q i (on_value (fun _ => x)), tt)
      | None => None
      end
  | SlotMove i =>
      match slot_at q i with
      | Some s => Some (with_slot q i (on_value moved_from), value s)
      | None => None
      end
  | CallBackoff b => Some (q, call_backoff b)
  end.

(** The ring of a queue of capacity [N] when every reservation before
    [r] has been served and none from [r] on has been taken: both
    counters stand at [r], and slot [j] shows the low 32 bits of the first
    reservation from [r] on that falls on it. *)
Definition ready_at (N r : Z) (q : BoundedQueue) : Prop :=
  mask_ q = N - 1 /\ head_ q = r /\ tail_ q = r /\
  forall j, 0 <= j < N ->
    exists sl, slot_at q j = Some sl /\ Load (wait sl) = u32 (r + (j - r) mod N).

(** One thread passing values through the queue one at a time:
    [Enqueue(x); Dequeue(v)] for each [x], collecting what each
    [Dequeue] handed back. *)
Fixpoint relay (mask : Z) (xs : list ValueType) (v : ValueType)
  : itree queueE (list (bool * ValueType)) :=
  match xs with
  | [] => Ret []
  | x :: xs' =>
      Enqueue mask x None;;
      r <- Dequeue mask v None;;
      rs <- relay mask xs' (snd r);;
      Ret (r :: rs)
  end.

(** *** Construction, move and destruction (single-threaded by contract) *)

(** [posix_memalign(&ring, alignment, bytes)] answers 0 on success;
    [kCacheLineSize] comes from [evenk/basic.h].  [default_slot] is a
    cell as [new (ring) Slot[size]] leaves it: the value
    default-constructed, the ticket indeterminate. *)
Variable posix_memalign : Z -> Z -> Z.
Variables kCacheLineSize sizeof_Slot : Z.
Variable default_slot : Slot.

(** [BoundedQueue(std::uint32_t size)]. *)
Definition BoundedQueue_new (size : Z) : exception + BoundedQueue :=
  let mask := u32 (size - 1) in
  if (size =? 0) || negb (Z.land size mask =? 0) then inl invalid_argument
  else if negb (posix_memalign kCacheLineSize (size * sizeof_Slot) =? 0)
  then inl bad_alloc
  else
    let ring := repeat default_slot (Z.to_nat size) in
    (* for (std::uint32_t i = 0; i < size; i++) ring_[i].Initialize(i); *)
    let ring := fold_left
                  (fun ring i => update ring (Z.to_nat i) (on_wait (Initialize i)))
                  (indices 0 (Z.to_nat size)) ring in
    inr {| ring_ := Some ring; mask_ := mask; finish_ := false;
           head_ := 0; tail_ := 0 |}.

(** [BoundedQueue(BoundedQueue &&other) noexcept]: the new object and
    [other] as the constructor leaves it. *)
Definition BoundedQueue_move (other : BoundedQueue) : BoundedQueue * BoundedQueue :=
  ({| ring_ := ring_ other; mask_ := mask_ other; finish_ := false;
      head_ := 0; tail_ := 0 |},
   {| ring_ := None; mask_ := mask_ other; finish_ := finish_ other;
      head_ := head_ other; tail_ := tail_ other |}).

(** [void Destroy()], called by the destructor: the destructor calls
    and the deallocation it performs, in order. *)
Definition Destroy (q : BoundedQueue) : list teardown :=
  match ring_ q with
  | Some _ =>
      let size := u32 (mask_ q + 1) in
      List.map SlotDestructor (indices 0 (Z.to_nat size)) ++ [Free]
  | None => []
  end.

(** *** Threads interleaved on one queue *)

(** What a finished operation handed back to its caller. *)
Inductive returned : Type :=
| ReturnedVoid
| ReturnedDequeue (ok : bool) (value : ValueType).

Definition thread : Type := itree queueE returned.

Definition call_Enqueue (mask : Z) (value : ValueType) (backoff : option Backoff)
  : thread :=
  ITree.map (fun _ => ReturnedVoid) (Enqueue mask value backoff).

Definition call_Dequeue (mask : Z) (value : ValueType) (backoff : option Backoff)
  : thread :=
  ITree.map (fun r => ReturnedDequeue (fst r) (snd r)) (Dequeue mask value backoff).

Definition call_Finish (mask : Z) : thread :=
  ITree.map (fun _ => ReturnedVoid) (Finish mask).

(** The shared queue, the remaining code of every thread, and the
    accesses made so far, each tagged with its thread. *)
Record system : Type := {
  shared : BoundedQueue;
  threads : list thread;
  history : list (nat * obs queueE)
}.

(** Thread [tid] advances by one node of its tree: a silent step, or
    one access to the shared queue.  A finished thread stays put. *)
Definition step (tid : nat) (sys : system) : option system :=
  match nth_error (threads sys) tid with
  | None => None
  | Some t =>
      match observe t with
      | RetF _ => Some sys
      | TauF t' =>
          Some {| shared := shared sys;
                  threads := update (threads sys) tid (fun _ => t');
                  history := history sys |}
      | VisF e k =>
          match handle _ e (shared sys) with
          | None => None
          | Some (q, a) =>
              Some {| shared := q;
                      threads := update (threads sys) tid (fun _ => k a);
                      history := history sys ++ [(tid, Obs e a)] |}
          end
      end
  end.

(** Thread [tid] advances by [n] nodes. *)
Fixpoint steps (n : nat) (tid : nat) (sys : system) : option system :=
  match n with
  | O => Some sys
  | S n' =>
      match step tid sys with
      | Some sys' => steps n' tid sys'
      | None => None
      end
  end.

(** A plan names, in order, which thread runs and for how many nodes. *)
Fixpoint schedule (plan : list (nat * nat)) (sys : system) : option system :=
  match plan with
  | [] => Some sys
  | (tid, n) :: plan' =>
      match steps n tid sys with
      | Some sys' => schedule plan' sys'
      | None => None
      end
  end.

(** What thread [tid] has returned, if it has. *)
Definition returned_by (tid : nat) (sys : system) : option returned :=
  match nth_error (threads sys) tid with
  | Some t => match observe t with RetF r => Some r | _ => None end
  | None => None
  end.

End Queue.

Arguments Slot ValueType : clear implicits.
Arguments BoundedQueue ValueType : clear implicits.
Arguments queueE ValueType Backoff : clear implicits.
Arguments wait_locals Backoff : clear implicits.
Arguments handle {ValueType Backoff} W moved_from call_backoff A e q.
Arguments step {ValueType Backoff} W moved_from call_backoff tid sys.
Arguments steps {ValueType Backoff} W moved_from call_backoff n tid sys.
Arguments schedule {ValueType Backoff} W moved_from call_backoff plan sys.
Arguments system ValueType Backoff : clear implicits.
Arguments thread ValueType Backoff : clear implicits.
Arguments returned ValueType : clear implicits.

(* ===================================================================== *)
(** ** Reading the accesses of one call *)
(* ===================================================================== *)

Section Traces.

Context {ValueType Backoff : Type}.

Definition trace : Type := list (obs (queueE ValueType Backoff)).




(** An access that can change a slot: its ticket, its waiters or its
    value. *)
Definition touches_slot (o : obs (queueE ValueType Backoff)) : bool :=
  match o with
  | Obs e _ =>
      match e with
      | SlotStoreAndWake _ _ | SlotWake _ | SlotAssign _ _ | SlotMove _ => true
      | _ => false
      end
  end.

(** What a wait loop on slot [slot] may do: read that slot's ticket,
    call the backoff object and, in a consumer, load the finish flag and
    [tail_]. *)
Definition waits_on (consumer : bool) (slot : Z) (o : obs (queueE ValueType Backoff))
  : bool :=
  match o with
  | Obs e _ =>
      match e with
      | SlotLoad i | SlotWaitAndLoad i _ => i =? slot
      | CallBackoff _ => true
      | FinishLoad => consumer
      | CounterLoad tail_counter memory_order_seq_cst => consumer
      | _ => false
      end
  end.

(** The ticket an access read from slot [slot], if it read one. *)
Definition ticket_read (slot : Z) (o : obs (queueE ValueType Backoff)) : option Z :=
  match o with
  | Obs e a =>
      match e in queueE _ _ A return A -> option Z with
      | SlotLoad i => fun a => if i =? slot then Some a else None
      | SlotWaitAndLoad i _ => fun a => if i =? slot then Some a else None
      | _ => fun _ => None
      end a
  end.

(** The tickets read from slot [slot] along a trace, in order. *)
Fixpoint tickets_read (slot : Z) (tr : trace) : list Z :=
  match tr with
  | [] => []
  | o :: tr' =>
      match ticket_read slot o with
      | Some c => c :: tickets_read slot tr'
      | None => tickets_read slot tr'
      end
  end.

(** How a wait loop re-reads the ticket: through [WaitAndLoad], or
    through the backoff object followed by a plain load. *)
Inductive mode : Type :=
| Parks
| Spins (backoff : Backoff).

Definition first_mode (backoff : option Backoff) : mode :=
  match backoff with
  | None => Parks
  | Some b => Spins b
  end.

(** The mode the locals of a backoff loop stand for. *)
Definition mode_of (l : wait_locals Backoff) : mode :=
  if waiting l then Parks else Spins (callable l).

(** The shutdown check of one consumer iteration that goes on to wait. *)
Definition finish_check (consumer : bool) (required_ticket : Z) (chk : trace) : Prop :=
  if consumer then
    chk = [Obs FinishLoad false] \/
    exists tail : Z,
      chk = [Obs FinishLoad true;
             Obs (CounterLoad tail_counter memory_order_seq_cst) tail] /\
      (required_ticket >=? tail) = false
  else chk = [].

(** The accesses of a wait loop entered with ticket [cur] already
    read, and whether it ended on a match ([true]) or gave up
    ([false]). *)
Inductive wait_trace (consumer : bool) (slot required_ticket : Z)
  : mode -> Z -> trace -> bool -> Prop :=
| wait_match m cur :
    cur = u32 required_ticket ->
    wait_trace consumer slot required_ticket m cur [] true
| wait_abort m cur tail :
    consumer = true ->
    cur <> u32 required_ticket ->
    (required_ticket >=? tail) = true ->
    wait_trace consumer slot required_ticket m cur
      [Obs FinishLoad true;
       Obs (CounterLoad tail_counter memory_order_seq_cst) tail] false
| wait_park cur chk c tr res :
    cur <> u32 required_ticket ->
    finish_check consumer required_ticket chk ->
    wait_trace consumer slot required_ticket Parks c tr res ->
    wait_trace consumer slot required_ticket Parks cur
      (chk ++ Obs (SlotWaitAndLoad slot cur) c :: tr) res
| wait_spin b cur chk (w : bool) b' c tr res :
    cur <> u32 required_ticket ->
    finish_check consumer required_ticket chk ->
    wait_trace consumer slot required_ticket (if w then Parks else Spins b') c tr res ->
    wait_trace consumer slot required_ticket (Spins b) cur
      (chk ++ Obs (CallBackoff b) (w, b') :: Obs (SlotLoad slot) c :: tr) res.





(** The accesses of thread [tid] in a history, in order. *)
Definition view (tid : nat) (hist : list (nat * obs (queueE ValueType Backoff)))
  : trace :=
  List.map snd (filter (fun p => Nat.eqb (fst p) tid) hist).

(** The answer recorded in an access, if it is of the type that the
    access [e] expects. *)
Definition recorded_answer (A : Type) (e : queueE ValueType Backoff A)
    (o : obs (queueE ValueType Backoff)) : option A :=
  match o with
  | Obs e' a' =>
      match e in queueE _ _ A return option A with
      | FetchAdd _ _ | CounterLoad _ _ | SlotLoad _ | SlotWaitAndLoad _ _ =>
          match e' in queueE _ _ A' return A' -> option Z with
          | FetchAdd _ _ | CounterLoad _ _ | SlotLoad _ | SlotWaitAndLoad _ _ =>
              fun a => Some a
          | _ => fun _ => None
          end a'
      | FinishLoad =>
          match e' in queueE _ _ A' return A' -> option bool with
          | FinishLoad => fun a => Some a
          | _ => fun _ => None
          end a'
      | FinishStore | SlotStoreAndWake _ _ | SlotWake _ | SlotAssign _ _ => Some tt
      | SlotMove _ =>
          match e' in queueE _ _ A' return A' -> option ValueType with
          | SlotMove _ => fun a => Some a
          | _ => fun _ => None
          end a'
      | CallBackoff _ =>
          match e' in queueE _ _ A' return A' -> option (bool * Backoff) with
          | CallBackoff _ => fun a => Some a
          | _ => fun _ => None
          end a'
      end
  end.

(** A handler that answers each access from a recorded trace: what one
    thread saw of the queue while the others ran. *)
Definition recorded (A : Type) (e : queueE ValueType Backoff A) (seen : trace)
  : option (trace * A) :=
  match seen with
  | o :: rest => option_map (fun a => (rest, a)) (recorded_answer A e o)
  | [] => None
  end.

End Traces.

Arguments trace ValueType Backoff : clear implicits.
Arguments mode Backoff : clear implicits.

(* ===================================================================== *)
(** ** A queue of integers to compute with *)
(* ===================================================================== *)

(** A backoff that gives up after [n] calls. *)
Definition countdown (n : nat) : bool * nat :=
  match n with
  | O => (true, O)
  | S k => (false, k)
  end.

(** [DefaultBoundedQueue<int>]: the [BoundedQueueNoWait] strategy, values
    that moving leaves alone. *)
Definition default_handle (A : Type) (e : queueE Z nat A) (q : BoundedQueue Z)
  : option (BoundedQueue Z * A) :=
  handle BoundedQueueNoWait (fun x => x) countdown A e q.

(** A queue of capacity two as its constructor leaves it. *)
Definition two_slots : BoundedQueue Z :=
  {| ring_ := Some [{| wait := {| ticket_ := 0 |}; value := 0 |};
                    {| wait := {| ticket_ := 1 |}; value := 0 |}];
     mask_ := 1; finish_ := false; head_ := 0; tail_ := 0 |}.

(** The other threads seen from one call: a handler that answers the
    reservation, the ticket reads, the finish flag and [tail_] from a
    script instead of from a queue. *)
Record script : Type := {
  reservation : Z;
  tickets : list Z;
  raised : bool;
  reserved_tail : Z
}.

Definition with_tickets (s : script) (rest : list Z) : script :=
  {| reservation := reservation s; tickets := rest;
     raised := raised s; reserved_tail := reserved_tail s |}.

Definition next_ticket (s : script) : option (script * Z) :=
  match tickets s with
  | c :: rest => Some (with_tickets s rest, c)
  | [] => None
  end.

Definition scripted {ValueType Backoff : Type} (moved_out : ValueType)
    (call_backoff : Backoff -> bool * Backoff)
    (A : Type) (e : queueE ValueType Backoff A) (s : script)
  : option (script * A) :=
  match e in queueE _ _ A return option (script * A) with
  | FetchAdd _ _ => Some (s, reservation s)
  | CounterLoad _ _ => Some (s, reserved_tail s)
  | FinishLoad => Some (s, raised s)
  | FinishStore => Some (s, tt)
  | SlotLoad _ => next_ticket s
  | SlotWaitAndLoad _ _ => next_ticket s
  | SlotStoreAndWake _ _ => Some (s, tt)
  | SlotWake _ => Some (s, tt)
  | SlotAssign _ _ => Some (s, tt)
  | SlotMove _ => Some (s, moved_out)
  | CallBackoff b => Some (s, call_backoff b)
  end.

(** The consumer's shutdown test lets it through: the flag is down, or
    [tail_] is beyond the required ticket. *)
Definition keeps_waiting (required_ticket : Z) (s : script) : Prop :=
  raised s = false \/ (required_ticket >=? reserved_tail s) = false.

(** A queue of capacity two that has served [2^32 - 1] values: slot 1
    waits for the producer of reservation [2^32 - 1], slot 0 for the next
    one, whose ticket has wrapped to 0. *)
Definition about_to_wrap : BoundedQueue Z :=
  {| ring_ := Some [{| wait := {| ticket_ := 0 |}; value := 0 |};
                    {| wait := {| ticket_ := 4294967295 |}; value := 0 |}];
     mask_ := 1; finish_ := false; head_ := 4294967295; tail_ := 4294967295 |}.

(** A queue of capacity four as its constructor leaves it. *)
Definition four_slots : BoundedQueue Z :=
  {| ring_ := Some [{| wait := {| ticket_ := 0 |}; value := 0 |};
                    {| wait := {| ticket_ := 1 |}; value := 0 |};
                    {| wait := {| ticket_ := 2 |}; value := 0 |};
                    {| wait := {| ticket_ := 3 |}; value := 0 |}];
     mask_ := 3; finish_ := false; head_ := 0; tail_ := 0 |}.

(** The interleaving semantics of [DefaultBoundedQueue<int>]. *)
Definition default_schedule (plan : list (nat * nat)) (sys : system Z nat)
  : option (system Z nat) :=
  schedule BoundedQueueNoWait (fun x => x) countdown plan sys.

(** What each call of a system has returned, in thread order. *)
Definition returns {ValueType Backoff : Type} (sys : system ValueType Backoff)
  : list (option (returned ValueType)) :=
  List.map (fun tid => returned_by tid sys) (seq 0 (length (threads sys))).

(** Three values through a queue of capacity two: the third producer
    must wait for the first consumer.  The plan runs the three producers
    in turn, then a consumer, then lets the third producer go on, then the
    other two consumers. *)
Definition full_ring : system Z nat :=
  {| shared := two_slots;
     threads := [call_Enqueue 1 10 None; call_Enqueue 1 20 None;
                 call_Enqueue 1 30 None;
                 call_Dequeue 1 0 None; call_Dequeue 1 0 None;
                 call_Dequeue 1 0 None];
     history := [] |}.

Definition full_ring_plan : list (nat * nat) :=
  [(0, 5); (1, 5); (2, 12); (3, 5); (2, 5); (4, 5); (5, 5)]%nat.

(** Three values and five consumers on a queue of capacity four, then
    [Finish]: producers first, then the consumers, then [Finish], then the
    two consumers left waiting. *)
Definition partial_production : system Z nat :=
  {| shared := four_slots;
     threads := [call_Enqueue 3 1 None; call_Enqueue 3 2 None;
                 call_Enqueue 3 3 None;
                 call_Dequeue 3 0 None; call_Dequeue 3 0 None;
                 call_Dequeue 3 0 None; call_Dequeue 3 0 None;
                 call_Dequeue 3 0 None;
                 call_Finish 3];
     history := [] |}.

Definition partial_production_plan : list (nat * nat) :=
  [(0, 5); (1, 5); (2, 5); (3, 5); (4, 5); (5, 5); (6, 5); (7, 5);
   (8, 10); (6, 5); (7, 5)]%nat.

(** A consumer that is already waiting when the one value is produced:
    it reserves, finds the slot unpublished, waits once and is preempted;
    the producer runs to its end; [Finish] runs to its end; the consumer
    resumes. *)
Definition waiting_consumer : system Z nat :=
  {| shared := two_slots;
     threads := [call_Dequeue 1 0 None; call_Enqueue 1 10 None; call_Finish 1];
     history := [] |}.

Definition waiting_consumer_plan : list (nat * nat) :=
  [(0, 5); (1, 5); (2, 6); (0, 3)]%nat.

(** A producer that has reserved its slot but not yet published when
    [Finish] is called: the producer reserves and is preempted; [Finish]
    runs to its end; the consumer runs to its end; the producer resumes. *)
Definition late_producer : system Z nat :=
  {| shared := two_slots;
     threads := [call_Enqueue 1 10 None; call_Dequeue 1 0 None; call_Finish 1];
     history := [] |}.

Definition late_producer_plan : list (nat * nat) :=
  [(0, 1); (2, 6); (1, 5); (0, 5)]%nat.

(* ===================================================================== *)
(** ** Calls in sequence, and what the ring holds *)
(* ===================================================================== *)

Section Clients.

Context {ValueType Backoff : Type}.

(** One call made by a client of the queue. *)
Inductive operation : Type :=
| Push (x : ValueType)
| Pop.

(** One thread making the calls [ops] in order: [Enqueue(x, backoff...)]
    for [Push x], [Dequeue(v, backoff...)] for [Pop], with [v] the
    caller's variable; the result collects what each [Dequeue] handed
    back. *)
Fixpoint perform (mask : Z) (backoff : option Backoff) (ops : list operation)
    (v : ValueType) : itree (queueE ValueType Backoff) (list (bool * ValueType)) :=
  match ops with
  | [] => Ret []
  | Push x :: ops' =>
      Enqueue mask x backoff;;
      perform mask backoff ops' v
  | Pop :: ops' =>
      r <- Dequeue mask v backoff;;
      rs <- perform mask backoff ops' (snd r);;
      Ret (r :: rs)
  end.

(** The same calls on a first-in first-out list of at most [N] values:
    the values popped and the values left, or [None] when a [Push] finds
    [N] values or a [Pop] finds none. *)
Fixpoint fifo (N : Z) (ops : list operation) (xs : list ValueType)
  : option (list ValueType * list ValueType) :=
  match ops with
  | [] => Some ([], xs)
  | Push x :: ops' =>
      if Z.of_nat (length xs) <? N then fifo N ops' (xs ++ [x]) else None
  | Pop :: ops' =>
      match xs with
      | [] => None
      | y :: xs' =>
          match fifo N ops' xs' with
          | Some (outs, rest) => Some (y :: outs, rest)
          | None => None
          end
      end
  end.

(** The ring of a queue of capacity [N] that holds the values [xs],
    oldest first, the oldest under reservation [r]: [head_] stands at
    [r] and [tail_] behind the last value; the slot of the [i]-th value
    carries it under the ticket its consumer waits for; every other slot
    shows the ticket of the next producer that will fall on it. *)
Definition holding (N r : Z) (xs : list ValueType) (q : BoundedQueue ValueType)
  : Prop :=
  Z.of_nat (length xs) <= N /\
  mask_ q = N - 1 /\
  head_ q = u64 r /\
  tail_ q = u64 (r + Z.of_nat (length xs)) /\
  (forall (i : nat) (x : ValueType),
      nth_error xs i = Some x ->
      slot_at q ((r + Z.of_nat i) mod N)
      = Some {| wait := {| ticket_ := u32 (r + Z.of_nat i + 1) |}; value := x |}) /\
  (forall t : Z,
      r + Z.of_nat (length xs) <= t < r + N ->
      exists sl, slot_at q (t mod N) = Some sl /\ Load (wait sl) = u32 t).

End Clients.

Arguments operation ValueType : clear implicits.

(* ===================================================================== *)
(** ** Accesses that stay inside the ring *)
(* ===================================================================== *)

Section Safety.

Context {E : Type -> Type}.

(** [issues P Q n t]: down to depth [n], and whatever answers it
    gets, the tree [t] makes only accesses that satisfy [P] and returns
    only results that satisfy [Q]. *)
Fixpoint issues {R : Type} (P : forall A : Type, E A -> Prop) (Q : R -> Prop)
    (n : nat) (t : itree E R) : Prop :=
  match n with
  | O => True
  | S n' =>
      match observe t with
      | RetF r => Q r
      | TauF t' => issues P Q n' t'
      | VisF e k => P _ e /\ forall a, issues P Q n' (k a)
      end
  end.

End Safety.

Section Within.

Context {ValueType Backoff : Type}.

(** The slot an access names, if it names one. *)
Definition slot_of (A : Type) (e : queueE ValueType Backoff A) : option Z :=
  match e with
  | SlotLoad i | SlotWaitAndLoad i _ | SlotStoreAndWake i _ | SlotWake i
  | SlotAssign i _ | SlotMove i => Some i
  | _ => None
  end.

(** An access that stays inside a ring of [mask + 1] slots. *)
Definition within (mask : Z) (A : Type) (e : queueE ValueType Backoff A) : Prop :=
  match slot_of A e with
  | Some i => 0 <= i <= mask
  | None => True
  end.

(** A ring with its slots [0 .. mask] in place. *)
Definition intact (mask : Z) (q : BoundedQueue ValueType) : Prop :=
  forall i, 0 <= i <= mask -> slot_at q i <> None.

(** A thread that is a call of a public operation on a queue whose
    [mask_] is [mask]. *)
Inductive is_call (mask : Z) : thread ValueType Backoff -> Prop :=
| is_Enqueue (x : ValueType) (backoff : option Backoff) :
    is_call mask (call_Enqueue mask x backoff)
| is_Dequeue (v : ValueType) (backoff : option Backoff) :
    is_call mask (call_Dequeue mask v backoff)
| is_Finish :
    is_call mask (call_Finish mask).

(** An observed access that stays inside a ring of [mask + 1] slots. *)
Definition in_ring (mask : Z) (o : obs (queueE ValueType Backoff)) : Prop :=
  match o with
  | Obs e _ => within mask _ e
  end.

(** A system whose queue has [mask_ = mask] and an intact ring, and
    whose threads name only slots inside it from here on. *)
Definition confined (mask : Z) (sys : system ValueType Backoff) : Prop :=
  mask_ (shared sys) = mask /\
  intact mask (shared sys) /\
  Forall (fun t => forall n, issues (within mask) (fun _ => True) n t)
    (threads sys).

End Within.

(* ===================================================================== *)
(** ** Reservations along a history *)
(* ===================================================================== *)

Section FollowsDef.

Context {E : Type -> Type} {St : Type}.
Variable h : forall A : Type, E A -> St -> option (St * A).

(** [follows s tr s']: from state [s] the handler gives the accesses
    of [tr] exactly the answers recorded in it, and ends in [s']. *)
Inductive follows : St -> list (obs E) -> St -> Prop :=
| follows_nil (s : St) : follows s [] s
| follows_cons (A : Type) (e : E A) (a : A) (s s1 s2 : St) (tr : list (obs E)) :
    h A e s = Some (s1, a) ->
    follows s1 tr s2 ->
    follows s (Obs e a :: tr) s2.

End FollowsDef.

Section ReservationsDef.
Context {ValueType Backoff : Type}.

Definition same_counter (c c' : counter) : bool :=
  match c, c' with
  | head_counter, head_counter | tail_counter, tail_counter => true
  | _, _ => false
  end.

(** The reservation an access obtained from counter [c], if it is a
    fetch-add of that counter. *)
Definition reservation_of (c : counter) (o : obs (queueE ValueType Backoff))
  : option Z :=
  match o with
  | Obs e a =>
      match e in queueE _ _ A return A -> option Z with
      | FetchAdd c' _ => fun a => if same_counter c c' then Some a else None
      | _ => fun _ => None
      end a
  end.

(** The reservations handed out by counter [c] along a trace, in
    order. *)
Fixpoint reservations (c : counter) (tr : trace ValueType Backoff) : list Z :=
  match tr with
  | [] => []
  | o :: tr' =>
      match reservation_of c o with
      | Some t => t :: reservations c tr'
      | None => reservations c tr'
      end
  end.

(** The value of counter [c] in a queue object. *)
Definition counter_of (c : counter) (q : BoundedQueue ValueType) : Z :=
  match c with
  | head_counter => head_ q
  | tail_counter => tail_ q
  end.

End ReservationsDef.

(* ===================================================================== *)
(** ** More queues to compute with *)
(* ===================================================================== *)

(** A queue of capacity two that holds 10 and 20. *)
Definition full_two : BoundedQueue Z :=
  {| ring_ := Some [{| wait := {| ticket_ := 1 |}; value := 10 |};
                    {| wait := {| ticket_ := 2 |}; value := 20 |}];
     mask_ := 1; finish_ := false; head_ := 0; tail_ := 2 |}.

(** A queue of capacity one that holds 10. *)
Definition full_one : BoundedQueue Z :=
  {| ring_ := Some [{| wait := {| ticket_ := 1 |}; value := 10 |}];
     mask_ := 0; finish_ := false; head_ := 0; tail_ := 1 |}.

(** A queue of capacity two that holds 10 under reservation
    [2^63 - 1], the last one that is positive as an [int64_t]. *)
Definition at_signed_edge : BoundedQueue Z :=
  {| ring_ := Some [{| wait := {| ticket_ := 0 |}; value := 0 |};
                    {| wait := {| ticket_ := 0 |}; value := 10 |}];
     mask_ := 1; finish_ := false;
     head_ := 9223372036854775807; tail_ := 9223372036854775808 |}.

(** A queue of capacity two that the value 10 has passed through. *)
Definition served_one : BoundedQueue Z :=
  {| ring_ := Some [{| wait := {| ticket_ := 2 |}; value := 10 |};
                    {| wait := {| ticket_ := 1 |}; value := 0 |}];
     mask_ := 1; finish_ := false; head_ := 1; tail_ := 1 |}.

(** The same ring one lap of the 32-bit tickets later: the counters
    stand at [2^33 - 1], the tickets are their low 32 bits. *)
Definition about_to_wrap_again : BoundedQueue Z :=
  {| ring_ := Some [{| wait := {| ticket_ := 0 |}; value := 0 |};
                    {| wait := {| ticket_ := 4294967295 |}; value := 0 |}];
     mask_ := 1; finish_ := false; head_ := 8589934591; tail_ := 8589934591 |}.

(* ===================================================================== *)
(** ** The stages of a call, and who owns a slot *)
(* ===================================================================== *)

Section Monitor.

Context {E : Type -> Type} {M : Type}.

(** [adv m e a m']: a call at stage [m] may make the access [e], and
    on the answer [a] it is at stage [m']. *)
Variable adv : M -> forall A : Type, E A -> A -> M -> Prop.

(** [obeys Q n m t]: down to depth [n], and whatever answers it gets,
    the tree [t] started at stage [m] makes only the accesses its stage
    allows, and returns [r] at a stage [m'] only if [Q m' r]. *)
Fixpoint obeys {R : Type} (Q : M -> R -> Prop) (n : nat) (m : M) (t : itree E R)
  : Prop :=
  match n with
  | O => True
  | S n' =>
      match observe t with
      | RetF r => Q m r
      | TauF t' => obeys Q n' m t'
      | VisF e k => forall a, exists m', adv m _ e a m' /\ obeys Q n' m' (k a)
      end
  end.

End Monitor.

Section Stages.

Context {ValueType Backoff : Type}.

(** Where a call of a public operation stands.  A reserved call
    carries its reservation and whether the last ticket it read was the
    one it waits for. *)
Inductive stage : Type :=
| Enqueue_called (x : ValueType)
| Enqueue_reserved (x : ValueType) (t : Z) (matched : bool)
| Enqueue_assigned (x : ValueType) (t : Z)
| Enqueue_published (x : ValueType) (t : Z)
| Dequeue_called
| Dequeue_reserved (h : Z) (matched : bool)
| Dequeue_moved (h : Z) (y : ValueType)
| Dequeue_released (h : Z) (y : ValueType)
| Finish_called.

(** The accesses each stage allows on a queue whose [mask_] is [mask],
    read off [Enqueue], [Dequeue] and [Finish]: a call reads the ticket
    of its own slot until it matches, and writes the slot only after the
    match. *)
Definition advance (mask : Z) (s : stage) (A : Type) (e : queueE ValueType Backoff A)
  : A -> stage -> Prop :=
  match e in queueE _ _ A return A -> stage -> Prop with
  | FetchAdd c mo => fun t s' =>
      match s, c, mo with
      | Enqueue_called x, tail_counter, memory_order_seq_cst =>
          s' = Enqueue_reserved x t false
      | Dequeue_called, head_counter, memory_order_relaxed =>
          s' = Dequeue_reserved t false
      | _, _, _ => False
      end
  | SlotLoad i | SlotWaitAndLoad i _ => fun c s' =>
      match s with
      | Enqueue_reserved x t false =>
          i = Z.land t mask /\ s' = Enqueue_reserved x t (c =? u32 t)
      | Dequeue_reserved h false =>
          i = Z.land h mask /\ s' = Dequeue_reserved h (c =? u32 (u64 (h + 1)))
      | _ => False
      end
  | CallBackoff _ => fun _ s' =>
      match s with
      | Enqueue_reserved _ _ false | Dequeue_reserved _ false => s' = s
      | _ => False
      end
  | FinishLoad => fun _ s' =>
      match s with
      | Dequeue_reserved _ false => s' = s
      | _ => False
      end
  | CounterLoad c mo => fun _ s' =>
      match s, c, mo with
      | Dequeue_reserved _ false, tail_counter, memory_order_seq_cst => s' = s
      | _, _, _ => False
      end
  | SlotAssign i y => fun _ s' =>
      match s with
      | Enqueue_reserved x t true =>
          i = Z.land t mask /\ y = x /\ s' = Enqueue_assigned x t
      | _ => False
      end
  | SlotMove i => fun y s' =>
      match s with
      | Dequeue_reserved h true => i = Z.land h mask /\ s' = Dequeue_moved h y
      | _ => False
      end
  | SlotStoreAndWake i v => fun _ s' =>
      match s with
      | Enqueue_assigned x t =>
          i = Z.land t mask /\ v = u32 (u64 (t + 1)) /\ s' = Enqueue_published x t
      | Dequeue_moved h y =>
          i = Z.land h mask /\ v = u32 (u64 (u64 (h + mask) + 1)) /\
          s' = Dequeue_released h y
      | _ => False
      end
  | FinishStore | SlotWake _ => fun _ s' =>
      match s with
      | Finish_called => s' = s
      | _ => False
      end
  end.

(** What a call may return at each stage. *)
Definition returns_at (s : stage) (r : returned ValueType) : Prop :=
  match r with
  | ReturnedVoid => True
  | ReturnedDequeue true y => exists h, s = Dequeue_released h y
  | ReturnedDequeue false _ => True
  end.

(** The stage a call starts at. *)
Inductive starts_at (mask : Z) : thread ValueType Backoff -> stage -> Prop :=
| starts_Enqueue (x : ValueType) (backoff : option Backoff) :
    starts_at mask (call_Enqueue mask x backoff) (Enqueue_called x)
| starts_Dequeue (v : ValueType) (backoff : option Backoff) :
    starts_at mask (call_Dequeue mask v backoff) Dequeue_called
| starts_Finish :
    starts_at mask (call_Finish mask) Finish_called.

End Stages.

Arguments stage ValueType : clear implicits.
Arguments advance : clear implicits.

Section Ownership.

Context {ValueType : Type}.

(** The reservation a producer or a consumer call drew, once it has. *)
Definition tail_reservation (s : stage ValueType) : option Z :=
  match s with
  | Enqueue_reserved _ t _ | Enqueue_assigned _ t | Enqueue_published _ t => Some t
  | _ => None
  end.

Definition head_reservation (s : stage ValueType) : option Z :=
  match s with
  | Dequeue_reserved h _ | Dequeue_moved h _ | Dequeue_released h _ => Some h
  | _ => None
  end.

Definition has_reserved (s : stage ValueType) : bool :=
  match s with
  | Enqueue_called _ | Dequeue_called | Finish_called => false
  | _ => true
  end.

(** A call owns its slot from the moment it read the ticket it waits
    for until it stores the next one: the reservation and the ticket. *)
Definition owns (s : stage ValueType) : option (Z * Z) :=
  match s with
  | Enqueue_reserved _ t true | Enqueue_assigned _ t => Some (t, u32 t)
  | Dequeue_reserved h true | Dequeue_moved h _ => Some (h, u32 (u64 (h + 1)))
  | _ => None
  end.

(** The stage the call was at when it started. *)
Definition origin (s : stage ValueType) : stage ValueType :=
  match s with
  | Enqueue_called x | Enqueue_reserved x _ _ | Enqueue_assigned x _
  | Enqueue_published x _ => Enqueue_called x
  | Dequeue_called | Dequeue_reserved _ _ | Dequeue_moved _ _
  | Dequeue_released _ _ => Dequeue_called
  | Finish_called => Finish_called
  end.

(** Slot [j] of a ring of [N] slots, given the stages of the calls: its
    ticket either waits for a producer, or was stored by the producer of
    the reservation before it, whose value the slot holds until a consumer
    has moved it out. *)
Definition slot_ok (N : Z) (ss : list (stage ValueType)) (sl : Slot ValueType) (j : Z)
  : Prop :=
  let c := ticket_ (wait sl) in
  0 <= c /\
  (c mod N = j \/
   (c mod N = (j + 1) mod N /\
    exists i x,
      nth_error ss i = Some (Enqueue_published x (c - 1)) /\
      ((forall i' y, nth_error ss i' <> Some (Dequeue_moved (c - 1) y)) ->
       value sl = x))).

(** The queue and the stages of the calls running on it agree. *)
Record consistent (N r0 : Z) (q : BoundedQueue ValueType) (ss : list (stage ValueType))
  : Prop := {
  counters_bounded :
    r0 <= head_ q /\ r0 <= tail_ q /\
    (head_ q - r0) + (tail_ q - r0) <= Z.of_nat (length (filter has_reserved ss));
  tails_in_range : forall i s t,
    nth_error ss i = Some s -> tail_reservation s = Some t -> r0 <= t < tail_ q;
  heads_in_range : forall i s h,
    nth_error ss i = Some s -> head_reservation s = Some h -> r0 <= h < head_ q;
  tails_unique : forall i j s s' t,
    nth_error ss i = Some s -> nth_error ss j = Some s' ->
    tail_reservation s = Some t -> tail_reservation s' = Some t -> i = j;
  heads_unique : forall i j s s' h,
    nth_error ss i = Some s -> nth_error ss j = Some s' ->
    head_reservation s = Some h -> head_reservation s' = Some h -> i = j;
  owner_sees_ticket : forall i s r c,
    nth_error ss i = Some s -> owns s = Some (r, c) ->
    exists sl, slot_at q (r mod N) = Some sl /\ ticket_ (wait sl) = c;
  slots_alternate : forall j, 0 <= j < N ->
    exists sl, slot_at q j = Some sl /\ slot_ok N ss sl j;
  assigned_value : forall i x t,
    nth_error ss i = Some (Enqueue_assigned x t) ->
    exists sl, slot_at q (t mod N) = Some sl /\ value sl = x;
  taken_from : forall i h y,
    nth_error ss i = Some (Dequeue_moved h y) \/
    nth_error ss i = Some (Dequeue_released h y) ->
    exists i', nth_error ss i' = Some (Enqueue_published y h)
}.

End Ownership.

Section Matching.

Context {ValueType Backoff : Type}.

(** Which call drew which reservation from counter [c], in the order
    of the history. *)
Definition drawn (c : counter) (hist : list (nat * obs (queueE ValueType Backoff)))
  : list (nat * Z) :=
  flat_map (fun p => match reservation_of c (snd p) with
                     | Some r => [(fst p, r)]
                     | None => []
                     end) hist.

(** The calls of a system, the queue they share and the accesses they
    made since the start agree with the stages [ss]. *)
Record agree (N r0 : Z) (ss0 : list (stage ValueType))
    (sys : system ValueType Backoff) (ss : list (stage ValueType))
    (delta : list (nat * obs (queueE ValueType Backoff))) : Prop := {
  agree_threads :
    Forall2 (fun t s => forall n,
               obeys (advance ValueType Backoff (N - 1)) returns_at n s t)
      (threads sys) ss;
  agree_queue : consistent N r0 (shared sys) ss;
  agree_origin : Forall2 (fun s0 s => origin s = s0) ss0 ss;
  agree_tails : forall i t,
    In (i, t) (drawn tail_counter delta) <->
    exists s, nth_error ss i = Some s /\ tail_reservation s = Some t;
  agree_heads : forall i h,
    In (i, h) (drawn head_counter delta) <->
    exists s, nth_error ss i = Some s /\ head_reservation s = Some h
}.

End Matching.

(* ===================================================================== *)
(** ** Facts about [run] *)
(* ===================================================================== *)

Section MachineFacts.

Context {E : Type -> Type} {St : Type}.
Variable h : forall A : Type, E A -> St -> option (St * A).

(** Strongly bisimilar trees run alike, so the equations of the
    interaction-tree library rewrite under [run]. *)
Lemma run_eq_itree {R : Type} (fuel : nat) :
  forall (t1 t2 : itree E R) (s : St), t1 ≅ t2 -> run h fuel t1 s = run h fuel t2 s.
Proof.
  induction fuel as [|n IH]; intros t1 t2 s H; [reflexivity|].
  simpl. apply eqit_inv in H. unfold observe.
  destruct (_observe t1) as [r1|u1|X1 e1 k1], (_observe t2) as [r2|u2|X2 e2 k2];
    cbn in H; try contradiction.
  - now subst.
  - now apply IH.
  - destruct H as [p [He Hk]]. destruct p. cbn in He, Hk. subst e2.
    destruct (h X1 e1 s) as [[s' a]|]; [|reflexivity].
    f_equal. apply IH, Hk.
Qed.

#[global] Instance run_Proper {R : Type} (fuel : nat) :
  Proper (eq_itree eq ==> eq ==> eq) (@run E St h R fuel).
Proof. intros t1 t2 H s ? <-. now apply run_eq_itree. Qed.

Lemma run_unfold {R : Type} (n : nat) (t : itree E R) (s : St) :
  run h (S n) t s =
  match observe t with
  | RetF r => Done r s []
  | TauF t' => run h n t' s
  | VisF e k =>
      match h _ e s with
      | None => Fault []
      | Some (s', a) => prepend (Obs e a) (run h n (k a) s')
      end
  end.
Proof. reflexivity. Qed.

Lemma run_Ret {R : Type} (n : nat) (r : R) (s : St) :
  run h (S n) (Ret r) s = Done r s [].
Proof. reflexivity. Qed.

Lemma run_Tau {R : Type} (n : nat) (t : itree E R) (s : St) :
  run h (S n) (Tau t) s = run h n t s.
Proof. reflexivity. Qed.

Lemma run_bind_Ret {A R : Type} (n : nat) (a : A) (k : A -> itree E R) (s : St) :
  run h n (ITree.bind (Ret a) k) s = run h n (k a) s.
Proof. now rewrite bind_ret_l. Qed.

Lemma run_bind_trigger {A R : Type} (n : nat) (e : E A) (k : A -> itree E R) (s : St) :
  run h (S n) (ITree.bind (ITree.trigger e) k) s =
  match h _ e s with
  | None => Fault []
  | Some (s', a) => prepend (Obs e a) (run h n (k a) s')
  end.
Proof. now rewrite bind_trigger. Qed.

Lemma run_trigger {A : Type} (n : nat) (e : E A) (s : St) :
  run h (S (S n)) (ITree.trigger e) s =
  match h _ e s with
  | None => Fault []
  | Some (s', a) => Done a s' [Obs e a]
  end.
Proof. simpl. now destruct (h A e s) as [[s' a]|]. Qed.

Lemma run_iter {I R : Type} (n : nat) (body : I -> itree E (I + R)) (i : I) (s : St) :
  run h n (ITree.iter body i) s =
  run h n (ITree.bind (body i) (fun lr =>
             match lr with
             | inl l => Tau (ITree.iter body l)
             | inr r => Ret r
             end)) s.
Proof. now rewrite unfold_iter. Qed.

Lemma prepend_Done {R : Type} (o : obs E) (x : outcome E St R) r s tr :
  prepend o x = Done r s tr ->
  exists tr', x = Done r s tr' /\ tr = o :: tr'.
Proof.
  destruct x as [r0 s0 tr0|tr0|tr0]; simpl; intros H; try discriminate.
  injection H as -> -> <-. now exists tr0.
Qed.

(** More fuel does not change a finished run. *)
Lemma run_mono {R : Type} (n : nat) :
  forall (m : nat) (t : itree E R) (s : St) r s' tr,
    run h n t s = Done r s' tr -> (n <= m)%nat -> run h m t s = Done r s' tr.
Proof.
  induction n as [|n IH]; intros m t s r s' tr H Hle; [discriminate|].
  destruct m as [|m]; [lia|]. simpl in *.
  destruct (observe t) as [r0|t0|X e k].
  - exact H.
  - apply IH; [exact H | lia].
  - destruct (h X e s) as [[s1 a]|]; [|discriminate].
    apply prepend_Done in H. destruct H as [tr' [H ->]].
    rewrite (IH m _ _ _ _ _ H); [reflexivity | lia].
Qed.

(** A finished run of [t ;; k] splits into a finished run of each. *)
Lemma run_bind_Done {A R : Type} (n : nat) :
  forall (t : itree E A) (k : A -> itree E R) (s : St) r s' tr,
    run h n (ITree.bind t k) s = Done r s' tr ->
    exists a s1 tr1 tr2,
      run h n t s = Done a s1 tr1 /\
      run h n (k a) s1 = Done r s' tr2 /\
      tr = tr1 ++ tr2.
Proof.
  induction n as [|n IH]; intros t k s r s' tr H; [discriminate|].
  rewrite run_unfold, observe_bind in H. rewrite (run_unfold n t).
  destruct (observe t) as [a|t0|X e ke].
  - exists a, s, [], tr. repeat split. exact H.
  - cbn in H. apply IH in H.
    destruct H as (a & s1 & tr1 & tr2 & H1 & H2 & ->).
    exists a, s1, tr1, tr2.
    split; [exact H1 | split; [|reflexivity]].
    apply (run_mono n); [exact H2 | lia].
  - cbn in H.
    destruct (h X e s) as [[s0 x]|]; [|discriminate].
    apply prepend_Done in H. destruct H as [tr' [H ->]].
    apply IH in H. destruct H as (a & s1 & tr1 & tr2 & H1 & H2 & ->).
    exists a, s1, (Obs e x :: tr1), tr2. rewrite H1.
    split; [reflexivity | split; [|reflexivity]].
    apply (run_mono n); [exact H2 | lia].
Qed.

(** Two finished runs compose. *)
Lemma run_bind_compose {A R : Type} (n : nat) :
  forall (m : nat) (t : itree E A) (k : A -> itree E R) (s : St) a s1 tr1 r s' tr2,
    run h n t s = Done a s1 tr1 ->
    run h m (k a) s1 = Done r s' tr2 ->
    run h (n + m) (ITree.bind t k) s = Done r s' (tr1 ++ tr2).
Proof.
  induction n as [|n IH]; intros m t k s a s1 tr1 r s' tr2 H1 H2; [discriminate|].
  rewrite run_unfold in H1. cbn [plus]. rewrite run_unfold, observe_bind.
  destruct (observe t) as [a0|t0|X e ke].
  - injection H1 as -> -> <-. rewrite <- run_unfold.
    apply (run_mono m); [exact H2 | lia].
  - cbn. now apply (IH m _ _ _ a s1).
  - cbn.
    destruct (h X e s) as [[s0 x]|]; [|discriminate].
    apply prepend_Done in H1. destruct H1 as [tr' [H1 ->]].
    now rewrite (IH m _ _ _ a s1 tr' r s' tr2 H1 H2).
Qed.

(** A finished run ends in the state its accesses replay to. *)
Lemma run_replay {R : Type} (n : nat) :
  forall (t : itree E R) (s : St) r s' tr,
    run h n t s = Done r s' tr -> replay h tr s = Some s'.
Proof.
  induction n as [|n IH]; intros t s r s' tr H; [discriminate|].
  rewrite run_unfold in H. destruct (observe t) as [r0|t0|X e k].
  - now injection H as _ <- <-.
  - now apply (IH t0 s r).
  - destruct (h X e s) as [[s1 a]|] eqn:He; [|discriminate].
    apply prepend_Done in H. destruct H as [tr' [H ->]].
    cbn [replay]. rewrite He. now apply (IH (k a) s1 r).
Qed.

End MachineFacts.

(* ===================================================================== *)
(** ** Arithmetic of tickets and masks *)
(* ===================================================================== *)

Lemma u32_range (z : Z) : 0 <= u32 z < 2 ^ 32.
Proof. unfold u32. apply Z.mod_pos_bound. lia. Qed.

Lemma u64_range (z : Z) : 0 <= u64 z < 2 ^ 64.
Proof. unfold u64. apply Z.mod_pos_bound. lia. Qed.

Lemma u32_small (z : Z) : 0 <= z < 2 ^ 32 -> u32 z = z.
Proof. unfold u32. intros H. now apply Z.mod_small. Qed.

Lemma u64_small (z : Z) : 0 <= z < 2 ^ 64 -> u64 z = z.
Proof. unfold u64. intros H. now apply Z.mod_small. Qed.

(** Truncating to 32 bits forgets an earlier truncation to 64. *)
Lemma u32_u64 (z : Z) : u32 (u64 z) = u32 z.
Proof.
  unfold u32, u64. apply Z.mod_mod_divide.
  exists (2 ^ 32). reflexivity.
Qed.

Lemma u32_add_l (a b : Z) : u32 (u32 a + b) = u32 (a + b).
Proof. unfold u32. apply Zplus_mod_idemp_l. Qed.

Lemma u64_add_l (a b : Z) : u64 (u64 a + b) = u64 (a + b).
Proof. unfold u64. apply Zplus_mod_idemp_l. Qed.

(** The ticket a consumer publishes: [head + mask_ + 1] computed in 64
    bits and passed as a 32-bit argument. *)
Lemma u32_wake_tail (head mask : Z) :
  u32 (u64 (u64 (head + mask) + 1)) = u32 (head + (mask + 1)).
Proof. rewrite u64_add_l, u32_u64. f_equal. lia. Qed.

Lemma power_of_two_pos (N : Z) : power_of_two N -> 0 < N.
Proof. intros (k & Hk & ->). apply Z.pow_pos_nonneg; lia. Qed.

(** The constructor's test [(size & (size - 1)) != 0]. *)
Lemma land_pred_power_of_two (N : Z) :
  0 < N -> (Z.land N (N - 1) = 0 <-> power_of_two N).
Proof.
  intros HN. split.
  - intros Hland. exists (Z.log2 N). split; [apply Z.log2_nonneg|].
    destruct (Z.log2_spec N HN) as [Hlo Hhi].
    destruct (Z.eq_dec N (2 ^ Z.log2 N)) as [|Hne]; [assumption|exfalso].
    assert (Hbit : Z.testbit (Z.land N (N - 1)) (Z.log2 N) = true).
    { assert (Hpos : 0 < 2 ^ Z.log2 N)
        by (apply Z.pow_pos_nonneg; [lia | apply Z.log2_nonneg]).
      assert (Hlog : Z.log2 (N - 1) = Z.log2 N)
        by (apply Z.log2_unique; [apply Z.log2_nonneg | lia]).
      rewrite Z.land_spec, (Z.bit_log2 N HN), <- Hlog.
      apply Z.bit_log2. lia. }
    rewrite Hland, Z.bits_0 in Hbit. discriminate.
  - intros (k & Hk & ->).
    replace (2 ^ k - 1) with (Z.ones k) by (rewrite Z.ones_equiv; lia).
    rewrite Z.land_ones by assumption. apply Z.mod_same.
    apply Z.pow_nonzero; lia.
Qed.

Lemma land_mask_mod (N r : Z) : power_of_two N -> Z.land r (N - 1) = r mod N.
Proof.
  intros (k & Hk & ->).
  replace (2 ^ k - 1) with (Z.ones k) by (rewrite Z.ones_equiv; lia).
  now apply Z.land_ones.
Qed.

(** A capacity that fits [std::uint32_t] divides [2^32]. *)
Lemma power_of_two_divides (N : Z) : power_of_two N -> N < 2 ^ 32 -> (N | 2 ^ 32).
Proof.
  intros (k & Hk & ->) Hlt.
  apply Z.pow_lt_mono_r_iff in Hlt; [|lia|lia].
  exists (2 ^ (32 - k)). rewrite <- Z.pow_add_r by lia. f_equal. lia.
Qed.

Lemma u32_u64_add (a d : Z) : u32 (u64 a + d) = u32 (a + d).
Proof. now rewrite <- u32_add_l, u32_u64, u32_add_l. Qed.

Lemma sub_u64_mod (N j a : Z) :
  power_of_two N -> N < 2 ^ 32 -> (j - u64 a) mod N = (j - a) mod N.
Proof.
  intros Hp Hlt. unfold u64.
  rewrite <- Zminus_mod_idemp_r, Z.mod_mod_divide, Zminus_mod_idemp_r; [reflexivity|].
  apply Z.divide_trans with (2 ^ 32); [now apply power_of_two_divides|].
  exists (2 ^ 32). reflexivity.
Qed.

(** The slot that reservation [r] was served on next shows the ticket
    of reservation [r + N]. *)
Lemma next_ticket_served (N r : Z) :
  power_of_two N -> N < 2 ^ 32 ->
  u32 (u64 (r + 1) + (r mod N - u64 (r + 1)) mod N) = u32 (r + N).
Proof.
  intros Hp Hlt. pose proof (power_of_two_pos N Hp) as HN.
  rewrite sub_u64_mod, u32_u64_add by assumption.
  rewrite Zminus_mod_idemp_l.
  replace (r - (r + 1)) with (-1) by lia.
  rewrite <- (Z.mod_unique (-1) N (-1) (N - 1)) by lia.
  f_equal. lia.
Qed.

(** Every other slot keeps waiting for the same reservation. *)
Lemma next_ticket_other (N r j : Z) :
  power_of_two N -> N < 2 ^ 32 ->
  0 <= j < N -> j <> r mod N ->
  u32 (u64 (r + 1) + (j - u64 (r + 1)) mod N) = u32 (r + (j - r) mod N).
Proof.
  intros Hp Hlt Hj Hne. pose proof (power_of_two_pos N Hp) as HN.
  rewrite sub_u64_mod, u32_u64_add by assumption.
  pose proof (Z.mod_pos_bound (j - r) N HN) as Hd.
  assert (Hnz : (j - r) mod N <> 0).
  { intros H0. apply Hne.
    rewrite <- (Z.mod_small j N Hj).
    replace j with (j - r + r) at 1 by lia.
    now rewrite <- Zplus_mod_idemp_l, H0. }
  replace (j - (r + 1)) with (j - r - 1) by lia.
  rewrite <- Zminus_mod_idemp_l, (Z.mod_small ((j - r) mod N - 1)) by lia.
  f_equal. lia.
Qed.

(* ===================================================================== *)
(** ** Arrays *)
(* ===================================================================== *)

Lemma update_length {A : Type} (f : A -> A) (l : list A) :
  forall n, length (update l n f) = length l.
Proof. induction l as [|x l IH]; intros [|n]; simpl; auto. Qed.

Lemma nth_error_update {A : Type} (f : A -> A) (l : list A) :
  forall n j,
    nth_error (update l n f) j =
    if Nat.eqb j n then option_map f (nth_error l j) else nth_error l j.
Proof.
  induction l as [|x l IH]; intros [|n] [|j]; simpl; auto;
    now destruct (Nat.eqb _ _).
Qed.


(* ===================================================================== *)
(** ** The queue object under one access *)
(* ===================================================================== *)

Section QueueObject.

Context {ValueType Backoff : Type} (W : WaitType).
Variable moved_from : ValueType -> ValueType.
Variable call_backoff : Backoff -> bool * Backoff.

(** Reading a slot after one slot was rewritten. *)
Lemma slot_at_with_slot (q : BoundedQueue ValueType) (i j : Z) (f : Slot ValueType -> Slot ValueType) :
  0 <= i ->
  slot_at (with_slot q i f) j =
  if j =? i then option_map f (slot_at q j) else slot_at q j.
Proof.
  intros Hi. unfold slot_at, with_slot. cbn [ring_].
  destruct (ring_ q) as [ring|]; cbn [option_map]; [|now destruct (j =? i)].
  destruct (Z.ltb_spec j 0) as [Hj|Hj].
  - destruct (Z.eqb_spec j i); [lia | reflexivity].
  - rewrite nth_error_update.
    destruct (Z.eqb_spec j i) as [->|Hne].
    + now rewrite Nat.eqb_refl.
    + destruct (Nat.eqb_spec (Z.to_nat j) (Z.to_nat i)); [lia | reflexivity].
Qed.

Lemma slot_at_nonneg (q : BoundedQueue ValueType) (i : Z) (s : Slot ValueType) :
  slot_at q i = Some s -> 0 <= i.
Proof.
  unfold slot_at. destruct (ring_ q); [|discriminate].
  destruct (Z.ltb_spec i 0); [discriminate | lia].
Qed.

(** No access lowers the finish flag, and none changes the mask. *)
Lemma handle_finish_mask (A : Type) (e : queueE ValueType Backoff A)
    (q q' : BoundedQueue ValueType) (a : A) :
  handle W moved_from call_backoff A e q = Some (q', a) ->
  (finish_ q = true -> finish_ q' = true) /\ mask_ q' = mask_ q.
Proof.
  destruct e as [[|] mo|[|] mo| | |i|i v|i v|i|i x|i|b]; cbn [handle];
    try destruct (slot_at q i);
    intros H; try discriminate; injection H as <- <-; now split.
Qed.

(** An access that touches no slot leaves the ring as it was. *)
Lemma handle_quiet (A : Type) (e : queueE ValueType Backoff A)
    (q q' : BoundedQueue ValueType) (a a' : A) :
  touches_slot (Obs e a') = false ->
  handle W moved_from call_backoff A e q = Some (q', a) ->
  ring_ q' = ring_ q.
Proof.
  destruct e as [[|] mo|[|] mo| | |i|i v|i v|i|i x|i|b]; cbn [handle touches_slot];
    try discriminate; try destruct (slot_at q i);
    intros _ H; try discriminate; now injection H as <- <-.
Qed.

Lemma replay_quiet (tr : trace ValueType Backoff) :
  forall q q' : BoundedQueue ValueType,
    Forall (fun o => touches_slot o = false) tr ->
    replay (handle W moved_from call_backoff) tr q = Some q' ->
    ring_ q' = ring_ q.
Proof.
  induction tr as [|[A e a] tr IH]; intros q q' Hquiet H; cbn [replay] in H.
  - now injection H as <-.
  - inversion Hquiet as [|o l Ho Hrest]; subst.
    destruct (handle W moved_from call_backoff A e q) as [[q1 a1]|] eqn:He;
      [|discriminate].
    rewrite (IH q1 q' Hrest H). exact (handle_quiet A e q q1 a1 a Ho He).
Qed.

End QueueObject.

(* ===================================================================== *)
(** ** The wait loops, whatever the other threads do *)
(* ===================================================================== *)

(** The handler is arbitrary here: its state may hold the other threads
    and their schedule, so what is proved of a call holds under every
    interleaving. *)

Section WaitLoops.

Context {ValueType Backoff St : Type}.
Variable h : forall A : Type, queueE ValueType Backoff A -> St -> option (St * A).

(** One access at the head of a run that finishes. *)
Lemma run_access {A R : Type} (n : nat) (e : queueE ValueType Backoff A)
    (k : A -> itree (queueE ValueType Backoff) R) (s : St) r s' tr :
  run h n (ITree.bind (ITree.trigger e) k) s = Done r s' tr ->
  exists m a s1 tr',
    n = S m /\ h _ e s = Some (s1, a) /\
    run h m (k a) s1 = Done r s' tr' /\ tr = Obs e a :: tr'.
Proof.
  destruct n as [|m]; [discriminate|]. rewrite run_bind_trigger.
  destruct (h A e s) as [[s1 a]|]; [|discriminate].
  intros H. apply prepend_Done in H. destruct H as [tr' [H ->]].
  now exists m, a, s1, tr'.
Qed.

Lemma run_Ret_Done {R : Type} (n : nat) (x : R) (s : St) r s' tr :
  run h n (Ret x) s = Done r s' tr -> r = x /\ s' = s /\ tr = [].
Proof.
  destruct n as [|m]; [discriminate|]. rewrite run_Ret.
  intros H. now injection H as <- <- <-.
Qed.

Lemma WaitTail_loop_Done (slot required_ticket : Z) (n : nat) :
  forall cur s r s' tr,
    run h n (ITree.iter (WaitTail_iteration slot required_ticket) cur) s = Done r s' tr ->
    wait_trace false slot required_ticket Parks cur tr true.
Proof.
  induction n as [n IH] using lt_wf_ind. intros cur s r s' tr H.
  rewrite run_iter in H. unfold WaitTail_iteration in H.
  destruct (cur =? u32 required_ticket) eqn:Hcur.
  - rewrite run_bind_Ret in H. apply run_Ret_Done in H. destruct H as (_ & _ & ->).
    apply wait_match. now apply Z.eqb_eq.
  - rewrite bind_bind in H. apply run_access in H.
    destruct H as (m & c & s1 & tr' & -> & _ & H & ->).
    rewrite run_bind_Ret in H.
    destruct m as [|m]; [discriminate|]. rewrite run_Tau in H.
    apply IH in H; [|lia].
    apply (wait_park false slot required_ticket cur [] c tr' true);
      [now apply Z.eqb_neq | reflexivity | exact H].
Qed.

Lemma WaitTail_backoff_loop_Done (slot required_ticket : Z) (n : nat) :
  forall l s r s' tr,
    run h n (ITree.iter (WaitTail_backoff_iteration slot required_ticket) l) s
      = Done r s' tr ->
    wait_trace false slot required_ticket (mode_of l) (current l) tr true.
Proof.
  induction n as [n IH] using lt_wf_ind. intros l s r s' tr H.
  rewrite run_iter in H. unfold WaitTail_backoff_iteration in H.
  destruct (current l =? u32 required_ticket) eqn:Hcur.
  - rewrite run_bind_Ret in H. apply run_Ret_Done in H. destruct H as (_ & _ & ->).
    apply wait_match. now apply Z.eqb_eq.
  - apply Z.eqb_neq in Hcur. unfold wait_or_backoff, mode_of in *.
    destruct (waiting l) eqn:Hw.
    + rewrite bind_bind in H. apply run_access in H.
      destruct H as (m & c & s1 & tr' & -> & _ & H & ->).
      rewrite run_bind_Ret in H.
      destruct m as [|m]; [discriminate|]. rewrite run_Tau in H.
      apply IH in H; [|lia]. cbn in H.
      now apply (wait_park false slot required_ticket (current l) [] c tr' true).
    + rewrite bind_bind in H. apply run_access in H.
      destruct H as (m & [w b'] & s1 & tr' & -> & _ & H & ->).
      rewrite bind_bind in H. apply run_access in H.
      destruct H as (m' & c & s2 & tr'' & -> & _ & H & ->).
      rewrite run_bind_Ret in H.
      destruct m' as [|m']; [discriminate|]. rewrite run_Tau in H.
      apply IH in H; [|lia]. cbn in H.
      now apply (wait_spin false slot required_ticket (callable l) (current l) [] w b' c tr'' true).
Qed.

(** The shutdown test either gives up, or is a finish check followed
    by the rest of the iteration. *)
Lemma unless_finished_Done {I R : Type} (required_ticket : Z)
    (otherwise : itree (queueE ValueType Backoff) (I + bool))
    (k : I + bool -> itree (queueE ValueType Backoff) R) (n : nat) s r s' tr :
  run h n (ITree.bind (unless_finished required_ticket otherwise) k) s = Done r s' tr ->
  (exists tail m s1 tr',
      (required_ticket >=? tail) = true /\
      tr = [Obs FinishLoad true;
            Obs (CounterLoad tail_counter memory_order_seq_cst) tail] ++ tr' /\
      (m < n)%nat /\ run h m (k (inr false)) s1 = Done r s' tr') \/
  (exists chk m s1 tr',
      finish_check true required_ticket chk /\
      tr = chk ++ tr' /\
      (m < n)%nat /\ run h m (ITree.bind otherwise k) s1 = Done r s' tr').
Proof.
  unfold unless_finished, Finished. intros H.
  rewrite bind_bind in H. apply run_access in H.
  destruct H as (m & fin & s1 & tr' & -> & _ & H & ->).
  destruct fin.
  - rewrite bind_bind in H. apply run_access in H.
    destruct H as (m' & tail & s2 & tr'' & -> & _ & H & ->).
    destruct (required_ticket >=? tail) eqn:Hge.
    + left. rewrite run_bind_Ret in H.
      exists tail, m', s2, tr''. repeat split; [exact Hge | lia | exact H].
    + right. exists [Obs FinishLoad true;
                     Obs (CounterLoad tail_counter memory_order_seq_cst) tail],
                    m', s2, tr''.
      repeat split; [|lia | exact H].
      right. now exists tail.
  - right. exists [Obs FinishLoad false], m, s1, tr'.
    repeat split; [|lia | exact H]. now left.
Qed.

Lemma WaitHead_loop_Done (slot required_ticket : Z) (n : nat) :
  forall cur s r s' tr,
    run h n (ITree.iter (WaitHead_iteration slot required_ticket) cur) s = Done r s' tr ->
    wait_trace true slot required_ticket Parks cur tr r.
Proof.
  induction n as [n IH] using lt_wf_ind. intros cur s r s' tr H.
  rewrite run_iter in H. unfold WaitHead_iteration in H.
  destruct (cur =? u32 required_ticket) eqn:Hcur.
  - rewrite run_bind_Ret in H. apply run_Ret_Done in H. destruct H as (-> & _ & ->).
    apply wait_match. now apply Z.eqb_eq.
  - apply Z.eqb_neq in Hcur. apply unless_finished_Done in H.
    destruct H as [(tail & m & s1 & tr' & Hge & -> & Hm & H)
                  |(chk & m & s1 & tr' & Hchk & -> & Hm & H)].
    + apply run_Ret_Done in H. destruct H as (-> & _ & ->).
      now apply wait_abort.
    + rewrite bind_bind in H. apply run_access in H.
      destruct H as (m' & c & s2 & tr'' & -> & _ & H & ->).
      rewrite run_bind_Ret in H.
      destruct m' as [|m']; [discriminate|]. rewrite run_Tau in H.
      apply IH in H; [|lia].
      now apply wait_park.
Qed.

Lemma WaitHead_backoff_loop_Done (slot required_ticket : Z) (n : nat) :
  forall l s r s' tr,
    run h n (ITree.iter (WaitHead_backoff_iteration slot required_ticket) l) s
      = Done r s' tr ->
    wait_trace true slot required_ticket (mode_of l) (current l) tr r.
Proof.
  induction n as [n IH] using lt_wf_ind. intros l s r s' tr H.
  rewrite run_iter in H. unfold WaitHead_backoff_iteration in H.
  destruct (current l =? u32 required_ticket) eqn:Hcur.
  - rewrite run_bind_Ret in H. apply run_Ret_Done in H. destruct H as (-> & _ & ->).
    apply wait_match. now apply Z.eqb_eq.
  - apply Z.eqb_neq in Hcur. apply unless_finished_Done in H.
    destruct H as [(tail & m & s1 & tr' & Hge & -> & Hm & H)
                  |(chk & m & s1 & tr' & Hchk & -> & Hm & H)].
    + apply run_Ret_Done in H. destruct H as (-> & _ & ->).
      now apply wait_abort.
    + unfold wait_or_backoff, mode_of in *.
      destruct (waiting l) eqn:Hw.
      * rewrite bind_bind in H. apply run_access in H.
        destruct H as (m' & c & s2 & tr'' & -> & _ & H & ->).
        rewrite run_bind_Ret in H.
        destruct m' as [|m']; [discriminate|]. rewrite run_Tau in H.
        apply IH in H; [|lia]. cbn in H.
        now apply wait_park.
      * rewrite bind_bind in H. apply run_access in H.
        destruct H as (m' & [w b'] & s2 & tr'' & -> & _ & H & ->).
        rewrite bind_bind in H. apply run_access in H.
        destruct H as (m'' & c & s3 & tr3 & -> & _ & H & ->).
        rewrite run_bind_Ret in H.
        destruct m'' as [|m'']; [discriminate|]. rewrite run_Tau in H.
        apply IH in H; [|lia]. cbn in H.
        now apply wait_spin.
Qed.

Lemma run_trigger_Done {A : Type} (n : nat) (e : queueE ValueType Backoff A) s r s' tr :
  run h n (ITree.trigger e) s = Done r s' tr ->
  h _ e s = Some (s', r) /\ tr = [Obs e r].
Proof.
  intros H. rewrite <- (bind_ret_r (ITree.trigger e)) in H.
  apply run_access in H. destruct H as (m & a & s1 & tr' & -> & He & H & ->).
  apply run_Ret_Done in H. destruct H as (-> & -> & ->). now split.
Qed.

(** The wait of a producer, either overload. *)
Lemma WaitTail_Done (slot required_ticket : Z) (backoff : option Backoff) n s r s' tr :
  run h n (match backoff with
           | None => WaitTail slot required_ticket
           | Some b => WaitTail_backoff slot required_ticket b
           end) s = Done r s' tr ->
  exists c0 w,
    tr = Obs (SlotLoad slot) c0 :: w /\
    wait_trace false slot required_ticket (first_mode backoff) c0 w true.
Proof.
  intros H. destruct backoff as [b|].
  - unfold WaitTail_backoff in H. apply run_access in H.
    destruct H as (m & c0 & s1 & w & -> & _ & H & ->).
    apply WaitTail_backoff_loop_Done in H. now exists c0, w.
  - unfold WaitTail in H. apply run_access in H.
    destruct H as (m & c0 & s1 & w & -> & _ & H & ->).
    apply WaitTail_loop_Done in H. now exists c0, w.
Qed.

(** The wait of a consumer, either overload. *)
Lemma WaitHead_Done (slot required_ticket : Z) (backoff : option Backoff) n s r s' tr :
  run h n (match backoff with
           | None => WaitHead slot required_ticket
           | Some b => WaitHead_backoff slot required_ticket b
           end) s = Done r s' tr ->
  exists c0 w,
    tr = Obs (SlotLoad slot) c0 :: w /\
    wait_trace true slot required_ticket (first_mode backoff) c0 w r.
Proof.
  intros H. destruct backoff as [b|].
  - unfold WaitHead_backoff in H. apply run_access in H.
    destruct H as (m & c0 & s1 & w & -> & _ & H & ->).
    apply WaitHead_backoff_loop_Done in H. now exists c0, w.
  - unfold WaitHead in H. apply run_access in H.
    destruct H as (m & c0 & s1 & w & -> & _ & H & ->).
    apply WaitHead_loop_Done in H. now exists c0, w.
Qed.

(** Every finished [Enqueue]: the reservation, the wait, the
    assignment, the publication. *)
Lemma Enqueue_Done (mask : Z) (value : ValueType) (backoff : option Backoff)
    n s r s' tr :
  run h n (Enqueue mask value backoff) s = Done r s' tr ->
  exists tail c0 w,
    tr = Obs (FetchAdd tail_counter memory_order_seq_cst) tail ::
         Obs (SlotLoad (Z.land tail mask)) c0 :: w ++
         [Obs (SlotAssign (Z.land tail mask) value) tt;
          Obs (SlotStoreAndWake (Z.land tail mask) (u32 (u64 (tail + 1)))) tt] /\
    wait_trace false (Z.land tail mask) tail (first_mode backoff) c0 w true.
Proof.
  unfold Enqueue. intros H. apply run_access in H.
  destruct H as (m & tail & s1 & tr1 & -> & _ & H & ->).
  cbn zeta in H. apply run_bind_Done in H.
  destruct H as ([] & s2 & tr2 & tr3 & Hw & H & ->).
  apply WaitTail_Done in Hw. destruct Hw as (c0 & w & -> & Hw).
  apply run_access in H. destruct H as (m' & [] & s3 & tr4 & -> & _ & H & ->).
  unfold WakeHead in H. apply run_trigger_Done in H. destruct H as [_ ->].
  destruct r. now exists tail, c0, w.
Qed.

(** Every finished [Dequeue]: the reservation and the wait; then,
    unless the wait gave up, the move and the publication. *)
Lemma Dequeue_Done (mask : Z) (value : ValueType) (backoff : option Backoff)
    n s (ok : bool) (out : ValueType) s' tr :
  run h n (Dequeue mask value backoff) s = Done (ok, out) s' tr ->
  exists head c0 w,
    wait_trace true (Z.land head mask) (u64 (head + 1)) (first_mode backoff) c0 w ok /\
    tr = Obs (FetchAdd head_counter memory_order_relaxed) head ::
         Obs (SlotLoad (Z.land head mask)) c0 :: w ++
         (if ok then
            [Obs (SlotMove (Z.land head mask)) out;
             Obs (SlotStoreAndWake (Z.land head mask)
                    (u32 (u64 (u64 (head + mask) + 1)))) tt]
          else []) /\
    (ok = false -> out = value).
Proof.
  unfold Dequeue. intros H. apply run_access in H.
  destruct H as (m & head & s1 & tr1 & -> & _ & H & ->).
  cbn zeta in H. apply run_bind_Done in H.
  destruct H as (ok' & s2 & tr2 & tr3 & Hw & H & ->).
  apply WaitHead_Done in Hw. destruct Hw as (c0 & w & -> & Hw).
  exists head, c0, w. destruct ok'; cbn [negb] in H.
  - apply run_access in H. destruct H as (m' & x & s3 & tr4 & -> & _ & H & ->).
    apply run_bind_Done in H. destruct H as ([] & s4 & tr5 & tr6 & Hk & H & ->).
    unfold WakeTail in Hk. apply run_trigger_Done in Hk. destruct Hk as [_ ->].
    apply run_Ret_Done in H. destruct H as (H & _ & ->).
    injection H as -> ->. repeat split; [exact Hw | discriminate].
  - apply run_Ret_Done in H. destruct H as (H & _ & ->).
    injection H as -> ->. now repeat split.
Qed.

End WaitLoops.

(* ===================================================================== *)
(** ** What a wait consists of *)
(* ===================================================================== *)

Section WaitFacts.

Context {ValueType Backoff : Type}.

Lemma tickets_read_app (slot : Z) (tr1 tr2 : trace ValueType Backoff) :
  tickets_read slot (tr1 ++ tr2) = tickets_read slot tr1 ++ tickets_read slot tr2.
Proof.
  induction tr1 as [|o tr1 IH]; cbn [tickets_read app]; [reflexivity|].
  destruct (ticket_read slot o); now rewrite IH.
Qed.

Lemma waits_on_quiet (consumer : bool) (slot : Z) (o : obs (queueE ValueType Backoff)) :
  waits_on consumer slot o = true -> touches_slot o = false.
Proof. destruct o as [A e a]. destruct e; cbn; congruence. Qed.

(** A shutdown check reads no ticket and is within a consumer's wait. *)
Lemma finish_check_facts (consumer : bool) (slot required_ticket : Z)
    (chk : trace ValueType Backoff) :
  finish_check consumer required_ticket chk ->
  tickets_read slot chk = [] /\
  Forall (fun o => waits_on consumer slot o = true) chk.
Proof.
  unfold finish_check. destruct consumer.
  - intros [-> | (tail & -> & _)]; split; try reflexivity; repeat constructor.
  - intros ->. split; [reflexivity | constructor].
Qed.

(** A wait contains nothing but waiting. *)
Lemma wait_trace_waits_on (consumer : bool) (slot required_ticket : Z)
    (m : mode Backoff) (cur : Z) (w : trace ValueType Backoff) (res : bool) :
  wait_trace consumer slot required_ticket m cur w res ->
  Forall (fun o => waits_on consumer slot o = true) w.
Proof.
  induction 1 as [m cur Hcur|m cur tail Hc Hcur Hge
                 |cur chk c tr res Hcur Hchk Hw IH
                 |b cur chk w b' c tr res Hcur Hchk Hw IH].
  - constructor.
  - subst consumer. repeat constructor.
  - apply Forall_app. split; [apply (finish_check_facts _ slot _ _ Hchk)|].
    constructor; [cbn; apply Z.eqb_refl | exact IH].
  - apply Forall_app. split; [apply (finish_check_facts _ slot _ _ Hchk)|].
    constructor; [reflexivity|].
    constructor; [cbn; apply Z.eqb_refl | exact IH].
Qed.

(** A wait that ends on a match read the required ticket last and
    never before; a wait that gives up never read it. *)
Lemma wait_trace_tickets (consumer : bool) (slot required_ticket : Z)
    (m : mode Backoff) (cur : Z) (w : trace ValueType Backoff) (res : bool) :
  wait_trace consumer slot required_ticket m cur w res ->
  if res then
    exists earlier,
      cur :: tickets_read slot w = earlier ++ [u32 required_ticket] /\
      Forall (fun c => c <> u32 required_ticket) earlier
  else
    Forall (fun c => c <> u32 required_ticket) (cur :: tickets_read slot w).
Proof.
  induction 1 as [m cur Hcur|m cur tail Hc Hcur Hge
                 |cur chk c tr res Hcur Hchk Hw IH
                 |b cur chk w b' c tr res Hcur Hchk Hw IH].
  - exists []. subst cur. split; [reflexivity | constructor].
  - repeat constructor. exact Hcur.
  - rewrite tickets_read_app, (proj1 (finish_check_facts _ slot _ _ Hchk)).
    cbn [app tickets_read ticket_read]. rewrite Z.eqb_refl.
    destruct res.
    + destruct IH as (earlier & -> & Hearlier).
      exists (cur :: earlier). split; [reflexivity | now constructor].
    + now constructor.
  - rewrite tickets_read_app, (proj1 (finish_check_facts _ slot _ _ Hchk)).
    cbn [app tickets_read ticket_read]. rewrite Z.eqb_refl.
    destruct res.
    + destruct IH as (earlier & -> & Hearlier).
      exists (cur :: earlier). split; [reflexivity | now constructor].
    + now constructor.
Qed.

(** A consumer's wait that gives up ends on a raised flag and a [tail_]
    that the required ticket has reached. *)
Lemma wait_trace_gives_up (consumer : bool) (slot required_ticket : Z)
    (m : mode Backoff) (cur : Z) (w : trace ValueType Backoff) (res : bool) :
  wait_trace consumer slot required_ticket m cur w res ->
  res = false ->
  consumer = true /\
  exists w' tail,
    w = w' ++ [Obs FinishLoad true;
               Obs (CounterLoad tail_counter memory_order_seq_cst) tail] /\
    (required_ticket >=? tail) = true.
Proof.
  induction 1 as [m cur Hcur|m cur tail Hc Hcur Hge
                 |cur chk c tr res Hcur Hchk Hw IH
                 |b cur chk w b' c tr res Hcur Hchk Hw IH]; intros Hres.
  - discriminate.
  - split; [exact Hc | now exists [], tail].
  - destruct (IH Hres) as (Hc & w' & tail & -> & Hge). split; [exact Hc|].
    exists (chk ++ Obs (SlotWaitAndLoad slot cur) c :: w'), tail.
    split; [now rewrite <- app_assoc | exact Hge].
  - destruct (IH Hres) as (Hc & w' & tail & -> & Hge). split; [exact Hc|].
    exists (chk ++ Obs (CallBackoff b) (w, b') :: Obs (SlotLoad slot) c :: w'), tail.
    split; [now rewrite <- app_assoc | exact Hge].
Qed.

End WaitFacts.

(* ===================================================================== *)
(** ** A call returns once its ticket shows *)
(* ===================================================================== *)

Section Progress.

Context {ValueType Backoff : Type}.
Variable moved_out : ValueType.
Variable call_backoff : Backoff -> bool * Backoff.

Lemma WaitTail_loop_returns (slot required_ticket : Z) (waits : list Z) :
  forall (cur : Z) (s : script) (rest : list Z),
    cur <> u32 required_ticket ->
    Forall (fun c => c <> u32 required_ticket) waits ->
    tickets s = waits ++ u32 required_ticket :: rest ->
    exists n tr,
      (n <= 2 * length waits + 3)%nat /\
      run (scripted moved_out call_backoff) n
          (ITree.iter (WaitTail_iteration slot required_ticket) cur) s
        = Done tt (with_tickets s rest) tr.
Proof.
  induction waits as [|c waits IH]; intros cur s rest Hcur Hwaits Htickets;
    apply Z.eqb_neq in Hcur.
  - exists 3%nat. eexists. split; [cbn [length]; lia|].
    rewrite run_iter. unfold WaitTail_iteration at 1. rewrite Hcur.
    rewrite bind_bind, run_bind_trigger.
    cbn [scripted]. unfold next_ticket. rewrite Htickets. cbn [app].
    rewrite run_bind_Ret, run_Tau, run_iter.
    unfold WaitTail_iteration at 1. rewrite Z.eqb_refl, run_bind_Ret, run_Ret.
    reflexivity.
  - inversion Hwaits as [|c' l Hc Hrest]; subst.
    destruct (IH c (with_tickets s (waits ++ u32 required_ticket :: rest)) rest
                Hc Hrest eq_refl) as (n & tr & Hn & Hrun).
    exists (S (S n)). eexists. split; [cbn [length]; lia|].
    rewrite run_iter. unfold WaitTail_iteration at 1. rewrite Hcur.
    rewrite bind_bind, run_bind_trigger.
    cbn [scripted]. unfold next_ticket. rewrite Htickets. cbn [app].
    rewrite run_bind_Ret, run_Tau, Hrun. reflexivity.
Qed.

Lemma WaitTail_backoff_loop_returns (slot required_ticket : Z) (waits : list Z) :
  forall (l : wait_locals Backoff) (s : script) (rest : list Z),
    current l <> u32 required_ticket ->
    Forall (fun c => c <> u32 required_ticket) waits ->
    tickets s = waits ++ u32 required_ticket :: rest ->
    exists n tr,
      (n <= 3 * length waits + 4)%nat /\
      run (scripted moved_out call_backoff) n
          (ITree.iter (WaitTail_backoff_iteration slot required_ticket) l) s
        = Done tt (with_tickets s rest) tr.
Proof.
  induction waits as [|c waits IH]; intros l s rest Hcur Hwaits Htickets;
    apply Z.eqb_neq in Hcur.
  - destruct (waiting l) eqn:Hw.
    + exists 3%nat. eexists. split; [cbn [length]; lia|].
      rewrite run_iter. unfold WaitTail_backoff_iteration at 1, wait_or_backoff.
      rewrite Hcur, Hw. rewrite bind_bind, run_bind_trigger.
      cbn [scripted]. unfold next_ticket. rewrite Htickets. cbn [app].
      rewrite run_bind_Ret, run_Tau, run_iter.
      unfold WaitTail_backoff_iteration at 1. cbn [current].
      rewrite Z.eqb_refl, run_bind_Ret, run_Ret. reflexivity.
    + exists 4%nat. eexists. split; [cbn [length]; lia|].
      rewrite run_iter. unfold WaitTail_backoff_iteration at 1, wait_or_backoff.
      rewrite Hcur, Hw. rewrite bind_bind, run_bind_trigger. cbn [scripted].
      rewrite bind_bind, run_bind_trigger.
      cbn [scripted]. unfold next_ticket. rewrite Htickets. cbn [app].
      rewrite run_bind_Ret, run_Tau, run_iter.
      unfold WaitTail_backoff_iteration at 1. cbn [current].
      rewrite Z.eqb_refl, run_bind_Ret, run_Ret. reflexivity.
  - inversion Hwaits as [|c' l' Hc Hrest]; subst.
    destruct (waiting l) eqn:Hw.
    + destruct (IH {| waiting := true; current := c; callable := callable l |}
                  (with_tickets s (waits ++ u32 required_ticket :: rest)) rest
                  Hc Hrest eq_refl) as (n & tr & Hn & Hrun).
      exists (S (S n)). eexists. split; [cbn [length]; lia|].
      rewrite run_iter. unfold WaitTail_backoff_iteration at 1, wait_or_backoff.
      rewrite Hcur, Hw. rewrite bind_bind, run_bind_trigger.
      cbn [scripted]. unfold next_ticket. rewrite Htickets. cbn [app].
      rewrite run_bind_Ret, run_Tau, Hrun. reflexivity.
    + destruct (IH {| waiting := fst (call_backoff (callable l)); current := c;
                      callable := snd (call_backoff (callable l)) |}
                  (with_tickets s (waits ++ u32 required_ticket :: rest)) rest
                  Hc Hrest eq_refl) as (n & tr & Hn & Hrun).
      exists (S (S (S n))). eexists. split; [cbn [length]; lia|].
      rewrite run_iter. unfold WaitTail_backoff_iteration at 1, wait_or_backoff.
      rewrite Hcur, Hw. rewrite bind_bind, run_bind_trigger. cbn [scripted].
      rewrite bind_bind, run_bind_trigger.
      cbn [scripted]. unfold next_ticket. rewrite Htickets. cbn [app].
      rewrite run_bind_Ret, run_Tau, Hrun. reflexivity.
Qed.

(** Past the shutdown test, at the cost of at most two more accesses. *)
Lemma unless_finished_through {I R : Type} (required_ticket : Z)
    (otherwise : itree (queueE ValueType Backoff) (I + bool))
    (k : I + bool -> itree (queueE ValueType Backoff) R)
    (n : nat) (s : script) r s' tr :
  keeps_waiting required_ticket s ->
  run (scripted moved_out call_backoff) n (ITree.bind otherwise k) s = Done r s' tr ->
  exists tr',
    run (scripted moved_out call_backoff) (2 + n)
        (ITree.bind (unless_finished required_ticket otherwise) k) s
      = Done r s' tr'.
Proof.
  intros Hkeep Hrun. unfold unless_finished, Finished.
  destruct (raised s) eqn:Hraised.
  - destruct Hkeep as [Hdown | Hbeyond]; [congruence|].
    eexists. cbn [Nat.add]. rewrite bind_bind, run_bind_trigger. cbn [scripted].
    rewrite Hraised, bind_bind, run_bind_trigger. cbn [scripted].
    rewrite Hbeyond, Hrun. reflexivity.
  - eexists. cbn [Nat.add]. rewrite bind_bind, run_bind_trigger. cbn [scripted].
    rewrite Hraised, (run_mono _ n (S n) _ _ _ _ _ Hrun) by lia. reflexivity.
Qed.

Lemma WaitHead_loop_returns (slot required_ticket : Z) (waits : list Z) :
  forall (cur : Z) (s : script) (rest : list Z),
    keeps_waiting required_ticket s ->
    cur <> u32 required_ticket ->
    Forall (fun c => c <> u32 required_ticket) waits ->
    tickets s = waits ++ u32 required_ticket :: rest ->
    exists n tr,
      (n <= 4 * length waits + 5)%nat /\
      run (scripted moved_out call_backoff) n
          (ITree.iter (WaitHead_iteration slot required_ticket) cur) s
        = Done true (with_tickets s rest) tr.
Proof.
  induction waits as [|c waits IH]; intros cur s rest Hkeep Hcur Hwaits Htickets;
    apply Z.eqb_neq in Hcur.
  - edestruct (unless_finished_through required_ticket
                 (c <- ITree.trigger (SlotWaitAndLoad slot cur);; Ret (inl c))
                 (fun lr => match lr with
                            | inl l => Tau (ITree.iter (WaitHead_iteration slot required_ticket) l)
                            | inr r => Ret r
                            end) 3 s true (with_tickets s rest)) as [tr Hrun];
      [exact Hkeep | |].
    + rewrite bind_bind, run_bind_trigger.
      cbn [scripted]. unfold next_ticket. rewrite Htickets. cbn [app].
      rewrite run_bind_Ret, run_Tau, run_iter.
      unfold WaitHead_iteration at 1. rewrite Z.eqb_refl, run_bind_Ret, run_Ret.
      reflexivity.
    + exists 5%nat, tr. split; [cbn [length]; lia|].
      rewrite run_iter. unfold WaitHead_iteration at 1. rewrite Hcur. exact Hrun.
  - inversion Hwaits as [|c' l Hc Hrest]; subst.
    destruct (IH c (with_tickets s (waits ++ u32 required_ticket :: rest)) rest
                Hkeep Hc Hrest eq_refl) as (n & tr & Hn & Hrun).
    edestruct (unless_finished_through required_ticket
                 (c <- ITree.trigger (SlotWaitAndLoad slot cur);; Ret (inl c))
                 (fun lr => match lr with
                            | inl l => Tau (ITree.iter (WaitHead_iteration slot required_ticket) l)
                            | inr r => Ret r
                            end) (S (S n)) s true (with_tickets s rest)) as [tr' Hrun'];
      [exact Hkeep | |].
    + rewrite bind_bind, run_bind_trigger.
      cbn [scripted]. unfold next_ticket. rewrite Htickets. cbn [app].
      rewrite run_bind_Ret, run_Tau, Hrun. reflexivity.
    + exists (2 + S (S n))%nat, tr'. split; [cbn [length]; lia|].
      rewrite run_iter. unfold WaitHead_iteration at 1. rewrite Hcur. exact Hrun'.
Qed.

Lemma WaitHead_backoff_loop_returns (slot required_ticket : Z) (waits : list Z) :
  forall (l : wait_locals Backoff) (s : script) (rest : list Z),
    keeps_waiting required_ticket s ->
    current l <> u32 required_ticket ->
    Forall (fun c => c <> u32 required_ticket) waits ->
    tickets s = waits ++ u32 required_ticket :: rest ->
    exists n tr,
      (n <= 5 * length waits + 6)%nat /\
      run (scripted moved_out call_backoff) n
          (ITree.iter (WaitHead_backoff_iteration slot required_ticket) l) s
        = Done true (with_tickets s rest) tr.
Proof.
  induction waits as [|c waits IH]; intros l s rest Hkeep Hcur Hwaits Htickets;
    apply Z.eqb_neq in Hcur.
  - assert (Hround : exists n tr,
               (n <= 4)%nat /\
               run (scripted moved_out call_backoff) n
                 (ITree.bind (wait_or_backoff slot l)
                    (fun lr => match lr with
                               | inl l' => Tau (ITree.iter
                                                  (WaitHead_backoff_iteration slot required_ticket) l')
                               | inr r => Ret r
                               end)) s
               = Done true (with_tickets s rest) tr).
    { unfold wait_or_backoff. destruct (waiting l).
      - exists 3%nat. eexists. split; [lia|].
        rewrite bind_bind, run_bind_trigger.
        cbn [scripted]. unfold next_ticket. rewrite Htickets. cbn [app].
        rewrite run_bind_Ret, run_Tau, run_iter.
        unfold WaitHead_backoff_iteration at 1. cbn [current].
        rewrite Z.eqb_refl, run_bind_Ret, run_Ret. reflexivity.
      - exists 4%nat. eexists. split; [lia|].
        rewrite bind_bind, run_bind_trigger. cbn [scripted].
        rewrite bind_bind, run_bind_trigger.
        cbn [scripted]. unfold next_ticket. rewrite Htickets. cbn [app].
        rewrite run_bind_Ret, run_Tau, run_iter.
        unfold WaitHead_backoff_iteration at 1. cbn [current].
        rewrite Z.eqb_refl, run_bind_Ret, run_Ret. reflexivity. }
    destruct Hround as (n & tr & Hn & Hrun).
    destruct (unless_finished_through required_ticket _ _ n s true
                (with_tickets s rest) tr Hkeep Hrun) as [tr' Hrun'].
    exists (2 + n)%nat, tr'. split; [cbn [length]; lia|].
    rewrite run_iter. unfold WaitHead_backoff_iteration at 1. rewrite Hcur. exact Hrun'.
  - inversion Hwaits as [|c' l' Hc Hrest]; subst.
    assert (Hround : exists n tr,
               (n <= 5 * length waits + 6 + 3)%nat /\
               run (scripted moved_out call_backoff) n
                 (ITree.bind (wait_or_backoff slot l)
                    (fun lr => match lr with
                               | inl l' => Tau (ITree.iter
                                                  (WaitHead_backoff_iteration slot required_ticket) l')
                               | inr r => Ret r
                               end)) s
               = Done true (with_tickets s rest) tr).
    { unfold wait_or_backoff. destruct (waiting l).
      - destruct (IH {| waiting := true; current := c; callable := callable l |}
                    (with_tickets s (waits ++ u32 required_ticket :: rest)) rest
                    Hkeep Hc Hrest eq_refl) as (n & tr & Hn & Hrun).
        exists (S (S n)). eexists. split; [lia|].
        rewrite bind_bind, run_bind_trigger.
        cbn [scripted]. unfold next_ticket. rewrite Htickets. cbn [app].
        rewrite run_bind_Ret, run_Tau, Hrun. reflexivity.
      - destruct (IH {| waiting := fst (call_backoff (callable l)); current := c;
                        callable := snd (call_backoff (callable l)) |}
                    (with_tickets s (waits ++ u32 required_ticket :: rest)) rest
                    Hkeep Hc Hrest eq_refl) as (n & tr & Hn & Hrun).
        exists (S (S (S n))). eexists. split; [lia|].
        rewrite bind_bind, run_bind_trigger. cbn [scripted].
        rewrite bind_bind, run_bind_trigger.
        cbn [scripted]. unfold next_ticket. rewrite Htickets. cbn [app].
        rewrite run_bind_Ret, run_Tau, Hrun. reflexivity. }
    destruct Hround as (n & tr & Hn & Hrun).
    destruct (unless_finished_through required_ticket _ _ n s true
                (with_tickets s rest) tr Hkeep Hrun) as [tr' Hrun'].
    exists (2 + n)%nat, tr'. split; [cbn [length]; lia|].
    rewrite run_iter. unfold WaitHead_backoff_iteration at 1. rewrite Hcur. exact Hrun'.
Qed.

(** The producer's wait returns right after the first read of the
    required ticket. *)
Lemma WaitTail_returns (slot required_ticket : Z) (backoff : option Backoff)
    (s : script) (earlier rest : list Z) :
  tickets s = earlier ++ u32 required_ticket :: rest ->
  Forall (fun c => c <> u32 required_ticket) earlier ->
  exists n tr,
    (n <= 3 * length earlier + 2)%nat /\
    run (scripted moved_out call_backoff) n
        (match backoff with
         | None => WaitTail slot required_ticket
         | Some b => WaitTail_backoff slot required_ticket b
         end) s
      = Done tt (with_tickets s rest) tr.
Proof.
  intros Htickets Hearlier. destruct earlier as [|c0 waits].
  - exists 2%nat. eexists. split; [cbn [length]; lia|].
    destruct backoff as [b|]; [unfold WaitTail_backoff | unfold WaitTail];
      rewrite run_bind_trigger; cbn [scripted]; unfold next_ticket;
      rewrite Htickets; cbn [app]; rewrite run_iter.
    + unfold WaitTail_backoff_iteration at 1. cbn [current].
      rewrite Z.eqb_refl, run_bind_Ret, run_Ret. reflexivity.
    + unfold WaitTail_iteration at 1.
      rewrite Z.eqb_refl, run_bind_Ret, run_Ret. reflexivity.
  - inversion Hearlier as [|c' l Hc0 Hwaits]; subst.
    destruct backoff as [b|].
    + destruct (WaitTail_backoff_loop_returns slot required_ticket waits
                  {| waiting := false; current := c0; callable := b |}
                  (with_tickets s (waits ++ u32 required_ticket :: rest)) rest
                  Hc0 Hwaits eq_refl) as (n & tr & Hn & Hrun).
      exists (S n). eexists. split; [cbn [length]; lia|].
      unfold WaitTail_backoff. rewrite run_bind_trigger. cbn [scripted].
      unfold next_ticket. rewrite Htickets. cbn [app]. rewrite Hrun. reflexivity.
    + destruct (WaitTail_loop_returns slot required_ticket waits c0
                  (with_tickets s (waits ++ u32 required_ticket :: rest)) rest
                  Hc0 Hwaits eq_refl) as (n & tr & Hn & Hrun).
      exists (S n). eexists. split; [cbn [length]; lia|].
      unfold WaitTail. rewrite run_bind_trigger. cbn [scripted].
      unfold next_ticket. rewrite Htickets. cbn [app]. rewrite Hrun. reflexivity.
Qed.

(** So does the consumer's, unless shutdown turns it away. *)
Lemma WaitHead_returns (slot required_ticket : Z) (backoff : option Backoff)
    (s : script) (earlier rest : list Z) :
  keeps_waiting required_ticket s ->
  tickets s = earlier ++ u32 required_ticket :: rest ->
  Forall (fun c => c <> u32 required_ticket) earlier ->
  exists n tr,
    (n <= 5 * length earlier + 2)%nat /\
    run (scripted moved_out call_backoff) n
        (match backoff with
         | None => WaitHead slot required_ticket
         | Some b => WaitHead_backoff slot required_ticket b
         end) s
      = Done true (with_tickets s rest) tr.
Proof.
  intros Hkeep Htickets Hearlier. destruct earlier as [|c0 waits].
  - exists 2%nat. eexists. split; [cbn [length]; lia|].
    destruct backoff as [b|]; [unfold WaitHead_backoff | unfold WaitHead];
      rewrite run_bind_trigger; cbn [scripted]; unfold next_ticket;
      rewrite Htickets; cbn [app]; rewrite run_iter.
    + unfold WaitHead_backoff_iteration at 1. cbn [current].
      rewrite Z.eqb_refl, run_bind_Ret, run_Ret. reflexivity.
    + unfold WaitHead_iteration at 1.
      rewrite Z.eqb_refl, run_bind_Ret, run_Ret. reflexivity.
  - inversion Hearlier as [|c' l Hc0 Hwaits]; subst.
    destruct backoff as [b|].
    + destruct (WaitHead_backoff_loop_returns slot required_ticket waits
                  {| waiting := false; current := c0; callable := b |}
                  (with_tickets s (waits ++ u32 required_ticket :: rest)) rest
                  Hkeep Hc0 Hwaits eq_refl) as (n & tr & Hn & Hrun).
      exists (S n). eexists. split; [cbn [length]; lia|].
      unfold WaitHead_backoff. rewrite run_bind_trigger. cbn [scripted].
      unfold next_ticket. rewrite Htickets. cbn [app]. rewrite Hrun. reflexivity.
    + destruct (WaitHead_loop_returns slot required_ticket waits c0
                  (with_tickets s (waits ++ u32 required_ticket :: rest)) rest
                  Hkeep Hc0 Hwaits eq_refl) as (n & tr & Hn & Hrun).
      exists (S n). eexists. split; [cbn [length]; lia|].
      unfold WaitHead. rewrite run_bind_trigger. cbn [scripted].
      unfold next_ticket. rewrite Htickets. cbn [app]. rewrite Hrun. reflexivity.
Qed.

(** [Enqueue] returns once the slot has shown the ticket of its
    reservation, whatever it showed before. *)
Lemma Enqueue_returns (mask : Z) (x : ValueType) (backoff : option Backoff)
    (s : script) (earlier rest : list Z) :
  tickets s = earlier ++ u32 (reservation s) :: rest ->
  Forall (fun c => c <> u32 (reservation s)) earlier ->
  exists tr,
    run (scripted moved_out call_backoff) (3 * length earlier + 6)
        (Enqueue mask x backoff) s
      = Done tt (with_tickets s rest) tr.
Proof.
  intros Htickets Hearlier.
  destruct (WaitTail_returns (Z.land (reservation s) mask) (reservation s) backoff
              s earlier rest Htickets Hearlier) as (n & trw & Hn & Hwait).
  eexists. apply (run_mono _ (S (n + 3))); [|lia].
  unfold Enqueue. rewrite run_bind_trigger. cbn [scripted]. cbv zeta.
  erewrite run_bind_compose; [reflexivity | exact Hwait |].
  rewrite run_bind_trigger. cbn [scripted]. unfold WakeHead.
  rewrite run_trigger. reflexivity.
Qed.

(** [Dequeue] returns [true] with the value of the slot once the slot
    has shown the ticket after its reservation, provided shutdown does not
    turn it away first. *)
Lemma Dequeue_returns (mask : Z) (v : ValueType) (backoff : option Backoff)
    (s : script) (earlier rest : list Z) :
  keeps_waiting (u64 (reservation s + 1)) s ->
  tickets s = earlier ++ u32 (reservation s + 1) :: rest ->
  Forall (fun c => c <> u32 (reservation s + 1)) earlier ->
  exists tr,
    run (scripted moved_out call_backoff) (5 * length earlier + 6)
        (Dequeue mask v backoff) s
      = Done (true, moved_out) (with_tickets s rest) tr.
Proof.
  intros Hkeep Htickets Hearlier. rewrite <- u32_u64 in Htickets, Hearlier.
  destruct (WaitHead_returns (Z.land (reservation s) mask) (u64 (reservation s + 1))
              backoff s earlier rest Hkeep Htickets Hearlier) as (n & trw & Hn & Hwait).
  eexists. apply (run_mono _ (S (n + 3))); [|lia].
  unfold Dequeue. rewrite run_bind_trigger. cbn [scripted]. cbv zeta.
  erewrite run_bind_compose; [reflexivity | exact Hwait |].
  cbn [negb]. rewrite run_bind_trigger. cbn [scripted]. unfold WakeTail.
  rewrite run_bind_trigger. cbn [scripted]. rewrite run_Ret. reflexivity.
Qed.

End Progress.

(* ================================================================== *)
(** ** Every thread of a schedule is a run *)
(* ================================================================== *)

Section Views.

Context {ValueType Backoff : Type}.
Context (W : WaitType).
Context (moved_from : ValueType -> ValueType).
Context (call_backoff : Backoff -> bool * Backoff).

Lemma recorded_answer_same (A : Type) (e : queueE ValueType Backoff A) (a : A) :
  recorded_answer A e (Obs e a) = Some a.
Proof. destruct e; simpl; try reflexivity; now destruct a. Qed.

Lemma view_app (tid : nat) (h1 h2 : list (nat * obs (queueE ValueType Backoff))) :
  view tid (h1 ++ h2) = view tid h1 ++ view tid h2.
Proof. unfold view. now rewrite filter_app, map_app. Qed.

Lemma view_one (tid tid' : nat) (o : obs (queueE ValueType Backoff)) :
  view tid [(tid', o)] = if Nat.eqb tid' tid then [o] else [].
Proof. unfold view. simpl. now destruct (Nat.eqb tid' tid). Qed.

(** One step of the system, seen from thread [tid]: its tree moves on
    by what the step added to its view. *)
Lemma step_view (tid' : nat) (sys sys1 : system ValueType Backoff) :
  step W moved_from call_backoff tid' sys = Some sys1 ->
  exists delta,
    history sys1 = history sys ++ delta /\
    forall tid t,
      nth_error (threads sys) tid = Some t ->
      exists t1,
        nth_error (threads sys1) tid = Some t1 /\
        forall n rest r s' tr,
          run (@recorded ValueType Backoff) n t1 rest = Done r s' tr ->
          run (@recorded ValueType Backoff) (S n) t (view tid delta ++ rest)
          = Done r s' (view tid delta ++ tr).
Proof.
  unfold step. intros Hstep.
  destruct (nth_error (threads sys) tid') as [t0|] eqn:Ht0; [|discriminate].
  destruct (observe t0) as [r0|t0'|X e k] eqn:Hobs.
  - injection Hstep as <-. exists []. split; [now rewrite app_nil_r|].
    intros tid t Ht. exists t. split; [exact Ht|].
    intros n rest r s' tr Hrun.
    apply (run_mono _ n); [exact Hrun | lia].
  - injection Hstep as <-. exists []. split; [cbn [history]; now rewrite app_nil_r|].
    intros tid t Ht. cbn [threads history shared].
    rewrite nth_error_update, Ht.
    destruct (Nat.eqb tid tid') eqn:Heq.
    + apply Nat.eqb_eq in Heq. subst tid'.
      assert (t0 = t) by congruence. subst t0.
      exists t0'. split; [reflexivity|].
      intros n rest r s' tr Hrun. rewrite run_unfold, Hobs. exact Hrun.
    + exists t. split; [reflexivity|].
      intros n rest r s' tr Hrun.
      apply (run_mono _ n); [exact Hrun | lia].
  - destruct (handle W moved_from call_backoff X e (shared sys)) as [[q a]|];
      [|discriminate].
    injection Hstep as <-. exists [(tid', Obs e a)]. split; [reflexivity|].
    intros tid t Ht. cbn [threads history shared].
    rewrite nth_error_update, Ht, view_one.
    destruct (Nat.eqb tid tid') eqn:Heq.
    + apply Nat.eqb_eq in Heq. subst tid'. rewrite Nat.eqb_refl.
      assert (t0 = t) by congruence. subst t0.
      exists (k a). split; [reflexivity|].
      intros n rest r s' tr Hrun. rewrite run_unfold, Hobs. cbn [app recorded].
      rewrite recorded_answer_same. cbn [option_map]. now rewrite Hrun.
    + rewrite Nat.eqb_sym, Heq.
      exists t. split; [reflexivity|].
      intros n rest r s' tr Hrun.
      apply (run_mono _ n); [exact Hrun | lia].
Qed.

Lemma steps_view (k : nat) :
  forall (tid' : nat) (sys sys1 : system ValueType Backoff),
    steps W moved_from call_backoff k tid' sys = Some sys1 ->
    exists delta,
      history sys1 = history sys ++ delta /\
      forall tid t,
        nth_error (threads sys) tid = Some t ->
        exists t1,
          nth_error (threads sys1) tid = Some t1 /\
          forall n rest r s' tr,
            run (@recorded ValueType Backoff) n t1 rest = Done r s' tr ->
            exists m,
              run (@recorded ValueType Backoff) m t (view tid delta ++ rest)
              = Done r s' (view tid delta ++ tr).
Proof.
  induction k as [|k IH]; intros tid' sys sys1 Hsteps; simpl in Hsteps.
  - injection Hsteps as <-. exists []. split; [now rewrite app_nil_r|].
    intros tid t Ht. exists t. split; [exact Ht|].
    intros n rest r s' tr Hrun. now exists n.
  - destruct (step W moved_from call_backoff tid' sys) as [sys0|] eqn:Hstep;
      [|discriminate].
    destruct (step_view _ _ _ Hstep) as [d1 [Hh1 Hv1]].
    destruct (IH _ _ _ Hsteps) as [d2 [Hh2 Hv2]].
    exists (d1 ++ d2). split; [now rewrite Hh2, Hh1, app_assoc|].
    intros tid t Ht.
    destruct (Hv1 _ _ Ht) as [t0 [Ht0 Hrun0]].
    destruct (Hv2 _ _ Ht0) as [t1 [Ht1 Hrun1]].
    exists t1. split; [exact Ht1|].
    intros n rest r s' tr Hrun.
    destruct (Hrun1 _ _ _ _ _ Hrun) as [m Hm].
    exists (S m). rewrite view_app, <- !app_assoc. now apply Hrun0.
Qed.

Lemma schedule_view (plan : list (nat * nat)) :
  forall (sys sys1 : system ValueType Backoff),
    schedule W moved_from call_backoff plan sys = Some sys1 ->
    exists delta,
      history sys1 = history sys ++ delta /\
      forall tid t,
        nth_error (threads sys) tid = Some t ->
        exists t1,
          nth_error (threads sys1) tid = Some t1 /\
          forall n rest r s' tr,
            run (@recorded ValueType Backoff) n t1 rest = Done r s' tr ->
            exists m,
              run (@recorded ValueType Backoff) m t (view tid delta ++ rest)
              = Done r s' (view tid delta ++ tr).
Proof.
  induction plan as [|[tid' k] plan IH]; intros sys sys1 Hsched;
    simpl in Hsched.
  - injection Hsched as <-. exists []. split; [now rewrite app_nil_r|].
    intros tid t Ht. exists t. split; [exact Ht|].
    intros n rest r s' tr Hrun. now exists n.
  - destruct (steps W moved_from call_backoff k tid' sys) as [sys0|] eqn:Hsteps;
      [|discriminate].
    destruct (steps_view _ _ _ _ Hsteps) as [d1 [Hh1 Hv1]].
    destruct (IH _ _ Hsched) as [d2 [Hh2 Hv2]].
    exists (d1 ++ d2). split; [now rewrite Hh2, Hh1, app_assoc|].
    intros tid t Ht.
    destruct (Hv1 _ _ Ht) as [t0 [Ht0 Hrun0]].
    destruct (Hv2 _ _ Ht0) as [t1 [Ht1 Hrun1]].
    exists t1. split; [exact Ht1|].
    intros n rest r s' tr Hrun.
    destruct (Hrun1 _ _ _ _ _ Hrun) as [m Hm].
    rewrite view_app, <- !app_assoc. now apply Hrun0 in Hm.
Qed.

(** Whatever the plan, a thread that has returned ran its call against
    the answers recorded in its view of the history, and made exactly
    the accesses of that view: each statement about [run] under an
    arbitrary handler speaks of every thread of every schedule. *)
Lemma scheduled_thread_runs (plan : list (nat * nat))
    (sys sys1 : system ValueType Backoff) (tid : nat)
    (t : thread ValueType Backoff) (r : returned ValueType) :
  schedule W moved_from call_backoff plan sys = Some sys1 ->
  nth_error (threads sys) tid = Some t ->
  returned_by tid sys1 = Some r ->
  exists delta n,
    history sys1 = history sys ++ delta /\
    run (@recorded ValueType Backoff) n t (view tid delta)
    = Done r [] (view tid delta).
Proof.
  intros Hsched Ht Hret.
  destruct (schedule_view _ _ _ Hsched) as [delta [Hh Hv]].
  destruct (Hv _ _ Ht) as [t1 [Ht1 Hrun]].
  unfold returned_by in Hret. rewrite Ht1 in Hret.
  destruct (observe t1) as [r1|?|? ? ?] eqn:Hobs; try discriminate.
  injection Hret as ->.
  destruct (Hrun 1%nat [] r [] []) as [m Hm].
  { rewrite run_unfold, Hobs. reflexivity. }
  rewrite !app_nil_r in Hm. now exists delta, m.
Qed.

(** A call wrapped into a thread returns what the call returns. *)
Lemma run_map_Done {St A R : Type}
    (h : forall X : Type, queueE ValueType Backoff X -> St -> option (St * X))
    (f : A -> R) (t : itree (queueE ValueType Backoff) A) n s r s' tr :
  run h n (ITree.map f t) s = Done r s' tr ->
  exists a, run h n t s = Done a s' tr /\ r = f a.
Proof.
  unfold ITree.map. intros Hrun.
  apply run_bind_Done in Hrun.
  destruct Hrun as [a [s1 [tr1 [tr2 [H1 [H2 ->]]]]]].
  destruct n as [|n]; [discriminate|].
  rewrite run_unfold in H2. simpl in H2. injection H2 as <- <- <-.
  exists a. now rewrite app_nil_r.
Qed.

(** In every schedule, a thread that called [Enqueue] and returned has
    made the accesses of one reservation, one wait and one
    publication. *)
Lemma scheduled_Enqueue (plan : list (nat * nat))
    (sys sys1 : system ValueType Backoff) (tid : nat)
    (mask : Z) (value : ValueType) (backoff : option Backoff)
    (r : returned ValueType) :
  schedule W moved_from call_backoff plan sys = Some sys1 ->
  nth_error (threads sys) tid = Some (call_Enqueue mask value backoff) ->
  returned_by tid sys1 = Some r ->
  exists delta tail c0 w,
    history sys1 = history sys ++ delta /\
    view tid delta =
      Obs (FetchAdd tail_counter memory_order_seq_cst) tail ::
      Obs (SlotLoad (Z.land tail mask)) c0 :: w ++
      [Obs (SlotAssign (Z.land tail mask) value) tt;
       Obs (SlotStoreAndWake (Z.land tail mask) (u32 (u64 (tail + 1)))) tt] /\
    wait_trace false (Z.land tail mask) tail (first_mode backoff) c0 w true.
Proof.
  intros Hsched Ht Hret.
  destruct (scheduled_thread_runs _ _ _ _ _ _ Hsched Ht Hret)
    as [delta [n [Hh Hrun]]].
  apply run_map_Done in Hrun. destruct Hrun as [[] [Hrun _]].
  apply Enqueue_Done in Hrun. destruct Hrun as [tail [c0 [w [Htr Hw]]]].
  now exists delta, tail, c0, w.
Qed.

(** In every schedule, a thread that called [Dequeue] and returned has
    made the accesses of one reservation and one wait, followed, if the
    wait succeeded, by the move out of the slot and its release. *)
Lemma scheduled_Dequeue (plan : list (nat * nat))
    (sys sys1 : system ValueType Backoff) (tid : nat)
    (mask : Z) (value : ValueType) (backoff : option Backoff)
    (r : returned ValueType) :
  schedule W moved_from call_backoff plan sys = Some sys1 ->
  nth_error (threads sys) tid = Some (call_Dequeue mask value backoff) ->
  returned_by tid sys1 = Some r ->
  exists delta head c0 w ok out,
    r = ReturnedDequeue ok out /\
    history sys1 = history sys ++ delta /\
    wait_trace true (Z.land head mask) (u64 (head + 1)) (first_mode backoff)
      c0 w ok /\
    view tid delta =
      Obs (FetchAdd head_counter memory_order_relaxed) head ::
      Obs (SlotLoad (Z.land head mask)) c0 :: w ++
      (if ok then
         [Obs (SlotMove (Z.land head mask)) out;
          Obs (SlotStoreAndWake (Z.land head mask)
                 (u32 (u64 (u64 (head + mask) + 1)))) tt]
       else []) /\
    (ok = false -> out = value).
Proof.
  intros Hsched Ht Hret.
  destruct (scheduled_thread_runs _ _ _ _ _ _ Hsched Ht Hret)
    as [delta [n [Hh Hrun]]].
  apply run_map_Done in Hrun. destruct Hrun as [[ok out] [Hrun ->]].
  apply Dequeue_Done in Hrun.
  destruct Hrun as [head [c0 [w [Hw [Htr Hout]]]]].
  now exists delta, head, c0, w, ok, out.
Qed.

End Views.

(* ===================================================================== *)
(** ** Construction, move, destruction *)
(* ===================================================================== *)

Section Lifetime.

Context {ValueType : Type}.
Variable posix_memalign : Z -> Z -> Z.
Variables kCacheLineSize sizeof_Slot : Z.
Variable default_slot : Slot ValueType.

(** The initialisation loop stamps cell [j] with ticket [j] and
    leaves the rest of the array alone. *)
Lemma initialize_cells (n : nat) :
  forall (k : nat) (ring : list (Slot ValueType)) (j : nat),
    nth_error
      (fold_left (fun ring i => update ring (Z.to_nat i) (on_wait (Initialize i)))
                 (indices (Z.of_nat k) n) ring) j =
    if (Nat.leb k j && Nat.ltb j (k + n))%bool
    then option_map (on_wait (Initialize (Z.of_nat j))) (nth_error ring j)
    else nth_error ring j.
Proof.
  induction n as [|n IH]; intros k ring j; cbn [indices fold_left].
  - replace (Nat.leb k j && Nat.ltb j (k + 0))%bool with false; [reflexivity|].
    destruct (Nat.leb_spec k j), (Nat.ltb_spec j (k + 0)); simpl; auto; lia.
  - replace (Z.of_nat k + 1) with (Z.of_nat (S k)) by lia.
    rewrite IH, nth_error_update, Nat2Z.id.
    destruct (Nat.eqb_spec j k) as [->|Hjk].
    + replace (Nat.leb (S k) k) with false
        by (symmetry; apply Nat.leb_gt; lia).
      replace (Nat.leb k k && Nat.ltb k (k + S n))%bool with true; [reflexivity|].
      symmetry. apply andb_true_intro.
      split; [apply Nat.leb_le | apply Nat.ltb_lt]; lia.
    + replace (Nat.leb (S k) j && Nat.ltb j (S k + n))%bool
        with (Nat.leb k j && Nat.ltb j (k + S n))%bool; [reflexivity|].
      destruct (Nat.leb_spec k j), (Nat.ltb_spec j (k + S n)),
               (Nat.leb_spec (S k) j), (Nat.ltb_spec j (S k + n));
        simpl; auto; lia.
Qed.

Lemma initialize_length (l : list Z) :
  forall ring : list (Slot ValueType),
    length (fold_left (fun ring i => update ring (Z.to_nat i) (on_wait (Initialize i)))
                      l ring) = length ring.
Proof.
  induction l as [|i l IH]; intros ring; simpl; [reflexivity|].
  now rewrite IH, update_length.
Qed.

(** When the constructor gets past its two checks. *)
Lemma BoundedQueue_new_cases (size : Z) :
  0 <= size < 2 ^ 32 ->
  (~ power_of_two size /\
   BoundedQueue_new posix_memalign kCacheLineSize sizeof_Slot default_slot size
     = inl invalid_argument) \/
  (power_of_two size /\
   posix_memalign kCacheLineSize (size * sizeof_Slot) <> 0 /\
   BoundedQueue_new posix_memalign kCacheLineSize sizeof_Slot default_slot size
     = inl bad_alloc) \/
  (power_of_two size /\
   posix_memalign kCacheLineSize (size * sizeof_Slot) = 0 /\
   exists ring,
     BoundedQueue_new posix_memalign kCacheLineSize sizeof_Slot default_slot size
       = inr {| ring_ := Some ring; mask_ := size - 1; finish_ := false;
                head_ := 0; tail_ := 0 |} /\
     length ring = Z.to_nat size /\
     forall i, 0 <= i < size ->
       nth_error ring (Z.to_nat i) =
       Some {| wait := {| ticket_ := i |}; value := value default_slot |}).
Proof.
  intros Hsize. unfold BoundedQueue_new.
  destruct (Z.eqb_spec size 0) as [->|Hnz]; cbn [orb].
  - left. split; [|reflexivity].
    intros H. apply power_of_two_pos in H. lia.
  - rewrite (u32_small (size - 1)) by lia.
    destruct (Z.eqb_spec (Z.land size (size - 1)) 0) as [Hland|Hland]; cbn [negb].
    + apply land_pred_power_of_two in Hland; [|lia]. right.
      destruct (Z.eqb_spec (posix_memalign kCacheLineSize (size * sizeof_Slot)) 0)
        as [Hmem|Hmem]; cbn [negb].
      * right. split; [exact Hland | split; [exact Hmem|]].
        eexists. split; [reflexivity | split].
        -- now rewrite initialize_length, repeat_length.
        -- intros i Hi.
           rewrite (initialize_cells (Z.to_nat size) 0 _ (Z.to_nat i)).
           replace (Nat.leb 0 (Z.to_nat i) && Nat.ltb (Z.to_nat i) (0 + Z.to_nat size))%bool
             with true
             by (symmetry; apply andb_true_intro;
                 split; [apply Nat.leb_le | apply Nat.ltb_lt]; lia).
           rewrite (nth_error_repeat default_slot) by lia.
           cbn. now rewrite Z2Nat.id by lia.
      * left. now split.
    + left. split; [|reflexivity].
      intros H. apply Hland. apply land_pred_power_of_two; [lia | exact H].
Qed.

(** C4. The constructor throws [invalid_argument] exactly when the
    requested capacity is zero or not a power of two; for a valid
    capacity it throws [bad_alloc] exactly when [posix_memalign]
    fails, and otherwise it succeeds. *)
Theorem constructor_errors (size : Z) :
  0 <= size < 2 ^ 32 ->
  (BoundedQueue_new posix_memalign kCacheLineSize sizeof_Slot default_slot size
     = inl invalid_argument
   <-> size = 0 \/ ~ power_of_two size) /\
  (BoundedQueue_new posix_memalign kCacheLineSize sizeof_Slot default_slot size
     = inl bad_alloc
   <-> power_of_two size /\
       posix_memalign kCacheLineSize (size * sizeof_Slot) <> 0) /\
  ((exists q,
      BoundedQueue_new posix_memalign kCacheLineSize sizeof_Slot default_slot size
        = inr q)
   <-> power_of_two size /\
       posix_memalign kCacheLineSize (size * sizeof_Slot) = 0).
Proof.
  intros Hsize.
  assert (Hzero : size = 0 -> ~ power_of_two size)
    by (intros -> H; apply power_of_two_pos in H; lia).
  destruct (BoundedQueue_new_cases size Hsize)
    as [[Hnp ->]|[(Hp & Hmem & ->)|(Hp & Hmem & ring & -> & _)]].
  - split; [|split].
    + split; [now right | reflexivity].
    + split; [discriminate | tauto].
    + split; [intros [q Hq]; discriminate | tauto].
  - split; [|split].
    + split; [discriminate | intros [H|H]; [apply Hzero in H|]; tauto].
    + split; [tauto | reflexivity].
    + split; [intros [q Hq]; discriminate | tauto].
  - split; [|split].
    + split; [discriminate | intros [H|H]; [apply Hzero in H|]; tauto].
    + split; [discriminate | tauto].
    + split; [tauto | intros _; eexists; reflexivity].
Qed.

(** C7. Right after a successful construction with capacity [N],
    slot [i] holds ticket [i] for every [i] in [0, N), [head_] and
    [tail_] are 0 and the finish flag is down. *)
Theorem constructed_state (N : Z) :
  0 < N < 2 ^ 32 ->
  power_of_two N ->
  posix_memalign kCacheLineSize (N * sizeof_Slot) = 0 ->
  exists q,
    BoundedQueue_new posix_memalign kCacheLineSize sizeof_Slot default_slot N = inr q /\
    (forall i, 0 <= i < N ->
       exists s, slot_at q i = Some s /\ Load (wait s) = i) /\
    (forall i, slot_at q i <> None -> 0 <= i < N) /\
    mask_ q = N - 1 /\
    head_ q = 0 /\ tail_ q = 0 /\ finish_ q = false.
Proof.
  intros HN Hp Hmem.
  destruct (BoundedQueue_new_cases N ltac:(lia))
    as [[Hnp _]|[(_ & Hbad & _)|(_ & _ & ring & -> & Hlen & Hcells)]];
    [tauto | tauto |].
  eexists. split; [reflexivity|]. repeat split; try lia.
  - intros i Hi. unfold slot_at. cbn [ring_].
    destruct (Z.ltb_spec i 0); [lia|].
    rewrite (Hcells i Hi). eexists. split; reflexivity.
  - unfold slot_at in H. cbn [ring_] in H.
    destruct (Z.ltb_spec i 0); [tauto | assumption].
  - unfold slot_at in H. cbn [ring_] in H.
    destruct (Z.ltb_spec i 0); [tauto|].
    apply nth_error_Some in H. lia.
Qed.

End Lifetime.

(** A capacity of four with an allocator that succeeds. *)
Lemma constructor_errors_witness :
  (BoundedQueue_new (fun _ _ => 0) 64 64
     {| wait := {| ticket_ := 0 |}; value := 0 |} 4 = inl invalid_argument
   <-> 4 = 0 \/ ~ power_of_two 4) /\
  (BoundedQueue_new (fun _ _ => 0) 64 64
     {| wait := {| ticket_ := 0 |}; value := 0 |} 4 = inl bad_alloc
   <-> power_of_two 4 /\ 0 <> 0) /\
  ((exists q,
      BoundedQueue_new (fun _ _ => 0) 64 64
        {| wait := {| ticket_ := 0 |}; value := 0 |} 4 = inr q)
   <-> power_of_two 4 /\ 0 = 0).
Proof.
  apply (constructor_errors (fun _ _ => 0) 64 64
           {| wait := {| ticket_ := 0 |}; value := 0 |} 4).
  lia.
Defined.

Lemma constructed_state_witness :
  exists q,
    BoundedQueue_new (fun _ _ => 0) 64 64
      {| wait := {| ticket_ := 7 |}; value := 0 |} 4 = inr q /\
    (forall i, 0 <= i < 4 -> exists s, slot_at q i = Some s /\ Load (wait s) = i) /\
    (forall i, slot_at q i <> None -> 0 <= i < 4) /\
    mask_ q = 4 - 1 /\
    head_ q = 0 /\ tail_ q = 0 /\ finish_ q = false.
Proof.
  apply (constructed_state (fun _ _ => 0) 64 64
           {| wait := {| ticket_ := 7 |}; value := 0 |} 4).
  - lia.
  - exists 2. split; [lia | reflexivity].
  - reflexivity.
Defined.

(** C10. The move constructor hands over the ring and the mask only:
    the new queue starts with [head_ = tail_ = 0] and the finish flag
    down whatever the old one held, so [Finished] answers [false] and
    [Empty] answers [true] on it; the old queue is left with a null ring,
    and destroying it runs no slot destructor and frees nothing. *)
Theorem move_discards_counters {ValueType Backoff : Type} (W : WaitType)
    (moved_from : ValueType -> ValueType) (call_backoff : Backoff -> bool * Backoff)
    (other : BoundedQueue ValueType) :
  let new := fst (BoundedQueue_move other) in
  let old := snd (BoundedQueue_move other) in
  ring_ old = None /\
  Destroy old = [] /\
  ring_ new = ring_ other /\ mask_ new = mask_ other /\
  head_ new = 0 /\ tail_ new = 0 /\ finish_ new = false /\
  run (handle W moved_from call_backoff) 2 Finished new
    = Done false new [Obs FinishLoad false] /\
  run (handle W moved_from call_backoff) 3 Empty new
    = Done true new [Obs (CounterLoad head_counter memory_order_relaxed) 0;
                     Obs (CounterLoad tail_counter memory_order_relaxed) 0].
Proof.
  cbv zeta. repeat split.
Qed.

(* ===================================================================== *)
(** ** Enqueue and Dequeue, step by step *)
(* ===================================================================== *)

(** C2. Every [Enqueue] that returns has made exactly these accesses,
    in this order, whatever the other threads did: a sequentially
    consistent fetch-add of [tail_] answering the reservation [t]; reads
    of the ticket of slot [t & mask] (and backoff calls) until one, and
    only the last one, answers the low 32 bits of [t]; the assignment of
    the value to that slot; and [StoreAndWake] on it with the low 32 bits
    of [t + 1].  And it does return once the slot has shown that ticket,
    whatever it showed before. *)
Theorem Enqueue_steps {ValueType Backoff : Type}
    (mask : Z) (value : ValueType) (backoff : option Backoff) :
  (forall (St : Type)
          (h : forall A : Type, queueE ValueType Backoff A -> St -> option (St * A))
          (n : nat) (s : St) (r : unit) (s' : St) (tr : trace ValueType Backoff),
      run h n (Enqueue mask value backoff) s = Done r s' tr ->
      exists (t : Z) (waits : trace ValueType Backoff) (earlier : list Z),
        tr = Obs (FetchAdd tail_counter memory_order_seq_cst) t :: waits ++
             [Obs (SlotAssign (Z.land t mask) value) tt;
              Obs (SlotStoreAndWake (Z.land t mask) (u32 (t + 1))) tt] /\
        Forall (fun o => waits_on false (Z.land t mask) o = true) waits /\
        tickets_read (Z.land t mask) waits = earlier ++ [u32 t] /\
        Forall (fun c => c <> u32 t) earlier) /\
  (forall (moved_out : ValueType) (call_backoff : Backoff -> bool * Backoff)
          (s : script) (earlier rest : list Z),
      tickets s = earlier ++ u32 (reservation s) :: rest ->
      Forall (fun c => c <> u32 (reservation s)) earlier ->
      exists tr,
        run (scripted moved_out call_backoff) (3 * length earlier + 6)
            (Enqueue mask value backoff) s
          = Done tt (with_tickets s rest) tr).
Proof.
  split.
  - intros St h n s r s' tr H.
    apply Enqueue_Done in H. destruct H as (t & c0 & w & -> & Hw).
    pose proof (wait_trace_waits_on _ _ _ _ _ _ _ Hw) as Hquiet.
    apply (wait_trace_tickets false) in Hw.
    destruct Hw as (earlier & Hreads & Hearlier).
    exists t, (Obs (SlotLoad (Z.land t mask)) c0 :: w), earlier.
    rewrite u32_u64. repeat split.
    + constructor; [cbn; apply Z.eqb_refl | exact Hquiet].
    + cbn [tickets_read ticket_read]. now rewrite Z.eqb_refl.
    + exact Hearlier.
  - intros moved_out call_backoff s earlier rest. apply Enqueue_returns.
Qed.

(** C3. Every [Dequeue] of a queue of capacity [N] that returns [true]
    has made exactly these accesses, in this order, whatever the other
    threads did: the fetch-add of [head_] answering the reservation [hd];
    reads of the ticket of slot [hd & (N - 1)] (with shutdown checks and
    backoff calls) until one, and only the last one, answers the low 32
    bits of [hd + 1]; the move of the value out of that slot into the
    caller's variable; and [StoreAndWake] on it with the low 32 bits of
    [hd + N].  And it does return [true] once the slot has shown that
    ticket, unless the shutdown test turns it away first. *)
Theorem Dequeue_success_steps {ValueType Backoff : Type}
    (N : Z) (value : ValueType) (backoff : option Backoff) :
  (forall (St : Type)
          (h : forall A : Type, queueE ValueType Backoff A -> St -> option (St * A))
          (n : nat) (s : St) (out : ValueType) (s' : St) (tr : trace ValueType Backoff),
      run h n (Dequeue (N - 1) value backoff) s = Done (true, out) s' tr ->
      exists (hd : Z) (waits : trace ValueType Backoff) (earlier : list Z),
        tr = Obs (FetchAdd head_counter memory_order_relaxed) hd :: waits ++
             [Obs (SlotMove (Z.land hd (N - 1))) out;
              Obs (SlotStoreAndWake (Z.land hd (N - 1)) (u32 (hd + N))) tt] /\
        Forall (fun o => waits_on true (Z.land hd (N - 1)) o = true) waits /\
        tickets_read (Z.land hd (N - 1)) waits = earlier ++ [u32 (hd + 1)] /\
        Forall (fun c => c <> u32 (hd + 1)) earlier) /\
  (forall (moved_out : ValueType) (call_backoff : Backoff -> bool * Backoff)
          (s : script) (earlier rest : list Z),
      keeps_waiting (u64 (reservation s + 1)) s ->
      tickets s = earlier ++ u32 (reservation s + 1) :: rest ->
      Forall (fun c => c <> u32 (reservation s + 1)) earlier ->
      exists tr,
        run (scripted moved_out call_backoff) (5 * length earlier + 6)
            (Dequeue (N - 1) value backoff) s
          = Done (true, moved_out) (with_tickets s rest) tr).
Proof.
  split.
  - intros St h n s out s' tr H.
    apply Dequeue_Done in H. destruct H as (hd & c0 & w & Hw & -> & _).
    pose proof (wait_trace_waits_on _ _ _ _ _ _ _ Hw) as Hquiet.
    apply (wait_trace_tickets true) in Hw.
    destruct Hw as (earlier & Hreads & Hearlier).
    rewrite u32_u64 in Hreads, Hearlier.
    exists hd, (Obs (SlotLoad (Z.land hd (N - 1))) c0 :: w), earlier.
    rewrite u32_wake_tail. replace (N - 1 + 1) with N by lia. repeat split.
    + constructor; [cbn; apply Z.eqb_refl | exact Hquiet].
    + cbn [tickets_read ticket_read]. now rewrite Z.eqb_refl.
    + exact Hearlier.
  - intros moved_out call_backoff s earlier rest. apply Dequeue_returns.
Qed.

(** A producer holding reservation [2^32 + 1] that finds tickets 5 and 7
    before the ticket 1 it needs, backing off twice. *)
Lemma Enqueue_steps_witness :
  (exists (t : Z) (waits : trace Z nat) (earlier : list Z),
      [Obs (FetchAdd tail_counter memory_order_seq_cst) 4294967297;
       Obs (SlotLoad 1) 5; Obs (CallBackoff 1%nat) (false, 0%nat);
       Obs (SlotLoad 1) 7; Obs (CallBackoff 0%nat) (true, 0%nat);
       Obs (SlotLoad 1) 1; Obs (SlotAssign 1 10) tt;
       Obs (SlotStoreAndWake 1 2) tt]
      = Obs (FetchAdd tail_counter memory_order_seq_cst) t :: waits ++
        [Obs (SlotAssign (Z.land t 1) 10) tt;
         Obs (SlotStoreAndWake (Z.land t 1) (u32 (t + 1))) tt] /\
      Forall (fun o => waits_on false (Z.land t 1) o = true) waits /\
      tickets_read (Z.land t 1) waits = earlier ++ [u32 t] /\
      Forall (fun c => c <> u32 t) earlier) /\
  (exists tr,
      run (scripted 42 countdown) (3 * length [5; 7] + 6)
          (Enqueue 1 10 (Some 1%nat))
          {| reservation := 2 ^ 32 + 1; tickets := [5; 7; 1; 8];
             raised := false; reserved_tail := 0 |}
        = Done tt
            (with_tickets {| reservation := 2 ^ 32 + 1; tickets := [5; 7; 1; 8];
                             raised := false; reserved_tail := 0 |} [8])
            tr).
Proof.
  split.
  - apply (proj1 (Enqueue_steps 1 10 (Some 1%nat)) script (scripted 42 countdown) 20%nat
             {| reservation := 2 ^ 32 + 1; tickets := [5; 7; 1];
                raised := false; reserved_tail := 0 |}
             tt
             {| reservation := 2 ^ 32 + 1; tickets := [];
                raised := false; reserved_tail := 0 |}).
    vm_compute. reflexivity.
  - apply (proj2 (Enqueue_steps 1 10 (Some 1%nat)) 42 countdown
             {| reservation := 2 ^ 32 + 1; tickets := [5; 7; 1; 8];
                raised := false; reserved_tail := 0 |} [5; 7] [8]).
    + reflexivity.
    + repeat constructor; vm_compute; discriminate.
Defined.

(** A consumer holding reservation [2^32 - 1] on a queue of capacity
    two, after shutdown, with [tail_] well ahead: it waits for ticket 0
    and publishes ticket 1. *)
Lemma Dequeue_success_steps_witness :
  (exists (hd : Z) (waits : trace Z nat) (earlier : list Z),
      [Obs (FetchAdd head_counter memory_order_relaxed) 4294967295;
       Obs (SlotLoad 1) 5; Obs FinishLoad true;
       Obs (CounterLoad tail_counter memory_order_seq_cst) 4294967301;
       Obs (CallBackoff 1%nat) (false, 0%nat);
       Obs (SlotLoad 1) 7; Obs FinishLoad true;
       Obs (CounterLoad tail_counter memory_order_seq_cst) 4294967301;
       Obs (CallBackoff 0%nat) (true, 0%nat); Obs (SlotLoad 1) 9;
       Obs FinishLoad true;
       Obs (CounterLoad tail_counter memory_order_seq_cst) 4294967301;
       Obs (SlotWaitAndLoad 1 9) 0; Obs (SlotMove 1) 42;
       Obs (SlotStoreAndWake 1 1) tt]
      = Obs (FetchAdd head_counter memory_order_relaxed) hd :: waits ++
        [Obs (SlotMove (Z.land hd (2 - 1))) 42;
         Obs (SlotStoreAndWake (Z.land hd (2 - 1)) (u32 (hd + 2))) tt] /\
      Forall (fun o => waits_on true (Z.land hd (2 - 1)) o = true) waits /\
      tickets_read (Z.land hd (2 - 1)) waits = earlier ++ [u32 (hd + 1)] /\
      Forall (fun c => c <> u32 (hd + 1)) earlier) /\
  (exists tr,
      run (scripted 42 countdown) (5 * length [5; 7; 9] + 6)
          (Dequeue (2 - 1) 0 (Some 1%nat))
          {| reservation := 2 ^ 32 - 1; tickets := [5; 7; 9; 0];
             raised := true; reserved_tail := 2 ^ 32 + 5 |}
        = Done (true, 42)
            (with_tickets {| reservation := 2 ^ 32 - 1; tickets := [5; 7; 9; 0];
                             raised := true; reserved_tail := 2 ^ 32 + 5 |} [])
            tr).
Proof.
  split.
  - apply (proj1 (Dequeue_success_steps 2 0 (Some 1%nat)) script (scripted 42 countdown)
             20%nat
             {| reservation := 2 ^ 32 - 1; tickets := [5; 7; 9; 0];
                raised := true; reserved_tail := 2 ^ 32 + 5 |}
             42
             {| reservation := 2 ^ 32 - 1; tickets := [];
                raised := true; reserved_tail := 2 ^ 32 + 5 |}).
    vm_compute. reflexivity.
  - apply (proj2 (Dequeue_success_steps 2 0 (Some 1%nat)) 42 countdown
             {| reservation := 2 ^ 32 - 1; tickets := [5; 7; 9; 0];
                raised := true; reserved_tail := 2 ^ 32 + 5 |} [5; 7; 9] []).
    + right. reflexivity.
    + reflexivity.
    + repeat constructor; vm_compute; discriminate.
Defined.

(** A full ring holds the third producer back until a consumer has
    emptied its slot; the values come out in the order they went in. *)
Example full_ring_blocks_producer :
  option_map returns (default_schedule (firstn 3 full_ring_plan) full_ring)
  = Some [Some ReturnedVoid; Some ReturnedVoid; None; None; None; None] /\
  option_map returns (default_schedule full_ring_plan full_ring)
  = Some [Some ReturnedVoid; Some ReturnedVoid; Some ReturnedVoid;
          Some (ReturnedDequeue true 10); Some (ReturnedDequeue true 20);
          Some (ReturnedDequeue true 30)].
Proof. split; vm_compute; reflexivity. Qed.

(* ===================================================================== *)
(** ** One slot through a full turn, at any reservation *)
(* ===================================================================== *)

Section Turn.

Context {ValueType Backoff : Type}.
Variable moved_from : ValueType -> ValueType.
Variable call_backoff : Backoff -> bool * Backoff.

Let H := handle BoundedQueueNoWait moved_from call_backoff.

(** A producer whose slot already shows the ticket of its reservation
    does not wait. *)
Lemma Enqueue_ready (mask : Z) (x : ValueType) (q : BoundedQueue ValueType)
    (sl : Slot ValueType) :
  slot_at q (Z.land (tail_ q) mask) = Some sl ->
  Load (wait sl) = u32 (tail_ q) ->
  exists q1,
    run H 5 (Enqueue mask x None) q
      = Done tt q1
          [Obs (FetchAdd tail_counter memory_order_seq_cst) (tail_ q);
           Obs (SlotLoad (Z.land (tail_ q) mask)) (u32 (tail_ q));
           Obs (SlotAssign (Z.land (tail_ q) mask) x) tt;
           Obs (SlotStoreAndWake (Z.land (tail_ q) mask) (u32 (tail_ q + 1))) tt] /\
    slot_at q1 (Z.land (tail_ q) mask)
      = Some {| wait := {| ticket_ := u32 (tail_ q + 1) |}; value := x |} /\
    (forall j, j <> Z.land (tail_ q) mask -> slot_at q1 j = slot_at q j) /\
    head_ q1 = head_ q /\ tail_ q1 = u64 (tail_ q + 1) /\
    mask_ q1 = mask_ q /\ finish_ q1 = finish_ q.
Proof.
  intros Hslot Hticket.
  pose proof (slot_at_nonneg q _ sl Hslot) as Hnonneg.
  set (slot := Z.land (tail_ q) mask) in *.
  set (q0 := {| ring_ := ring_ q; mask_ := mask_ q; finish_ := finish_ q;
                head_ := head_ q; tail_ := u64 (tail_ q + 1) |}).
  exists (with_slot (with_slot q0 slot (on_value (fun _ => x))) slot
            (on_wait (Store (u32 (tail_ q + 1))))).
  assert (Hslot0 : slot_at q0 slot = Some sl) by exact Hslot.
  split; [|split; [|split]].
  - unfold Enqueue, H. rewrite run_bind_trigger. cbn [handle]. cbv zeta.
    fold slot. fold q0. unfold WaitTail.
    rewrite bind_bind, run_bind_trigger. cbn [handle]. rewrite Hslot0, Hticket.
    rewrite unfold_iter. unfold WaitTail_iteration at 1. rewrite Z.eqb_refl.
    rewrite !bind_ret_l, run_bind_trigger. cbn [handle]. rewrite Hslot0.
    unfold WakeHead. rewrite run_trigger. cbn [handle].
    rewrite slot_at_with_slot, Z.eqb_refl, Hslot0 by assumption.
    cbn [option_map prepend StoreAndWake BoundedQueueNoWait]. now rewrite u32_u64.
  - rewrite !slot_at_with_slot, Z.eqb_refl, Hslot0 by assumption. reflexivity.
  - intros j Hj. rewrite !slot_at_with_slot by assumption.
    destruct (Z.eqb_spec j slot); [contradiction | reflexivity].
  - repeat split.
Qed.

(** A consumer whose slot already shows the ticket after its
    reservation does not wait. *)
Lemma Dequeue_ready (mask : Z) (v : ValueType) (q : BoundedQueue ValueType)
    (sl : Slot ValueType) :
  slot_at q (Z.land (head_ q) mask) = Some sl ->
  Load (wait sl) = u32 (head_ q + 1) ->
  exists q1,
    run H 5 (Dequeue mask v None) q
      = Done (true, value sl) q1
          [Obs (FetchAdd head_counter memory_order_relaxed) (head_ q);
           Obs (SlotLoad (Z.land (head_ q) mask)) (u32 (head_ q + 1));
           Obs (SlotMove (Z.land (head_ q) mask)) (value sl);
           Obs (SlotStoreAndWake (Z.land (head_ q) mask)
                  (u32 (head_ q + (mask + 1)))) tt] /\
    slot_at q1 (Z.land (head_ q) mask)
      = Some {| wait := {| ticket_ := u32 (head_ q + (mask + 1)) |};
                value := moved_from (value sl) |} /\
    (forall j, j <> Z.land (head_ q) mask -> slot_at q1 j = slot_at q j) /\
    head_ q1 = u64 (head_ q + 1) /\ tail_ q1 = tail_ q /\
    mask_ q1 = mask_ q /\ finish_ q1 = finish_ q.
Proof.
  intros Hslot Hticket.
  pose proof (slot_at_nonneg q _ sl Hslot) as Hnonneg.
  set (slot := Z.land (head_ q) mask) in *.
  set (q0 := {| ring_ := ring_ q; mask_ := mask_ q; finish_ := finish_ q;
                head_ := u64 (head_ q + 1); tail_ := tail_ q |}).
  exists (with_slot (with_slot q0 slot (on_value moved_from)) slot
            (on_wait (Store (u32 (head_ q + (mask + 1)))))).
  assert (Hslot0 : slot_at q0 slot = Some sl) by exact Hslot.
  split; [|split; [|split]].
  - unfold Dequeue, H. rewrite run_bind_trigger. cbn [handle]. cbv zeta.
    fold slot. fold q0. unfold WaitHead.
    rewrite bind_bind, run_bind_trigger. cbn [handle]. rewrite Hslot0, Hticket.
    rewrite unfold_iter. unfold WaitHead_iteration at 1.
    rewrite u32_u64, Z.eqb_refl.
    rewrite !bind_ret_l. cbn [negb]. rewrite run_bind_trigger. cbn [handle].
    rewrite Hslot0. unfold WakeTail.
    rewrite run_bind_trigger. cbn [handle].
    rewrite slot_at_with_slot, Z.eqb_refl, Hslot0 by assumption.
    cbn [option_map prepend StoreAndWake BoundedQueueNoWait].
    now rewrite run_Ret, u32_wake_tail.
  - rewrite !slot_at_with_slot, Z.eqb_refl, Hslot0 by assumption. reflexivity.
  - intros j Hj. rewrite !slot_at_with_slot by assumption.
    destruct (Z.eqb_spec j slot); [contradiction | reflexivity].
  - repeat split.
Qed.

(** One value through a ready ring: neither call waits, and the ring
    is ready at the next reservation. *)
Lemma ready_turn (N r : Z) (x v : ValueType) (q : BoundedQueue ValueType) :
  power_of_two N -> N < 2 ^ 32 ->
  ready_at N r q ->
  exists q1 q2,
    run H 5 (Enqueue (N - 1) x None) q
      = Done tt q1
          [Obs (FetchAdd tail_counter memory_order_seq_cst) r;
           Obs (SlotLoad (Z.land r (N - 1))) (u32 r);
           Obs (SlotAssign (Z.land r (N - 1)) x) tt;
           Obs (SlotStoreAndWake (Z.land r (N - 1)) (u32 (r + 1))) tt] /\
    run H 5 (Dequeue (N - 1) v None) q1
      = Done (true, x) q2
          [Obs (FetchAdd head_counter memory_order_relaxed) r;
           Obs (SlotLoad (Z.land r (N - 1))) (u32 (r + 1));
           Obs (SlotMove (Z.land r (N - 1))) x;
           Obs (SlotStoreAndWake (Z.land r (N - 1)) (u32 (r + N))) tt] /\
    ready_at N (u64 (r + 1)) q2.
Proof.
  intros Hp Hlt (Hmask & Hhead & Htail & Hslots).
  pose proof (power_of_two_pos N Hp) as HN.
  assert (Hidx : Z.land r (N - 1) = r mod N) by now apply land_mask_mod.
  pose proof (Z.mod_pos_bound r N HN) as Hj0.
  destruct (Hslots (r mod N) Hj0) as (sl & Hslot & Hticket).
  rewrite Zminus_mod_idemp_l, Z.sub_diag, Z.mod_0_l, Z.add_0_r in Hticket by lia.
  rewrite <- Hidx, <- Htail in Hslot. rewrite <- Htail in Hticket.
  destruct (Enqueue_ready (N - 1) x q sl Hslot Hticket)
    as (q1 & Hrun1 & Hslot1 & Hothers1 & Hhead1 & Htail1 & Hmask1 & _).
  rewrite Htail in Hrun1, Hslot1, Hothers1, Htail1.
  rewrite Hhead in Hhead1. rewrite <- Hhead1 in Hslot1.
  destruct (Dequeue_ready (N - 1) v q1 _ Hslot1)
    as (q2 & Hrun2 & Hslot2 & Hothers2 & Hhead2 & Htail2 & Hmask2 & _);
    [now rewrite Hhead1|].
  rewrite Hhead1 in Hrun2, Hslot2, Hothers2, Hhead2. cbn [value] in Hrun2, Hslot2.
  replace (r + (N - 1 + 1)) with (r + N) in Hrun2, Hslot2 by lia.
  exists q1, q2. split; [exact Hrun1 | split; [exact Hrun2|]].
  split; [congruence|]. split; [exact Hhead2|]. split; [congruence|].
  intros j Hj. destruct (Z.eq_dec j (r mod N)) as [->|Hne].
  - rewrite <- Hidx, Hslot2. eexists. split; [reflexivity|].
    cbn [wait Load ticket_]. rewrite Hidx.
    symmetry. now apply next_ticket_served.
  - rewrite Hothers2, Hothers1 by (rewrite Hidx; exact Hne).
    destruct (Hslots j Hj) as (sl' & Hslot' & Hticket').
    exists sl'. split; [exact Hslot'|].
    rewrite Hticket'. symmetry. now apply next_ticket_other.
Qed.

(** Any number of values through a ready ring, one after another. *)
Lemma ready_relay (N : Z) (xs : list ValueType) :
  power_of_two N -> N < 2 ^ 32 ->
  forall (r : Z) (q : BoundedQueue ValueType) (v : ValueType),
    0 <= r < 2 ^ 64 ->
    ready_at N r q ->
    exists q' tr,
      run H (11 * length xs + 1) (relay (N - 1) xs v) q
        = Done (List.map (fun x => (true, x)) xs) q' tr /\
      length tr = (8 * length xs)%nat /\
      ready_at N (u64 (r + Z.of_nat (length xs))) q'.
Proof.
  intros Hp Hlt. induction xs as [|x xs IH]; intros r q v Hr Hready.
  - exists q, []. split; [reflexivity|]. split; [reflexivity|].
    cbn [length Z.of_nat]. now rewrite Z.add_0_r, u64_small.
  - destruct (ready_turn N r x v q Hp Hlt Hready) as (q1 & q2 & Hrun1 & Hrun2 & Hready2).
    destruct (IH (u64 (r + 1)) q2 x (u64_range _) Hready2)
      as (q' & tr & Hrun & Hlen & Hready').
    exists q'. eexists. split; [|split].
    + replace (11 * length (x :: xs) + 1)%nat
        with (5 + (5 + ((11 * length xs + 1) + 1)))%nat by (cbn [length]; lia).
      cbn [relay List.map].
      eapply run_bind_compose; [exact Hrun1|].
      eapply run_bind_compose; [exact Hrun2|]. cbn [snd].
      eapply run_bind_compose; [exact Hrun | reflexivity].
    + rewrite !length_app, Hlen. cbn [length]. lia.
    + rewrite u64_add_l in Hready'.
      replace (r + Z.of_nat (length (x :: xs))) with (r + 1 + Z.of_nat (length xs))
        by (cbn [length]; lia).
      exact Hready'.
Qed.

(** The ring the constructor builds is ready at reservation 0, so any
    number of values pass through a freshly constructed queue. *)
Lemma constructed_ready (posix_memalign : Z -> Z -> Z)
    (kCacheLineSize sizeof_Slot : Z) (default_slot : Slot ValueType)
    (N : Z) (q : BoundedQueue ValueType) :
  0 <= N < 2 ^ 32 ->
  BoundedQueue_new posix_memalign kCacheLineSize sizeof_Slot default_slot N = inr q ->
  power_of_two N /\ ready_at N 0 q.
Proof.
  intros HN Hnew.
  destruct (BoundedQueue_new_cases posix_memalign kCacheLineSize sizeof_Slot
              default_slot N HN)
    as [[_ Hbad]|[(_ & _ & Hbad)|(Hp & _ & ring & Hq & Hlen & Hcells)]];
    try congruence.
  rewrite Hq in Hnew. injection Hnew as <-.
  split; [exact Hp|]. repeat split. intros j Hj.
  eexists. split.
  - unfold slot_at. cbn [ring_]. destruct (Z.ltb_spec j 0); [lia|]. now apply Hcells.
  - cbn [wait Load ticket_].
    now rewrite Z.sub_0_r, Z.add_0_l, Z.mod_small, u32_small by lia.
Qed.

Lemma relay_from_construction (posix_memalign : Z -> Z -> Z)
    (kCacheLineSize sizeof_Slot : Z) (default_slot : Slot ValueType)
    (N : Z) (q : BoundedQueue ValueType) (xs : list ValueType) (v : ValueType) :
  0 <= N < 2 ^ 32 ->
  BoundedQueue_new posix_memalign kCacheLineSize sizeof_Slot default_slot N = inr q ->
  exists q' tr,
    run H (11 * length xs + 1) (relay (N - 1) xs v) q
      = Done (List.map (fun x => (true, x)) xs) q' tr /\
    length tr = (8 * length xs)%nat /\
    ready_at N (u64 (Z.of_nat (length xs))) q'.
Proof.
  intros HN Hnew.
  destruct (constructed_ready _ _ _ _ N q HN Hnew) as [Hp Hready].
  apply (ready_relay N xs Hp (proj2 HN) 0 q v); [lia | exact Hready].
Qed.

(** C5. Take any 64-bit reservation [r] of a queue of valid capacity
    [N].  The wait loops compare the ticket they read with the low 32
    bits of the 64-bit ticket they are given, in both overloads and
    whatever the other threads do: the producer's wait for [r] returns at
    the first read of [u32 r] and not before, and it does return there;
    the consumer's wait for the 64-bit successor [u64 (r + 1)] returns
    [true] at the first read of [u32 (r + 1)] and not before, and returns
    [false] only if it never read it.  What is published is the same
    truncation of a 64-bit successor: [WakeHead] stores [u32 (r + 1)],
    the ticket the consumer of [r] waits for, and [WakeTail] stores
    [u32 (r + N)], the ticket the producer of the reservation [u64 (r + N)]
    one lap later waits for.  So on a ring ready at [r] a value enqueued
    and dequeued goes through at the first load and leaves the ring ready
    at [r + 1], and any number of values pass one after another however
    many times the 32-bit tickets and the 64-bit counters wrap on the
    way. *)
Theorem tickets_match_across_wrap (N r : Z) (q : BoundedQueue ValueType) :
  power_of_two N -> N < 2 ^ 32 ->
  0 <= r < 2 ^ 64 ->
  ready_at N r q ->
  (forall (backoff : option Backoff) (slot : Z) (St : Type)
          (h : forall A : Type, queueE ValueType Backoff A -> St -> option (St * A))
          (n : nat) (s s' : St) (tr : trace ValueType Backoff),
      run h n (match backoff with
               | None => WaitTail slot r
               | Some b => WaitTail_backoff slot r b
               end) s = Done tt s' tr ->
      exists earlier,
        tickets_read slot tr = earlier ++ [u32 r] /\
        Forall (fun c => c <> u32 r) earlier) /\
  (forall (backoff : option Backoff) (slot : Z) (moved_out : ValueType)
          (spin : Backoff -> bool * Backoff) (s : script) (earlier rest : list Z),
      tickets s = earlier ++ u32 r :: rest ->
      Forall (fun c => c <> u32 r) earlier ->
      exists n tr,
        run (scripted moved_out spin) n
            (match backoff with
             | None => WaitTail slot r
             | Some b => WaitTail_backoff slot r b
             end) s
          = Done tt (with_tickets s rest) tr) /\
  (forall (slot : Z) (St : Type)
          (h : forall A : Type, queueE ValueType Backoff A -> St -> option (St * A))
          (n : nat) (s s' : St) (tr : trace ValueType Backoff),
      run h n (WakeHead slot (u64 (r + 1))) s = Done tt s' tr ->
      tr = [Obs (SlotStoreAndWake slot (u32 (r + 1))) tt]) /\
  (forall (backoff : option Backoff) (slot : Z) (St : Type)
          (h : forall A : Type, queueE ValueType Backoff A -> St -> option (St * A))
          (n : nat) (s s' : St) (ok : bool) (tr : trace ValueType Backoff),
      run h n (match backoff with
               | None => WaitHead slot (u64 (r + 1))
               | Some b => WaitHead_backoff slot (u64 (r + 1)) b
               end) s = Done ok s' tr ->
      if ok then
        exists earlier,
          tickets_read slot tr = earlier ++ [u32 (r + 1)] /\
          Forall (fun c => c <> u32 (r + 1)) earlier
      else Forall (fun c => c <> u32 (r + 1)) (tickets_read slot tr)) /\
  (forall (backoff : option Backoff) (slot : Z) (moved_out : ValueType)
          (spin : Backoff -> bool * Backoff) (s : script) (earlier rest : list Z),
      keeps_waiting (u64 (r + 1)) s ->
      tickets s = earlier ++ u32 (r + 1) :: rest ->
      Forall (fun c => c <> u32 (r + 1)) earlier ->
      exists n tr,
        run (scripted moved_out spin) n
            (match backoff with
             | None => WaitHead slot (u64 (r + 1))
             | Some b => WaitHead_backoff slot (u64 (r + 1)) b
             end) s
          = Done true (with_tickets s rest) tr) /\
  (forall (slot : Z) (St : Type)
          (h : forall A : Type, queueE ValueType Backoff A -> St -> option (St * A))
          (n : nat) (s s' : St) (tr : trace ValueType Backoff),
      run h n (WakeTail slot (u64 (u64 (r + (N - 1)) + 1))) s = Done tt s' tr ->
      tr = [Obs (SlotStoreAndWake slot (u32 (r + N))) tt]) /\
  (forall (backoff : option Backoff) (slot : Z) (St : Type)
          (h : forall A : Type, queueE ValueType Backoff A -> St -> option (St * A))
          (n : nat) (s s' : St) (tr : trace ValueType Backoff),
      run h n (match backoff with
               | None => WaitTail slot (u64 (r + N))
               | Some b => WaitTail_backoff slot (u64 (r + N)) b
               end) s = Done tt s' tr ->
      exists earlier,
        tickets_read slot tr = earlier ++ [u32 (r + N)] /\
        Forall (fun c => c <> u32 (r + N)) earlier) /\
  (forall x v,
      exists q',
        run H 10 (Enqueue (N - 1) x None;; Dequeue (N - 1) v None) q
          = Done (true, x) q'
              [Obs (FetchAdd tail_counter memory_order_seq_cst) r;
               Obs (SlotLoad (Z.land r (N - 1))) (u32 r);
               Obs (SlotAssign (Z.land r (N - 1)) x) tt;
               Obs (SlotStoreAndWake (Z.land r (N - 1)) (u32 (r + 1))) tt;
               Obs (FetchAdd head_counter memory_order_relaxed) r;
               Obs (SlotLoad (Z.land r (N - 1))) (u32 (r + 1));
               Obs (SlotMove (Z.land r (N - 1))) x;
               Obs (SlotStoreAndWake (Z.land r (N - 1)) (u32 (r + N))) tt] /\
        ready_at N (u64 (r + 1)) q') /\
  (forall xs v,
      exists q' tr,
        run H (11 * length xs + 1) (relay (N - 1) xs v) q
          = Done (List.map (fun x => (true, x)) xs) q' tr /\
        length tr = (8 * length xs)%nat /\
        ready_at N (u64 (r + Z.of_nat (length xs))) q').
Proof.
  intros Hp Hlt Hr Hready.
  assert (Hproducer :
    forall (required : Z) (backoff : option Backoff) (slot : Z) (St : Type)
           (h : forall A : Type, queueE ValueType Backoff A -> St -> option (St * A))
           (n : nat) (s s' : St) (tr : trace ValueType Backoff),
      run h n (match backoff with
               | None => WaitTail slot required
               | Some b => WaitTail_backoff slot required b
               end) s = Done tt s' tr ->
      exists earlier,
        tickets_read slot tr = earlier ++ [u32 required] /\
        Forall (fun c => c <> u32 required) earlier).
  { intros required backoff slot St h n s s' tr Hrun.
    apply WaitTail_Done in Hrun. destruct Hrun as (c0 & w & -> & Hw).
    apply (wait_trace_tickets false) in Hw. destruct Hw as (earlier & Hreads & Hearlier).
    exists earlier. split; [|exact Hearlier].
    cbn [tickets_read ticket_read]. now rewrite Z.eqb_refl. }
  repeat apply conj.
  - apply Hproducer.
  - intros backoff slot moved_out spin s earlier rest Htickets Hearlier.
    destruct (WaitTail_returns moved_out spin slot r backoff s earlier rest
                Htickets Hearlier) as (n & tr & _ & Hrun).
    now exists n, tr.
  - intros slot St h n s s' tr Hrun. unfold WakeHead in Hrun.
    apply run_trigger_Done in Hrun. destruct Hrun as [_ ->]. now rewrite u32_u64.
  - intros backoff slot St h n s s' ok tr Hrun.
    apply WaitHead_Done in Hrun. destruct Hrun as (c0 & w & -> & Hw).
    apply (wait_trace_tickets true) in Hw. rewrite u32_u64 in Hw.
    cbn [tickets_read ticket_read]. now rewrite Z.eqb_refl.
  - intros backoff slot moved_out spin s earlier rest Hkeep Htickets Hearlier.
    rewrite <- u32_u64 in Htickets, Hearlier.
    destruct (WaitHead_returns moved_out spin slot (u64 (r + 1)) backoff s earlier rest
                Hkeep Htickets Hearlier) as (n & tr & _ & Hrun).
    now exists n, tr.
  - intros slot St h n s s' tr Hrun. unfold WakeTail in Hrun.
    apply run_trigger_Done in Hrun. destruct Hrun as [_ ->].
    rewrite u32_wake_tail. do 4 f_equal. lia.
  - intros backoff slot St h n s s' tr Hrun.
    rewrite <- (u32_u64 (r + N)). now apply (Hproducer (u64 (r + N)) backoff slot St h n s s').
  - intros x v.
    destruct (ready_turn N r x v q Hp Hlt Hready)
      as (q1 & q2 & Hrun1 & Hrun2 & Hready2).
    exists q2. split; [|exact Hready2].
    exact (run_bind_compose H 5 5 _ _ q tt q1 _ _ q2 _ Hrun1 Hrun2).
  - intros xs v. now apply ready_relay.
Qed.

End Turn.

Lemma tickets_match_across_wrap_witness :
  (forall (backoff : option nat) (slot : Z) (St : Type)
          (h : forall A : Type, queueE Z nat A -> St -> option (St * A))
          (n : nat) (s s' : St) (tr : trace Z nat),
      run h n (match backoff with
               | None => WaitTail slot 8589934591
               | Some b => WaitTail_backoff slot 8589934591 b
               end) s = Done tt s' tr ->
      exists earlier,
        tickets_read slot tr = earlier ++ [u32 8589934591] /\
        Forall (fun c => c <> u32 8589934591) earlier) /\
  (forall (backoff : option nat) (slot : Z) (moved_out : Z)
          (spin : nat -> bool * nat) (s : script) (earlier rest : list Z),
      tickets s = earlier ++ u32 8589934591 :: rest ->
      Forall (fun c => c <> u32 8589934591) earlier ->
      exists n tr,
        run (scripted moved_out spin) n
            (match backoff with
             | None => WaitTail slot 8589934591
             | Some b => WaitTail_backoff slot 8589934591 b
             end) s
          = Done tt (with_tickets s rest) tr) /\
  (forall (slot : Z) (St : Type)
          (h : forall A : Type, queueE Z nat A -> St -> option (St * A))
          (n : nat) (s s' : St) (tr : trace Z nat),
      run h n (WakeHead slot (u64 (8589934591 + 1))) s = Done tt s' tr ->
      tr = [Obs (SlotStoreAndWake slot (u32 (8589934591 + 1))) tt]) /\
  (forall (backoff : option nat) (slot : Z) (St : Type)
          (h : forall A : Type, queueE Z nat A -> St -> option (St * A))
          (n : nat) (s s' : St) (ok : bool) (tr : trace Z nat),
      run h n (match backoff with
               | None => WaitHead slot (u64 (8589934591 + 1))
               | Some b => WaitHead_backoff slot (u64 (8589934591 + 1)) b
               end) s = Done ok s' tr ->
      if ok then
        exists earlier,
          tickets_read slot tr = earlier ++ [u32 (8589934591 + 1)] /\
          Forall (fun c => c <> u32 (8589934591 + 1)) earlier
      else Forall (fun c => c <> u32 (8589934591 + 1)) (tickets_read slot tr)) /\
  (forall (backoff : option nat) (slot : Z) (moved_out : Z)
          (spin : nat -> bool * nat) (s : script) (earlier rest : list Z),
      keeps_waiting (u64 (8589934591 + 1)) s ->
      tickets s = earlier ++ u32 (8589934591 + 1) :: rest ->
      Forall (fun c => c <> u32 (8589934591 + 1)) earlier ->
      exists n tr,
        run (scripted moved_out spin) n
            (match backoff with
             | None => WaitHead slot (u64 (8589934591 + 1))
             | Some b => WaitHead_backoff slot (u64 (8589934591 + 1)) b
             end) s
          = Done true (with_tickets s rest) tr) /\
  (forall (slot : Z) (St : Type)
          (h : forall A : Type, queueE Z nat A -> St -> option (St * A))
          (n : nat) (s s' : St) (tr : trace Z nat),
      run h n (WakeTail slot (u64 (u64 (8589934591 + (2 - 1)) + 1))) s = Done tt s' tr ->
      tr = [Obs (SlotStoreAndWake slot (u32 (8589934591 + 2))) tt]) /\
  (forall (backoff : option nat) (slot : Z) (St : Type)
          (h : forall A : Type, queueE Z nat A -> St -> option (St * A))
          (n : nat) (s s' : St) (tr : trace Z nat),
      run h n (match backoff with
               | None => WaitTail slot (u64 (8589934591 + 2))
               | Some b => WaitTail_backoff slot (u64 (8589934591 + 2)) b
               end) s = Done tt s' tr ->
      exists earlier,
        tickets_read slot tr = earlier ++ [u32 (8589934591 + 2)] /\
        Forall (fun c => c <> u32 (8589934591 + 2)) earlier) /\
  (forall x v : Z,
      exists q',
        run (handle BoundedQueueNoWait (fun x => x) countdown) 10 (Enqueue (2 - 1) x None;; Dequeue (2 - 1) v None) about_to_wrap_again
          = Done (true, x) q'
              [Obs (FetchAdd tail_counter memory_order_seq_cst) 8589934591;
               Obs (SlotLoad (Z.land 8589934591 (2 - 1))) (u32 8589934591);
               Obs (SlotAssign (Z.land 8589934591 (2 - 1)) x) tt;
               Obs (SlotStoreAndWake (Z.land 8589934591 (2 - 1)) (u32 (8589934591 + 1))) tt;
               Obs (FetchAdd head_counter memory_order_relaxed) 8589934591;
               Obs (SlotLoad (Z.land 8589934591 (2 - 1))) (u32 (8589934591 + 1));
               Obs (SlotMove (Z.land 8589934591 (2 - 1))) x;
               Obs (SlotStoreAndWake (Z.land 8589934591 (2 - 1)) (u32 (8589934591 + 2))) tt] /\
        ready_at 2 (u64 (8589934591 + 1)) q') /\
  (forall (xs : list Z) (v : Z),
      exists q' tr,
        run (handle BoundedQueueNoWait (fun x => x) countdown) (11 * length xs + 1) (relay (2 - 1) xs v) about_to_wrap_again
          = Done (List.map (fun x => (true, x)) xs) q' tr /\
        length tr = (8 * length xs)%nat /\
        ready_at 2 (u64 (8589934591 + Z.of_nat (length xs))) q').
Proof.
  apply (tickets_match_across_wrap (fun x => x) countdown 2 8589934591
           about_to_wrap_again).
  - exists 1. split; [lia | reflexivity].
  - lia.
  - lia.
  - repeat split. intros j Hj. assert (Hcase : j = 0 \/ j = 1) by lia.
    destruct Hcase as [-> | ->]; eexists; split; reflexivity.
Defined.

(* ===================================================================== *)
(** ** Backing off, then parking *)
(* ===================================================================== *)

Section BackoffFacts.

Context {ValueType Backoff : Type}.



End BackoffFacts.


(* ===================================================================== *)
(** ** Shutdown *)
(* ===================================================================== *)

Section FinishFacts.

Context {ValueType Backoff : Type}.

(** The accesses of [Finish] on a queue of [size] slots, whatever the
    other threads do: the store of the flag, then one [Wake] per slot in
    index order. *)
Lemma Finish_loop_Done {St : Type}
    (h : forall A : Type, queueE ValueType Backoff A -> St -> option (St * A))
    (mask : Z) (n : nat) :
  forall i s r s' tr,
    0 <= i <= u32 (mask + 1) ->
    run h n (ITree.iter (Finish_iteration mask) i) s = Done r s' tr ->
    tr = List.map (fun j => Obs (SlotWake j) tt)
           (indices i (Z.to_nat (u32 (mask + 1) - i))).
Proof.
  induction n as [n IH] using lt_wf_ind. intros i s r s' tr Hi H.
  pose proof (u32_range (mask + 1)) as Hrange.
  rewrite run_iter in H. unfold Finish_iteration at 1 in H.
  destruct (Z.ltb_spec i (u32 (mask + 1))) as [Hlt|Hge].
  - rewrite bind_bind in H. apply run_access in H.
    destruct H as (m & [] & s1 & tr' & -> & _ & H & ->).
    rewrite run_bind_Ret in H.
    destruct m as [|m]; [discriminate|]. rewrite run_Tau in H.
    rewrite (u32_small (i + 1)) in H by lia.
    apply IH in H; [|lia|lia]. subst tr'.
    replace (Z.to_nat (u32 (mask + 1) - i))
      with (S (Z.to_nat (u32 (mask + 1) - (i + 1)))) by lia.
    reflexivity.
  - rewrite run_bind_Ret in H. apply run_Ret_Done in H. destruct H as (_ & _ & ->).
    now replace (Z.to_nat (u32 (mask + 1) - i)) with O by lia.
Qed.

Lemma Finish_Done {St : Type}
    (h : forall A : Type, queueE ValueType Backoff A -> St -> option (St * A))
    (mask : Z) (n : nat) s r s' tr :
  run h n (Finish mask) s = Done r s' tr ->
  tr = Obs FinishStore tt ::
       List.map (fun j => Obs (SlotWake j) tt) (indices 0 (Z.to_nat (u32 (mask + 1)))).
Proof.
  unfold Finish. intros H. apply run_access in H.
  destruct H as (m & [] & s1 & tr' & -> & _ & H & ->).
  apply Finish_loop_Done in H; [|pose proof (u32_range (mask + 1)); lia].
  now rewrite Z.sub_0_r in H; subst tr'.
Qed.

Context (W : WaitType).
Variable moved_from : ValueType -> ValueType.
Variable call_backoff : Backoff -> bool * Backoff.

(** On a queue whose slots are all there, the loop of [Finish] runs to
    its end. *)
Lemma Finish_loop_runs (mask : Z) (k : nat) :
  forall (i : Z) (q : BoundedQueue ValueType),
    0 <= i ->
    i + Z.of_nat k = u32 (mask + 1) ->
    (forall j, i <= j < u32 (mask + 1) -> slot_at q j <> None) ->
    exists q',
      run (handle W moved_from call_backoff) (2 * k + 1)
          (ITree.iter (Finish_iteration mask) i) q
        = Done tt q' (List.map (fun j => Obs (SlotWake j) tt) (indices i k)) /\
      finish_ q' = finish_ q.
Proof.
  pose proof (u32_range (mask + 1)) as Hrange.
  induction k as [|k IH]; intros i q Hi Hk Hslots.
  - exists q. split; [|reflexivity].
    rewrite run_iter. unfold Finish_iteration at 1.
    destruct (Z.ltb_spec i (u32 (mask + 1))); [lia|].
    now rewrite run_bind_Ret.
  - destruct (slot_at q i) as [s|] eqn:Hs; [|now apply Hslots in Hs; [|lia]].
    destruct (IH (i + 1) (with_slot q i (on_wait Wake))) as (q' & Hrun & Hfin);
      [lia | lia | |].
    + intros j Hj. rewrite slot_at_with_slot by lia.
      destruct (j =? i); [|apply Hslots; lia].
      specialize (Hslots j ltac:(lia)).
      destruct (slot_at q j); [discriminate | tauto].
    + exists q'. split; [|exact Hfin].
      rewrite run_iter. unfold Finish_iteration at 1.
      destruct (Z.ltb_spec i (u32 (mask + 1))); [|lia].
      replace (2 * S k + 1)%nat with (S (S (2 * k + 1))) by lia.
      rewrite bind_bind, run_bind_trigger. cbn [handle]. rewrite Hs.
      rewrite run_bind_Ret, run_Tau, (u32_small (i + 1)) by lia.
      now rewrite Hrun.
Qed.

Lemma Finish_runs (N : Z) (q : BoundedQueue ValueType) :
  0 < N < 2 ^ 32 ->
  mask_ q = N - 1 ->
  (forall i, 0 <= i < N -> slot_at q i <> None) ->
  exists q',
    run (handle W moved_from call_backoff) (2 * Z.to_nat N + 2) (Finish (mask_ q)) q
      = Done tt q' (Obs FinishStore tt ::
                    List.map (fun j => Obs (SlotWake j) tt) (indices 0 (Z.to_nat N))) /\
    finish_ q' = true.
Proof.
  intros HN Hmask Hslots.
  assert (Hsize : u32 (mask_ q + 1) = N)
    by (rewrite Hmask; replace (N - 1 + 1) with N by lia; apply u32_small; lia).
  destruct (Finish_loop_runs (mask_ q) (Z.to_nat N) 0
              {| ring_ := ring_ q; mask_ := mask_ q; finish_ := true;
                 head_ := head_ q; tail_ := tail_ q |})
    as (q' & Hrun & Hfin); [lia | rewrite Hsize; lia | |].
  - intros j Hj. rewrite Hsize in Hj. apply (Hslots j Hj).
  - exists q'. split; [|exact Hfin]. unfold Finish.
    replace (2 * Z.to_nat N + 2)%nat with (S (2 * Z.to_nat N + 1)) by lia.
    rewrite run_bind_trigger. cbn [handle]. now rewrite Hrun.
Qed.

(** A raised flag stays raised along any schedule of any threads. *)
Lemma step_keeps_finish (tid : nat) (sys sys' : system ValueType Backoff) :
  step W moved_from call_backoff tid sys = Some sys' ->
  finish_ (shared sys) = true -> finish_ (shared sys') = true.
Proof.
  unfold step. destruct (nth_error (threads sys) tid) as [t|]; [|discriminate].
  destruct (observe t) as [r|t'|X e k].
  - now intros [= <-].
  - now intros [= <-].
  - destruct (handle W moved_from call_backoff X e (shared sys)) as [[q a]|] eqn:He;
      [|discriminate].
    intros [= <-] Hfin. now apply (handle_finish_mask W moved_from call_backoff X e _ _ a He).
Qed.

Lemma steps_keeps_finish (n tid : nat) :
  forall sys sys' : system ValueType Backoff,
    steps W moved_from call_backoff n tid sys = Some sys' ->
    finish_ (shared sys) = true -> finish_ (shared sys') = true.
Proof.
  induction n as [|n IH]; intros sys sys'; cbn [steps].
  - now intros [= <-].
  - destruct (step W moved_from call_backoff tid sys) as [sys1|] eqn:Hstep;
      [|discriminate].
    intros H Hfin. apply (IH sys1 sys' H). now apply (step_keeps_finish tid sys).
Qed.

Lemma schedule_keeps_finish (plan : list (nat * nat)) :
  forall sys sys' : system ValueType Backoff,
    schedule W moved_from call_backoff plan sys = Some sys' ->
    finish_ (shared sys) = true -> finish_ (shared sys') = true.
Proof.
  induction plan as [|[tid n] plan IH]; intros sys sys'; cbn [schedule].
  - now intros [= <-].
  - destruct (steps W moved_from call_backoff n tid sys) as [sys1|] eqn:Hsteps;
      [|discriminate].
    intros H Hfin. apply (IH sys1 sys' H). now apply (steps_keeps_finish n tid sys).
Qed.

(** C9. [Finish] first stores the flag and then calls [Wake] on each of
    the [N] slots, in index order and under any interleaving; run on a
    queue of [N] slots it returns, after which [Finished] answers [true];
    and from then on the flag stays up whatever the threads and their
    schedule. *)
Theorem Finish_raises_flag_and_wakes_all (N : Z) (q : BoundedQueue ValueType) :
  0 < N < 2 ^ 32 ->
  mask_ q = N - 1 ->
  (forall i, 0 <= i < N -> slot_at q i <> None) ->
  (forall (St : Type)
          (h : forall A : Type, queueE ValueType Backoff A -> St -> option (St * A))
          n s r s' tr,
      run h n (Finish (mask_ q)) s = Done r s' tr ->
      tr = Obs FinishStore tt ::
           List.map (fun j => Obs (SlotWake j) tt) (indices 0 (Z.to_nat N))) /\
  exists q',
    run (handle W moved_from call_backoff) (2 * Z.to_nat N + 2) (Finish (mask_ q)) q
      = Done tt q' (Obs FinishStore tt ::
                    List.map (fun j => Obs (SlotWake j) tt) (indices 0 (Z.to_nat N))) /\
    run (handle W moved_from call_backoff) 2 Finished q'
      = Done true q' [Obs FinishLoad true] /\
    forall plan threads history sys',
      schedule W moved_from call_backoff plan
        {| shared := q'; threads := threads; history := history |} = Some sys' ->
      run (handle W moved_from call_backoff) 2 Finished (shared sys')
        = Done true (shared sys') [Obs FinishLoad true].
Proof.
  intros HN Hmask Hslots. split.
  - intros St h n s r s' tr H. apply Finish_Done in H.
    rewrite Hmask in H. replace (N - 1 + 1) with N in H by lia.
    now rewrite u32_small in H by lia.
  - destruct (Finish_runs N q HN Hmask Hslots) as (q' & Hrun & Hfin).
    exists q'. split; [exact Hrun | split].
    + cbn. now rewrite Hfin.
    + intros plan threads history sys' H.
      apply (schedule_keeps_finish plan _ sys') in H; [|exact Hfin].
      cbn. now rewrite H.
Qed.

End FinishFacts.

Lemma Finish_raises_flag_and_wakes_all_witness :
  (forall (St : Type)
          (h : forall A : Type, queueE Z nat A -> St -> option (St * A))
          n s r s' tr,
      run h n (Finish (mask_ two_slots)) s = Done r s' tr ->
      tr = Obs FinishStore tt ::
           List.map (fun j => Obs (SlotWake j) tt) (indices 0 (Z.to_nat 2))) /\
  exists q',
    run default_handle (2 * Z.to_nat 2 + 2) (Finish (mask_ two_slots)) two_slots
      = Done tt q' (Obs FinishStore tt ::
                    List.map (fun j => Obs (SlotWake j) tt) (indices 0 (Z.to_nat 2))) /\
    run default_handle 2 Finished q' = Done true q' [Obs FinishLoad true] /\
    forall plan threads history sys',
      schedule BoundedQueueNoWait (fun x => x) countdown plan
        {| shared := q'; threads := threads; history := history |} = Some sys' ->
      run default_handle 2 Finished (shared sys')
        = Done true (shared sys') [Obs FinishLoad true].
Proof.
  apply (Finish_raises_flag_and_wakes_all BoundedQueueNoWait (fun x => x) countdown
           2 two_slots).
  - lia.
  - reflexivity.
  - intros i Hi. assert (Hcase : i = 0 \/ i = 1) by lia.
    destruct Hcase as [-> | ->]; discriminate.
Defined.

(* ===================================================================== *)
(** ** A dequeue that gives up *)
(* ===================================================================== *)

Section Abandon.

Context {ValueType Backoff : Type}.

Context (W : WaitType).
Variable moved_from : ValueType -> ValueType.
Variable call_backoff : Backoff -> bool * Backoff.

(** C6. A [Dequeue] that returns [false] has, under any interleaving,
    made no access that touches a slot and left the caller's variable
    alone; run on a queue, it leaves the whole ring, so the ticket and the
    value of its slot, as they were. *)
Theorem aborted_Dequeue_touches_no_slot :
  (forall (St : Type)
          (h : forall A : Type, queueE ValueType Backoff A -> St -> option (St * A))
          mask value backoff n s out s' tr,
      run h n (Dequeue mask value backoff) s = Done (false, out) s' tr ->
      out = value /\ Forall (fun o => touches_slot o = false) tr) /\
  (forall mask value backoff n (q : BoundedQueue ValueType) out q' tr,
      run (handle W moved_from call_backoff) n (Dequeue mask value backoff) q
        = Done (false, out) q' tr ->
      ring_ q' = ring_ q /\
      forall i, slot_at q' i = slot_at q i).
Proof.
  assert (Hany : forall (St : Type)
            (h : forall A : Type, queueE ValueType Backoff A -> St -> option (St * A))
            mask value backoff n s out s' tr,
            run h n (Dequeue mask value backoff) s = Done (false, out) s' tr ->
            out = value /\ Forall (fun o => touches_slot o = false) tr).
  { intros St h mask value backoff n s out s' tr H.
    apply Dequeue_Done in H. destruct H as (hd & c0 & w & Hw & -> & Hout).
    split; [now apply Hout|].
    rewrite app_nil_r. constructor; [reflexivity|]. constructor; [reflexivity|].
    apply wait_trace_waits_on in Hw.
    eapply Forall_impl; [|exact Hw]. intros o. apply waits_on_quiet. }
  split; [exact Hany|].
  intros mask value backoff n q out q' tr H.
  assert (Hring : ring_ q' = ring_ q).
  { apply (replay_quiet W moved_from call_backoff tr); [now apply (Hany _ _ _ _ _ _ _ _ _ _ H)|].
    now apply run_replay in H. }
  split; [exact Hring|].
  intros i. unfold slot_at. now rewrite Hring.
Qed.

End Abandon.

(** Reservation 3 after shutdown with [tail_] read as 3, from a script;
    and reservation 0 on [two_slots] with the flag up. *)
Lemma aborted_Dequeue_touches_no_slot_witness :
  (0 = 0 /\
   Forall (fun o : obs (queueE Z nat) => touches_slot o = false)
     [Obs (FetchAdd head_counter memory_order_relaxed) 3;
      Obs (SlotLoad 1) 3; Obs FinishLoad true;
      Obs (CounterLoad tail_counter memory_order_seq_cst) 3]) /\
  (ring_ {| ring_ := ring_ two_slots; mask_ := 1; finish_ := true;
            head_ := 1; tail_ := 0 |}
   = ring_ {| ring_ := ring_ two_slots; mask_ := 1; finish_ := true;
              head_ := 0; tail_ := 0 |} /\
   forall i,
     slot_at {| ring_ := ring_ two_slots; mask_ := 1; finish_ := true;
                head_ := 1; tail_ := 0 |} i
     = slot_at {| ring_ := ring_ two_slots; mask_ := 1; finish_ := true;
                  head_ := 0; tail_ := 0 |} i).
Proof.
  split.
  - apply (proj1 (aborted_Dequeue_touches_no_slot BoundedQueueNoWait (fun x => x) countdown)
             script (scripted 42 countdown) 1 0 None 20%nat
             {| reservation := 3; tickets := [3; 3]; raised := true; reserved_tail := 3 |}
             0
             {| reservation := 3; tickets := [3]; raised := true; reserved_tail := 3 |}).
    vm_compute. reflexivity.
  - apply (proj2 (aborted_Dequeue_touches_no_slot BoundedQueueNoWait (fun x => x) countdown)
             1 0 None 20%nat
             {| ring_ := ring_ two_slots; mask_ := 1; finish_ := true;
                head_ := 0; tail_ := 0 |}
             0
             {| ring_ := ring_ two_slots; mask_ := 1; finish_ := true;
                head_ := 1; tail_ := 0 |}
             [Obs (FetchAdd head_counter memory_order_relaxed) 0;
              Obs (SlotLoad 0) 0; Obs FinishLoad true;
              Obs (CounterLoad tail_counter memory_order_seq_cst) 0]).
    vm_compute. reflexivity.
Defined.

(* ===================================================================== *)
(** ** Shutdown against a producer that has reserved but not published *)
(* ===================================================================== *)

(** A [Dequeue] that returns [false] has, as its last two accesses,
    read the finish flag as raised and read a [tail_] that its
    reservation plus one has reached. *)
Lemma Dequeue_gives_up {ValueType Backoff St : Type}
    (h : forall A : Type, queueE ValueType Backoff A -> St -> option (St * A))
    (mask : Z) (value : ValueType) (backoff : option Backoff)
    (n : nat) (s : St) (out : ValueType) (s' : St) (tr : trace ValueType Backoff) :
  run h n (Dequeue mask value backoff) s = Done (false, out) s' tr ->
  exists hd waits tail,
    tr = Obs (FetchAdd head_counter memory_order_relaxed) hd :: waits ++
         [Obs FinishLoad true;
          Obs (CounterLoad tail_counter memory_order_seq_cst) tail] /\
    tail <= u64 (hd + 1).
Proof.
  intros Hrun. apply Dequeue_Done in Hrun. destruct Hrun as (hd & c0 & w & Hw & -> & _).
  apply wait_trace_gives_up in Hw; [|reflexivity].
  destruct Hw as (_ & w' & tail & -> & Hge).
  exists hd, (Obs (SlotLoad (Z.land hd mask)) c0 :: w'), tail.
  split; [now rewrite app_nil_r | apply Z.geb_le in Hge; lia].
Qed.

(** C1, at a failing input.  The consumer reserves [h = 0], finds slot
    0 unpublished, waits once and is preempted with that stale ticket in
    hand.  The producer enqueues 10 and returns; [Finish] is called and
    returns.  The consumer resumes at the top of its loop: the stale
    ticket does not match, the flag is up, [tail_] is 1, and the test
    [required_ticket >= tail] is made on [h + 1 = 1]: it returns [false]
    although [h < tail_], and the 10 published in slot 0 before [Finish]
    was called will never be handed to anyone ([head_] has moved past
    it). *)
Theorem Dequeue_abandons_published_value :
  option_map (fun sys => (returns sys, shared sys, history sys))
    (default_schedule waiting_consumer_plan waiting_consumer)
  = Some ([Some (ReturnedDequeue false 0); Some ReturnedVoid; Some ReturnedVoid],
          {| ring_ := Some [{| wait := {| ticket_ := 1 |}; value := 10 |};
                            {| wait := {| ticket_ := 1 |}; value := 0 |}];
             mask_ := 1; finish_ := true; head_ := 1; tail_ := 1 |},
          [(0%nat, Obs (FetchAdd head_counter memory_order_relaxed) 0);
           (0%nat, Obs (SlotLoad 0) 0);
           (0%nat, Obs FinishLoad false);
           (0%nat, Obs (SlotWaitAndLoad 0 0) 0);
           (1%nat, Obs (FetchAdd tail_counter memory_order_seq_cst) 0);
           (1%nat, Obs (SlotLoad 0) 0);
           (1%nat, Obs (SlotAssign 0 10) tt);
           (1%nat, Obs (SlotStoreAndWake 0 1) tt);
           (2%nat, Obs FinishStore tt);
           (2%nat, Obs (SlotWake 0) tt);
           (2%nat, Obs (SlotWake 1) tt);
           (0%nat, Obs FinishLoad true);
           (0%nat, Obs (CounterLoad tail_counter memory_order_seq_cst) 1)]).
Proof. vm_compute. reflexivity. Qed.

(** The same with the producer caught between its reservation and its
    publication: the consumer comes after [Finish], reserves [h = 0], reads
    [tail_ = 1] and returns [false]; the producer then publishes 10 into
    the slot the consumer walked away from. *)
Lemma Dequeue_abandons_reserved_slot :
  option_map (fun sys => (returns sys, shared sys, history sys))
    (default_schedule late_producer_plan late_producer)
  = Some ([Some ReturnedVoid; Some (ReturnedDequeue false 0); Some ReturnedVoid],
          {| ring_ := Some [{| wait := {| ticket_ := 1 |}; value := 10 |};
                            {| wait := {| ticket_ := 1 |}; value := 0 |}];
             mask_ := 1; finish_ := true; head_ := 1; tail_ := 1 |},
          [(0%nat, Obs (FetchAdd tail_counter memory_order_seq_cst) 0);
           (2%nat, Obs FinishStore tt);
           (2%nat, Obs (SlotWake 0) tt);
           (2%nat, Obs (SlotWake 1) tt);
           (1%nat, Obs (FetchAdd head_counter memory_order_relaxed) 0);
           (1%nat, Obs (SlotLoad 0) 0);
           (1%nat, Obs FinishLoad true);
           (1%nat, Obs (CounterLoad tail_counter memory_order_seq_cst) 1);
           (0%nat, Obs (SlotLoad 0) 0);
           (0%nat, Obs (SlotAssign 0 10) tt);
           (0%nat, Obs (SlotStoreAndWake 0 1) tt)]).
Proof. vm_compute. reflexivity. Qed.

(** Where the consumers come after the producers, shutdown behaves as
    meant: three values, five consumers, [Finish]; three consumers get 1,
    2, 3 in the order of their reservations and two get [false]. *)
Example finish_after_partial_production :
  option_map (fun sys => (returns sys, head_ (shared sys), tail_ (shared sys)))
    (default_schedule partial_production_plan partial_production)
  = Some ([Some ReturnedVoid; Some ReturnedVoid; Some ReturnedVoid;
           Some (ReturnedDequeue true 1); Some (ReturnedDequeue true 2);
           Some (ReturnedDequeue true 3);
           Some (ReturnedDequeue false 0); Some (ReturnedDequeue false 0);
           Some ReturnedVoid], 5, 3).
Proof. vm_compute. reflexivity. Qed.

(* ===================================================================== *)
(** ** A call that has not returned *)
(* ===================================================================== *)

Section Waiting.

Context {E : Type -> Type} {St : Type}.
Variable h : forall A : Type, E A -> St -> option (St * A).

(** A call that has not returned keeps whatever follows it from
    starting. *)
Lemma run_bind_Timeout {A R : Type} (n : nat) :
  forall (t : itree E A) (k : A -> itree E R) (s : St) tr,
    run h n t s = Timeout tr -> run h n (ITree.bind t k) s = Timeout tr.
Proof.
  induction n as [|n IH]; intros t k s tr Hrun;
    [cbn in *; now injection Hrun as <-|].
  rewrite run_unfold in Hrun. rewrite run_unfold, observe_bind.
  destruct (observe t) as [r|t'|X e k']; cbn.
  - discriminate.
  - now apply IH.
  - destruct (h X e s) as [[s1 a]|]; [|discriminate].
    destruct (run h n (k' a) s1) as [? ? ?|?|tr'] eqn:Hk; try discriminate.
    injection Hrun as <-. now rewrite (IH _ k _ _ Hk).
Qed.

End Waiting.

(* ===================================================================== *)
(** ** More arithmetic of tickets and masks *)
(* ===================================================================== *)

Lemma land_u64_mask (N t : Z) :
  power_of_two N -> N < 2 ^ 32 -> Z.land (u64 t) (N - 1) = t mod N.
Proof.
  intros Hp Hlt. rewrite land_mask_mod by assumption.
  unfold u64. apply Z.mod_mod_divide.
  destruct (power_of_two_divides N Hp Hlt) as [c Hc].
  exists (2 ^ 32 * c). rewrite <- Z.mul_assoc, <- Hc. reflexivity.
Qed.

Lemma mod_apart (N a b : Z) : 0 < b - a < N -> a mod N <> b mod N.
Proof.
  intros Hd Heq.
  assert (Hz : (b - a) mod N = 0).
  { rewrite Zminus_mod, Heq, Z.sub_diag. apply Z.mod_0_l. lia. }
  rewrite Z.mod_small in Hz; lia.
Qed.

Lemma u32_apart (a b : Z) : 0 < b - a < 2 ^ 32 -> u32 a <> u32 b.
Proof. unfold u32. apply mod_apart. Qed.

Lemma land_disjoint (a b : Z) : Z.land (Z.ldiff b a) (Z.land b a) = 0.
Proof.
  apply Z.bits_inj'. intros n Hn.
  rewrite !Z.land_spec, Z.ldiff_spec, Z.bits_0.
  destruct (Z.testbit b n), (Z.testbit a n); reflexivity.
Qed.

(** An index masked with [mask_] lies in the ring. *)
Lemma land_mask_range (t mask : Z) : 0 <= mask -> 0 <= Z.land t mask <= mask.
Proof.
  intros Hm. split; [apply Z.land_nonneg; now right|].
  assert (H : mask = Z.ldiff mask t + Z.land mask t).
  { rewrite Z.add_nocarry_lxor by apply land_disjoint.
    rewrite Z.lxor_lor by apply land_disjoint.
    symmetry. apply Z.lor_ldiff_and. }
  assert (0 <= Z.ldiff mask t) by (apply Z.ldiff_nonneg; now left).
  rewrite (Z.land_comm t mask). lia.
Qed.

Lemma Forall_update {A : Type} (P : A -> Prop) (f : A -> A) (l : list A) :
  forall n, Forall P l -> (forall x, P x -> P (f x)) -> Forall P (update l n f).
Proof.
  induction l as [|x l IH]; intros [|n] Hl Hf; cbn [update]; try exact Hl;
    inversion Hl; subst; constructor; auto.
Qed.

(* ===================================================================== *)
(** ** A ring that holds values *)
(* ===================================================================== *)

Section Held.

Context {ValueType Backoff : Type}.
Variable moved_from : ValueType -> ValueType.
Variable call_backoff : Backoff -> bool * Backoff.

(** A producer whose slot already shows the ticket of its reservation
    goes through at once, whether or not it was given a backoff. *)
Lemma Enqueue_through (mask : Z) (x : ValueType) (backoff : option Backoff)
    (q : BoundedQueue ValueType) (sl : Slot ValueType) :
  slot_at q (Z.land (tail_ q) mask) = Some sl ->
  Load (wait sl) = u32 (tail_ q) ->
  exists q1,
    run (handle BoundedQueueNoWait moved_from call_backoff) 5
        (Enqueue mask x backoff) q
      = Done tt q1
          [Obs (FetchAdd tail_counter memory_order_seq_cst) (tail_ q);
           Obs (SlotLoad (Z.land (tail_ q) mask)) (u32 (tail_ q));
           Obs (SlotAssign (Z.land (tail_ q) mask) x) tt;
           Obs (SlotStoreAndWake (Z.land (tail_ q) mask) (u32 (tail_ q + 1))) tt] /\
    slot_at q1 (Z.land (tail_ q) mask)
      = Some {| wait := {| ticket_ := u32 (tail_ q + 1) |}; value := x |} /\
    (forall j, j <> Z.land (tail_ q) mask -> slot_at q1 j = slot_at q j) /\
    head_ q1 = head_ q /\ tail_ q1 = u64 (tail_ q + 1) /\
    mask_ q1 = mask_ q /\ finish_ q1 = finish_ q.
Proof.
  intros Hslot Hticket.
  destruct backoff as [b|]; [|now apply (Enqueue_ready moved_from call_backoff mask x q sl)].
  pose proof (slot_at_nonneg q _ sl Hslot) as Hnonneg.
  set (slot := Z.land (tail_ q) mask) in *.
  set (q0 := {| ring_ := ring_ q; mask_ := mask_ q; finish_ := finish_ q;
                head_ := head_ q; tail_ := u64 (tail_ q + 1) |}).
  exists (with_slot (with_slot q0 slot (on_value (fun _ => x))) slot
            (on_wait (Store (u32 (tail_ q + 1))))).
  assert (Hslot0 : slot_at q0 slot = Some sl) by exact Hslot.
  split; [|split; [|split]].
  - unfold Enqueue. rewrite run_bind_trigger. cbn [handle]. cbv zeta.
    fold slot. fold q0. unfold WaitTail_backoff.
    rewrite bind_bind, run_bind_trigger. cbn [handle]. rewrite Hslot0, Hticket.
    rewrite unfold_iter. unfold WaitTail_backoff_iteration at 1. cbn [current].
    rewrite Z.eqb_refl.
    rewrite !bind_ret_l, run_bind_trigger. cbn [handle]. rewrite Hslot0.
    unfold WakeHead. rewrite run_trigger. cbn [handle].
    rewrite slot_at_with_slot, Z.eqb_refl, Hslot0 by assumption.
    cbn [option_map prepend StoreAndWake BoundedQueueNoWait]. now rewrite u32_u64.
  - rewrite !slot_at_with_slot, Z.eqb_refl, Hslot0 by assumption. reflexivity.
  - intros j Hj. rewrite !slot_at_with_slot by assumption.
    destruct (Z.eqb_spec j slot); [contradiction | reflexivity].
  - repeat split.
Qed.

Lemma Dequeue_through (mask : Z) (v : ValueType) (backoff : option Backoff)
    (q : BoundedQueue ValueType) (sl : Slot ValueType) :
  slot_at q (Z.land (head_ q) mask) = Some sl ->
  Load (wait sl) = u32 (head_ q + 1) ->
  exists q1,
    run (handle BoundedQueueNoWait moved_from call_backoff) 5
        (Dequeue mask v backoff) q
      = Done (true, value sl) q1
          [Obs (FetchAdd head_counter memory_order_relaxed) (head_ q);
           Obs (SlotLoad (Z.land (head_ q) mask)) (u32 (head_ q + 1));
           Obs (SlotMove (Z.land (head_ q) mask)) (value sl);
           Obs (SlotStoreAndWake (Z.land (head_ q) mask)
                  (u32 (head_ q + (mask + 1)))) tt] /\
    slot_at q1 (Z.land (head_ q) mask)
      = Some {| wait := {| ticket_ := u32 (head_ q + (mask + 1)) |};
                value := moved_from (value sl) |} /\
    (forall j, j <> Z.land (head_ q) mask -> slot_at q1 j = slot_at q j) /\
    head_ q1 = u64 (head_ q + 1) /\ tail_ q1 = tail_ q /\
    mask_ q1 = mask_ q /\ finish_ q1 = finish_ q.
Proof.
  intros Hslot Hticket.
  destruct backoff as [b|]; [|now apply (Dequeue_ready moved_from call_backoff mask v q sl)].
  pose proof (slot_at_nonneg q _ sl Hslot) as Hnonneg.
  set (slot := Z.land (head_ q) mask) in *.
  set (q0 := {| ring_ := ring_ q; mask_ := mask_ q; finish_ := finish_ q;
                head_ := u64 (head_ q + 1); tail_ := tail_ q |}).
  exists (with_slot (with_slot q0 slot (on_value moved_from)) slot
            (on_wait (Store (u32 (head_ q + (mask + 1)))))).
  assert (Hslot0 : slot_at q0 slot = Some sl) by exact Hslot.
  split; [|split; [|split]].
  - unfold Dequeue. rewrite run_bind_trigger. cbn [handle]. cbv zeta.
    fold slot. fold q0. unfold WaitHead_backoff.
    rewrite bind_bind, run_bind_trigger. cbn [handle]. rewrite Hslot0, Hticket.
    rewrite unfold_iter. unfold WaitHead_backoff_iteration at 1. cbn [current].
    rewrite u32_u64, Z.eqb_refl.
    rewrite !bind_ret_l. cbn [negb]. rewrite run_bind_trigger. cbn [handle].
    rewrite Hslot0. unfold WakeTail.
    rewrite run_bind_trigger. cbn [handle].
    rewrite slot_at_with_slot, Z.eqb_refl, Hslot0 by assumption.
    cbn [option_map prepend StoreAndWake BoundedQueueNoWait].
    now rewrite run_Ret, u32_wake_tail.
  - rewrite !slot_at_with_slot, Z.eqb_refl, Hslot0 by assumption. reflexivity.
  - intros j Hj. rewrite !slot_at_with_slot by assumption.
    destruct (Z.eqb_spec j slot); [contradiction | reflexivity].
  - repeat split.
Qed.

(** A ready ring holds nothing, and the other way round. *)
Lemma ready_holding (N r : Z) (q : BoundedQueue ValueType) :
  0 < N -> 0 <= r < 2 ^ 64 ->
  ready_at N r q <-> holding N r [] q.
Proof.
  intros HN Hr. unfold ready_at, holding. cbn [length Z.of_nat].
  rewrite Z.add_0_r, (u64_small r) by assumption. split.
  - intros (Hmask & Hhead & Htail & Hslots).
    split; [lia|]. split; [exact Hmask|]. split; [exact Hhead|].
    split; [exact Htail|]. split.
    + intros [|i] x Hx; discriminate.
    + intros t Ht.
      destruct (Hslots (t mod N) (Z.mod_pos_bound t N HN)) as (sl & Hslot & Hticket).
      exists sl. split; [exact Hslot|]. rewrite Hticket. f_equal.
      rewrite Zminus_mod_idemp_l. rewrite Z.mod_small; lia.
  - intros (_ & Hmask & Hhead & Htail & _ & Hfree).
    split; [exact Hmask|]. split; [exact Hhead|]. split; [exact Htail|].
    intros j Hj.
    pose proof (Z.mod_pos_bound (j - r) N HN) as Hb.
    destruct (Hfree (r + (j - r) mod N)) as (sl & Hslot & Hticket); [lia|].
    exists sl. split; [|exact Hticket].
    rewrite <- Hslot. f_equal.
    rewrite Zplus_mod_idemp_r. replace (r + (j - r)) with j by lia.
    symmetry. apply Z.mod_small. exact Hj.
Qed.

(** [Enqueue] on a ring with room: the value goes behind the others. *)
Lemma holding_Enqueue (N r : Z) (xs : list ValueType) (x : ValueType)
    (backoff : option Backoff) (q : BoundedQueue ValueType) :
  power_of_two N -> N < 2 ^ 32 ->
  holding N r xs q ->
  Z.of_nat (length xs) < N ->
  exists q1 tr,
    run (handle BoundedQueueNoWait moved_from call_backoff) 5
        (Enqueue (N - 1) x backoff) q = Done tt q1 tr /\
    length tr = 4%nat /\
    holding N r (xs ++ [x]) q1 /\
    finish_ q1 = finish_ q.
Proof.
  intros Hp Hlt (Hlen & Hmask & Hhead & Htail & Hheld & Hfree) Hroom.
  pose proof (power_of_two_pos N Hp) as HN.
  set (k := Z.of_nat (length xs)) in *.
  assert (Hidx : Z.land (tail_ q) (N - 1) = (r + k) mod N)
    by (rewrite Htail; now apply land_u64_mask).
  destruct (Hfree (r + k)) as (sl & Hslot & Hticket); [lia|].
  rewrite <- Hidx in Hslot.
  assert (Hticket' : Load (wait sl) = u32 (tail_ q))
    by (now rewrite Htail, u32_u64).
  destruct (Enqueue_through (N - 1) x backoff q sl
              Hslot Hticket')
    as (q1 & Hrun & Hslot1 & Hothers & Hhead1 & Htail1 & Hmask1 & Hfinish1).
  exists q1. eexists. split; [exact Hrun|]. split; [reflexivity|].
  split; [|exact Hfinish1].
  rewrite Hidx in Hslot1, Hothers.
  unfold holding. rewrite length_app. cbn [length].
  replace (Z.of_nat (length xs + 1)) with (k + 1) by (unfold k; lia).
  split; [lia|]. split; [congruence|]. split; [congruence|]. split.
  { rewrite Htail1, Htail, u64_add_l. f_equal. lia. }
  split.
  - intros i y Hy.
    destruct (Nat.lt_ge_cases i (length xs)) as [Hi|Hi].
    + rewrite nth_error_app1 in Hy by exact Hi.
      rewrite Hothers; [now apply Hheld|].
      apply mod_apart. unfold k. lia.
    + rewrite nth_error_app2 in Hy by exact Hi.
      destruct (i - length xs)%nat as [|d] eqn:Hd; cbn in Hy.
      * injection Hy as <-.
        replace (Z.of_nat i) with k by (unfold k; lia).
        rewrite Hslot1. do 3 f_equal.
        rewrite Htail, u32_u64_add. f_equal.
      * destruct d; discriminate.
  - intros t Ht. rewrite Hothers; [apply Hfree; lia|].
    apply not_eq_sym, mod_apart. lia.
Qed.

(** [Dequeue] on a ring that holds a value: the oldest comes out. *)
Lemma holding_Dequeue (N r : Z) (x : ValueType) (xs : list ValueType)
    (v : ValueType) (backoff : option Backoff) (q : BoundedQueue ValueType) :
  power_of_two N -> N < 2 ^ 32 ->
  holding N r (x :: xs) q ->
  exists q1 tr,
    run (handle BoundedQueueNoWait moved_from call_backoff) 5
        (Dequeue (N - 1) v backoff) q = Done (true, x) q1 tr /\
    length tr = 4%nat /\
    holding N (r + 1) xs q1 /\
    finish_ q1 = finish_ q.
Proof.
  intros Hp Hlt (Hlen & Hmask & Hhead & Htail & Hheld & Hfree).
  pose proof (power_of_two_pos N Hp) as HN.
  cbn [length] in Hlen, Htail, Hfree.
  set (k := Z.of_nat (length xs)) in *.
  assert (Hidx : Z.land (head_ q) (N - 1) = r mod N)
    by (rewrite Hhead; now apply land_u64_mask).
  pose proof (Hheld 0%nat x eq_refl) as Hslot.
  cbn [Z.of_nat] in Hslot. rewrite Z.add_0_r in Hslot.
  rewrite <- Hidx in Hslot.
  destruct (Dequeue_through (N - 1) v backoff q _ Hslot)
    as (q1 & Hrun & Hslot1 & Hothers & Hhead1 & Htail1 & Hmask1 & Hfinish1).
  { cbn [wait Load ticket_]. rewrite Hhead. now rewrite u32_u64_add. }
  cbn [value] in Hrun, Hslot1.
  exists q1. eexists. split; [exact Hrun|]. split; [reflexivity|].
  split; [|exact Hfinish1].
  rewrite Hidx in Hslot1, Hothers.
  unfold holding. fold k.
  split; [lia|]. split; [congruence|]. split.
  { rewrite Hhead1, Hhead, u64_add_l. reflexivity. }
  split.
  { rewrite Htail1, Htail. f_equal. lia. }
  split.
  - intros i y Hy.
    rewrite Hothers.
    + replace (r + 1 + Z.of_nat i) with (r + Z.of_nat (S i)) by lia.
      now apply Hheld.
    + apply not_eq_sym, mod_apart.
      assert (Z.of_nat i < k).
      { unfold k. apply Nat2Z.inj_lt. apply nth_error_Some. congruence. }
      lia.
  - intros t Ht.
    destruct (Z.eq_dec t (r + N)) as [->|Hne].
    + replace ((r + N) mod N) with (r mod N).
      * rewrite Hslot1. eexists. split; [reflexivity|].
        cbn [wait Load ticket_]. rewrite Hhead, u32_u64_add. f_equal. lia.
      * rewrite <- (Z.mod_add r 1 N) by lia. f_equal. lia.
    + rewrite Hothers; [apply Hfree; lia|].
      apply not_eq_sym, mod_apart. lia.
Qed.

(** Every slot of a ring that holds values is there. *)
Lemma holding_slots (N r : Z) (xs : list ValueType) (q : BoundedQueue ValueType) :
  0 < N -> holding N r xs q ->
  forall j, 0 <= j < N -> slot_at q j <> None.
Proof.
  intros HN (Hlen & Hmask & Hhead & Htail & Hheld & Hfree) j Hj.
  pose proof (Z.mod_pos_bound (j - r) N HN) as Hb.
  assert (Hj' : (r + (j - r) mod N) mod N = j).
  { rewrite Zplus_mod_idemp_r. replace (r + (j - r)) with j by lia.
    now apply Z.mod_small. }
  destruct (Z_lt_ge_dec ((j - r) mod N) (Z.of_nat (length xs))) as [Hlt|Hge].
  - destruct (nth_error xs (Z.to_nat ((j - r) mod N))) as [x|] eqn:Hx.
    + pose proof (Hheld _ _ Hx) as Hslot.
      rewrite Z2Nat.id, Hj' in Hslot by lia. congruence.
    + apply nth_error_None in Hx. lia.
  - destruct (Hfree (r + (j - r) mod N)) as (sl & Hslot & _); [lia|].
    rewrite Hj' in Hslot. congruence.
Qed.

(** What a ring holds depends on its slots, its mask and its counters
    only. *)
Lemma holding_ext (N r : Z) (xs : list ValueType) (q q' : BoundedQueue ValueType) :
  (forall j, slot_at q' j = slot_at q j) ->
  mask_ q' = mask_ q -> head_ q' = head_ q -> tail_ q' = tail_ q ->
  holding N r xs q -> holding N r xs q'.
Proof.
  intros Hslots Hmask Hhead Htail (Hlen & Hm & Hh & Ht & Hheld & Hfree).
  split; [exact Hlen|]. split; [congruence|]. split; [congruence|].
  split; [congruence|]. split.
  - intros i x Hx. rewrite Hslots. now apply Hheld.
  - intros t Ht'. rewrite Hslots. now apply Hfree.
Qed.

Lemma perform_fifo (N : Z) (backoff : option Backoff) (ops : list (operation ValueType)) :
  power_of_two N -> N < 2 ^ 32 ->
  forall (r : Z) (xs : list ValueType) (q : BoundedQueue ValueType) (v : ValueType)
         (outs rest : list ValueType),
    holding N r xs q ->
    fifo N ops xs = Some (outs, rest) ->
    exists q' tr,
      run (handle BoundedQueueNoWait moved_from call_backoff)
          (6 * length ops + 1) (perform (N - 1) backoff ops v) q
        = Done (List.map (fun x => (true, x)) outs) q' tr /\
      length tr = (4 * length ops)%nat /\
      holding N (r + Z.of_nat (length outs)) rest q' /\
      finish_ q' = finish_ q.
Proof.
  intros Hp Hlt. induction ops as [|[x|] ops IH];
    intros r xs q v outs rest Hheld Hfifo; cbn [fifo] in Hfifo.
  - injection Hfifo as <- <-. exists q, [].
    split; [reflexivity|]. split; [reflexivity|].
    cbn [length Z.of_nat]. now rewrite Z.add_0_r.
  - destruct (Z.ltb_spec (Z.of_nat (length xs)) N) as [Hroom|]; [|discriminate].
    destruct (holding_Enqueue N r xs x backoff q
                Hp Hlt Hheld Hroom)
      as (q1 & tr1 & Hrun1 & Hlen1 & Hheld1 & Hfinish1).
    destruct (IH r _ q1 v outs rest Hheld1 Hfifo)
      as (q' & tr & Hrun & Hlen & Hheld' & Hfinish').
    exists q', (tr1 ++ tr). split; [|split; [|split]].
    + apply (run_mono _ (5 + (6 * length ops + 1))); [|cbn [length]; lia].
      cbn [perform]. eapply run_bind_compose; [exact Hrun1 | exact Hrun].
    + rewrite length_app, Hlen1, Hlen. cbn [length]. lia.
    + exact Hheld'.
    + congruence.
  - destruct xs as [|y xs]; [discriminate|].
    destruct (fifo N ops xs) as [[outs' rest']|] eqn:Hrec; [|discriminate].
    injection Hfifo as <- <-.
    destruct (holding_Dequeue N r y xs v backoff q
                Hp Hlt Hheld)
      as (q1 & tr1 & Hrun1 & Hlen1 & Hheld1 & Hfinish1).
    destruct (IH (r + 1) xs q1 y outs' rest' Hheld1 Hrec)
      as (q' & tr & Hrun & Hlen & Hheld' & Hfinish').
    exists q', (tr1 ++ tr ++ []). split; [|split; [|split]].
    + apply (run_mono _ (5 + ((6 * length ops + 1) + 1))); [|cbn [length]; lia].
      cbn [perform List.map].
      eapply run_bind_compose; [exact Hrun1|]. cbn [snd].
      eapply run_bind_compose; [exact Hrun | reflexivity].
    + rewrite !length_app, Hlen1, Hlen. cbn [length]. lia.
    + replace (r + Z.of_nat (length (y :: outs')))
        with (r + 1 + Z.of_nat (length outs')) by (cbn [length]; lia).
      exact Hheld'.
    + congruence.
Qed.

(** X1. One thread making any sequence of [Enqueue] and [Dequeue] calls
    on a queue of valid capacity [N], with or without a backoff, gets
    what a first-in first-out list of at most [N] values gives, as long
    as no [Enqueue] finds [N] values and no [Dequeue] finds none: every
    [Dequeue] returns [true] with the oldest value, no call waits (four
    accesses each), and the ring then holds exactly the values left.
    This is so at any reservation [r], so across every wrap of the
    tickets and the counters. *)
Theorem calls_in_sequence_are_fifo (N r : Z) (backoff : option Backoff)
    (ops : list (operation ValueType)) (xs : list ValueType)
    (q : BoundedQueue ValueType) (v : ValueType) (outs rest : list ValueType) :
  power_of_two N -> N < 2 ^ 32 ->
  holding N r xs q ->
  fifo N ops xs = Some (outs, rest) ->
  exists q' tr,
    run (handle BoundedQueueNoWait moved_from call_backoff)
        (6 * length ops + 1) (perform (N - 1) backoff ops v) q
      = Done (List.map (fun x => (true, x)) outs) q' tr /\
    length tr = (4 * length ops)%nat /\
    holding N (r + Z.of_nat (length outs)) rest q'.
Proof.
  intros Hp Hlt Hheld Hfifo.
  destruct (perform_fifo N backoff ops Hp Hlt r xs q v
              outs rest Hheld Hfifo) as (q' & tr & Hrun & Hlen & Hheld' & _).
  now exists q', tr.
Qed.

End Held.

Lemma calls_in_sequence_are_fifo_witness :
  exists q' tr,
    run default_handle (6 * length [Push 1; Push 2; Pop; Push 3; Pop; Pop] + 1)
        (perform (2 - 1) (Some 3%nat) [Push 1; Push 2; Pop; Push 3; Pop; Pop] 0)
        about_to_wrap
      = Done (List.map (fun x => (true, x)) [1; 2; 3]) q' tr /\
    length tr = (4 * length [Push 1; Push 2; Pop; Push 3; Pop; Pop])%nat /\
    holding 2 (4294967295 + Z.of_nat (length [1; 2; 3])) [] q'.
Proof.
  apply (calls_in_sequence_are_fifo (fun x => x) countdown 2 4294967295
           (Some 3%nat) [Push 1; Push 2; Pop; Push 3; Pop; Pop] [] about_to_wrap 0
           [1; 2; 3] []).
  - exists 1. split; [lia | reflexivity].
  - lia.
  - split; [simpl; lia|]. split; [reflexivity|]. split; [reflexivity|].
    split; [reflexivity|]. split.
    + intros [|i] x Hx; discriminate Hx.
    + intros t Ht. simpl in Ht.
      assert (Hcases : t = 4294967295 \/ t = 4294967296) by lia.
      destruct Hcases as [->| ->]; eexists; split; reflexivity.
  - reflexivity.
Defined.

(* ===================================================================== *)
(** ** Waiting for a ticket that does not come *)
(* ===================================================================== *)

Section Stuck.

Context {ValueType Backoff : Type}.
Variable moved_from : ValueType -> ValueType.
Variable call_backoff : Backoff -> bool * Backoff.

(** One turn of each wait loop on a slot whose ticket is not the
    required one. *)
Lemma WaitTail_turn (slot required_ticket cur : Z) (q : BoundedQueue ValueType)
    (sl : Slot ValueType) (n : nat) :
  slot_at q slot = Some sl ->
  cur <> u32 required_ticket ->
  run (handle BoundedQueueNoWait moved_from call_backoff) (S n)
      (ITree.iter (WaitTail_iteration (ValueType := ValueType) (Backoff := Backoff)
                     slot required_ticket) cur) q
  = prepend (Obs (SlotWaitAndLoad slot cur) (Load (wait sl)))
      (run (handle BoundedQueueNoWait moved_from call_backoff) n
           (Tau (ITree.iter (WaitTail_iteration slot required_ticket)
                   (Load (wait sl)))) q).
Proof.
  intros Hslot Hne.
  rewrite run_iter. unfold WaitTail_iteration at 1.
  destruct (Z.eqb_spec cur (u32 required_ticket)); [contradiction|].
  rewrite bind_bind, run_bind_trigger. cbn [handle]. rewrite Hslot.
  cbn [WaitAndLoad BoundedQueueNoWait].
  now rewrite !bind_ret_l.
Qed.

Lemma wait_or_backoff_turn {R : Type} (slot : Z) (l : wait_locals Backoff)
    (k : wait_locals Backoff + R -> itree (queueE ValueType Backoff) R)
    (q : BoundedQueue ValueType) (sl : Slot ValueType) (n : nat) :
  slot_at q slot = Some sl ->
  run (handle BoundedQueueNoWait moved_from call_backoff) (S n)
      (ITree.bind (wait_or_backoff slot l) k) q
  = if waiting l then
      prepend (Obs (SlotWaitAndLoad slot (current l)) (Load (wait sl)))
        (run (handle BoundedQueueNoWait moved_from call_backoff) n
             (k (inl {| waiting := true; current := Load (wait sl);
                        callable := callable l |})) q)
    else
      prepend (Obs (CallBackoff (callable l)) (call_backoff (callable l)))
        match n with
        | O => Timeout []
        | S m =>
            prepend (Obs (SlotLoad slot) (Load (wait sl)))
              (run (handle BoundedQueueNoWait moved_from call_backoff) m
                   (k (inl {| waiting := fst (call_backoff (callable l));
                              current := Load (wait sl);
                              callable := snd (call_backoff (callable l)) |})) q)
        end.
Proof.
  intros Hslot. unfold wait_or_backoff. destruct (waiting l) eqn:Hw.
  - rewrite bind_bind, run_bind_trigger. cbn [handle]. rewrite Hslot.
    cbn [WaitAndLoad BoundedQueueNoWait]. now rewrite !bind_ret_l.
  - rewrite bind_bind, run_bind_trigger. cbn [handle].
    destruct n as [|m]; [reflexivity|].
    rewrite bind_bind, run_bind_trigger. cbn [handle]. rewrite Hslot.
    now rewrite !bind_ret_l.
Qed.

Lemma WaitTail_loop_stuck (slot required_ticket : Z) (q : BoundedQueue ValueType)
    (sl : Slot ValueType) :
  slot_at q slot = Some sl ->
  Load (wait sl) <> u32 required_ticket ->
  forall n : nat,
  exists tr,
    run (handle BoundedQueueNoWait moved_from call_backoff) n
        (ITree.iter (WaitTail_iteration (ValueType := ValueType) (Backoff := Backoff)
                       slot required_ticket) (Load (wait sl))) q
      = Timeout tr /\
    Forall (fun o => touches_slot o = false) tr.
Proof.
  intros Hslot Hne n. induction n as [n IH] using lt_wf_ind.
  destruct n as [|n]; [now exists []|].
  rewrite (WaitTail_turn _ _ _ _ sl) by assumption.
  destruct n as [|n]; [eexists; split; [reflexivity|]; repeat constructor|].
  rewrite run_Tau.
  destruct (IH n) as (tr & Hrun & Hquiet); [lia|].
  rewrite Hrun. eexists. split; [reflexivity|]. now constructor.
Qed.

Lemma WaitTail_backoff_loop_stuck (slot required_ticket : Z)
    (q : BoundedQueue ValueType) (sl : Slot ValueType) :
  slot_at q slot = Some sl ->
  Load (wait sl) <> u32 required_ticket ->
  forall (n : nat) (l : wait_locals Backoff),
    current l = Load (wait sl) ->
    exists tr,
      run (handle BoundedQueueNoWait moved_from call_backoff) n
          (ITree.iter (WaitTail_backoff_iteration (ValueType := ValueType)
                         slot required_ticket) l) q
        = Timeout tr /\
      Forall (fun o => touches_slot o = false) tr.
Proof.
  intros Hslot Hne n. induction n as [n IH] using lt_wf_ind. intros l Hl.
  destruct n as [|n]; [now exists []|].
  rewrite run_iter. unfold WaitTail_backoff_iteration at 1. rewrite Hl.
  destruct (Z.eqb_spec (Load (wait sl)) (u32 required_ticket)); [contradiction|].
  rewrite (wait_or_backoff_turn _ _ _ _ sl) by assumption.
  destruct (waiting l).
  - destruct n as [|n]; [eexists; split; [reflexivity|]; repeat constructor|].
    rewrite run_Tau.
    destruct (IH n ltac:(lia) {| waiting := true; current := Load (wait sl);
                                 callable := callable l |} eq_refl)
      as (tr & Hrun & Hquiet).
    rewrite Hrun. eexists. split; [reflexivity|]. now constructor.
  - destruct n as [|n]; [eexists; split; [reflexivity|]; repeat constructor|].
    destruct n as [|n]; [eexists; split; [reflexivity|]; repeat constructor|].
    rewrite run_Tau.
    destruct (IH n ltac:(lia) {| waiting := fst (call_backoff (callable l));
                                 current := Load (wait sl);
                                 callable := snd (call_backoff (callable l)) |}
                eq_refl)
      as (tr & Hrun & Hquiet).
    rewrite Hrun. eexists. split; [reflexivity|]. now repeat constructor.
Qed.

(** A producer whose slot shows another ticket than the one of its
    reservation never returns while the slot stays as it is, and stores
    nothing. *)
Lemma Enqueue_stuck (mask : Z) (x : ValueType) (backoff : option Backoff)
    (q : BoundedQueue ValueType) (sl : Slot ValueType) :
  slot_at q (Z.land (tail_ q) mask) = Some sl ->
  Load (wait sl) <> u32 (tail_ q) ->
  forall n : nat,
  exists tr,
    run (handle BoundedQueueNoWait moved_from call_backoff) n
        (Enqueue mask x backoff) q = Timeout tr /\
    Forall (fun o => touches_slot o = false) tr.
Proof.
  intros Hslot Hne n.
  destruct n as [|n]; [now exists []|].
  unfold Enqueue. rewrite run_bind_trigger. cbn [handle]. cbv zeta.
  set (slot := Z.land (tail_ q) mask) in *.
  set (q0 := {| ring_ := ring_ q; mask_ := mask_ q; finish_ := finish_ q;
                head_ := head_ q; tail_ := u64 (tail_ q + 1) |}).
  assert (Hslot0 : slot_at q0 slot = Some sl) by exact Hslot.
  assert (Hwait : exists tr,
             run (handle BoundedQueueNoWait moved_from call_backoff) n
                 (match backoff with
                  | None => WaitTail slot (tail_ q)
                  | Some b => WaitTail_backoff slot (tail_ q) b
                  end) q0 = Timeout tr /\
             Forall (fun o => touches_slot o = false) tr).
  { destruct n as [|n]; [now exists []|].
    destruct backoff as [b|].
    - unfold WaitTail_backoff. rewrite run_bind_trigger. cbn [handle].
      rewrite Hslot0.
      destruct (WaitTail_backoff_loop_stuck slot (tail_ q) q0 sl Hslot0 Hne n
                  {| waiting := false; current := Load (wait sl); callable := b |}
                  eq_refl) as (tr & Hrun & Hquiet).
      rewrite Hrun. eexists. split; [reflexivity|]. now constructor.
    - unfold WaitTail. rewrite run_bind_trigger. cbn [handle].
      rewrite Hslot0.
      destruct (WaitTail_loop_stuck slot (tail_ q) q0 sl Hslot0 Hne n)
        as (tr & Hrun & Hquiet).
      rewrite Hrun. eexists. split; [reflexivity|]. now constructor. }
  destruct Hwait as (tr & Hrun & Hquiet).
  rewrite (run_bind_Timeout _ _ _ _ _ _ Hrun).
  eexists. split; [reflexivity|]. now constructor.
Qed.

(** The shutdown test on a queue that is not finished, or whose
    [tail_] is beyond the required ticket: the consumer goes on. *)
Lemma unless_finished_turn {I R : Type} (required_ticket : Z)
    (otherwise : itree (queueE ValueType Backoff) (I + bool))
    (k : I + bool -> itree (queueE ValueType Backoff) R)
    (q : BoundedQueue ValueType) (n : nat) :
  finish_ q = false \/ (required_ticket >=? tail_ q) = false ->
  run (handle BoundedQueueNoWait moved_from call_backoff) (S n)
      (ITree.bind (unless_finished required_ticket otherwise) k) q
  = prepend (Obs FinishLoad (finish_ q))
      (if finish_ q then
         match n with
         | O => Timeout []
         | S m =>
             prepend (Obs (CounterLoad tail_counter memory_order_seq_cst) (tail_ q))
               (run (handle BoundedQueueNoWait moved_from call_backoff) m
                    (ITree.bind otherwise k) q)
         end
       else
         run (handle BoundedQueueNoWait moved_from call_backoff) n
             (ITree.bind otherwise k) q).
Proof.
  intros Hgo. unfold unless_finished, Finished.
  rewrite bind_bind, run_bind_trigger. cbn [handle].
  destruct (finish_ q).
  - destruct Hgo as [|Hgo]; [discriminate|].
    destruct n as [|m]; [reflexivity|].
    rewrite bind_bind, run_bind_trigger. cbn [handle]. now rewrite Hgo.
  - reflexivity.
Qed.

Lemma wait_and_load_turn {B R : Type} (slot cur : Z)
    (k : Z + B -> itree (queueE ValueType Backoff) R)
    (q : BoundedQueue ValueType) (sl : Slot ValueType) (n : nat) :
  slot_at q slot = Some sl ->
  run (handle BoundedQueueNoWait moved_from call_backoff) (S n)
      (ITree.bind
         (current_ticket <- ITree.trigger (SlotWaitAndLoad slot cur);;
          Ret (inl current_ticket)) k) q
  = prepend (Obs (SlotWaitAndLoad slot cur) (Load (wait sl)))
      (run (handle BoundedQueueNoWait moved_from call_backoff) n
           (k (inl (Load (wait sl)))) q).
Proof.
  intros Hslot.
  rewrite bind_bind, run_bind_trigger. cbn [handle]. rewrite Hslot.
  cbn [WaitAndLoad BoundedQueueNoWait]. now rewrite !bind_ret_l.
Qed.

Lemma WaitHead_loop_stuck (slot required_ticket : Z) (q : BoundedQueue ValueType)
    (sl : Slot ValueType) :
  slot_at q slot = Some sl ->
  Load (wait sl) <> u32 required_ticket ->
  finish_ q = false \/ (required_ticket >=? tail_ q) = false ->
  forall n : nat,
  exists tr,
    run (handle BoundedQueueNoWait moved_from call_backoff) n
        (ITree.iter (WaitHead_iteration (ValueType := ValueType) (Backoff := Backoff)
                       slot required_ticket) (Load (wait sl))) q
      = Timeout tr /\
    Forall (fun o => touches_slot o = false) tr.
Proof.
  intros Hslot Hne Hgo n. induction n as [n IH] using lt_wf_ind.
  destruct n as [|n]; [now exists []|].
  rewrite run_iter. unfold WaitHead_iteration at 1.
  destruct (Z.eqb_spec (Load (wait sl)) (u32 required_ticket)); [contradiction|].
  rewrite unless_finished_turn by assumption.
  assert (Hturn : forall m, (m <= n)%nat ->
            exists tr,
              run (handle BoundedQueueNoWait moved_from call_backoff) m
                  (ITree.bind
                     (current_ticket <-
                        ITree.trigger (SlotWaitAndLoad slot (Load (wait sl)));;
                      Ret (inl current_ticket))
                     (fun lr : Z + bool =>
                        match lr with
                        | inl l => Tau (ITree.iter
                                          (WaitHead_iteration (ValueType := ValueType)
                                             (Backoff := Backoff)
                                             slot required_ticket) l)
                        | inr r => Ret r
                        end)) q = Timeout tr /\
              Forall (fun o => touches_slot o = false) tr).
  { intros m Hm. destruct m as [|m]; [now exists []|].
    rewrite (wait_and_load_turn _ _ _ _ sl) by assumption.
    destruct m as [|m]; [eexists; split; [reflexivity|]; repeat constructor|].
    rewrite run_Tau.
    destruct (IH m) as (tr & Hrun & Hquiet); [lia|].
    rewrite Hrun. eexists. split; [reflexivity|]. now constructor. }
  destruct (finish_ q).
  - destruct n as [|n]; [eexists; split; [reflexivity|]; repeat constructor|].
    destruct (Hturn n) as (tr & Hrun & Hquiet); [lia|].
    rewrite Hrun. eexists. split; [reflexivity|]. now repeat constructor.
  - destruct (Hturn n) as (tr & Hrun & Hquiet); [lia|].
    rewrite Hrun. eexists. split; [reflexivity|]. now repeat constructor.
Qed.

Lemma WaitHead_backoff_loop_stuck (slot required_ticket : Z)
    (q : BoundedQueue ValueType) (sl : Slot ValueType) :
  slot_at q slot = Some sl ->
  Load (wait sl) <> u32 required_ticket ->
  finish_ q = false \/ (required_ticket >=? tail_ q) = false ->
  forall (n : nat) (l : wait_locals Backoff),
    current l = Load (wait sl) ->
    exists tr,
      run (handle BoundedQueueNoWait moved_from call_backoff) n
          (ITree.iter (WaitHead_backoff_iteration (ValueType := ValueType)
                         slot required_ticket) l) q
        = Timeout tr /\
      Forall (fun o => touches_slot o = false) tr.
Proof.
  intros Hslot Hne Hgo n. induction n as [n IH] using lt_wf_ind. intros l Hl.
  destruct n as [|n]; [now exists []|].
  rewrite run_iter. unfold WaitHead_backoff_iteration at 1. rewrite Hl.
  destruct (Z.eqb_spec (Load (wait sl)) (u32 required_ticket)); [contradiction|].
  rewrite unless_finished_turn by assumption.
  assert (Hturn : forall m, (m <= n)%nat ->
            exists tr,
              run (handle BoundedQueueNoWait moved_from call_backoff) m
                  (ITree.bind
                     (wait_or_backoff slot l)
                     (fun lr : wait_locals Backoff + bool =>
                        match lr with
                        | inl l => Tau (ITree.iter
                                          (WaitHead_backoff_iteration
                                             (ValueType := ValueType)
                                             slot required_ticket) l)
                        | inr r => Ret r
                        end)) q = Timeout tr /\
              Forall (fun o => touches_slot o = false) tr).
  { intros m Hm. destruct m as [|m]; [now exists []|].
    rewrite (wait_or_backoff_turn _ _ _ _ sl) by assumption.
    destruct (waiting l).
    - destruct m as [|m]; [eexists; split; [reflexivity|]; repeat constructor|].
      rewrite run_Tau.
      destruct (IH m ltac:(lia) {| waiting := true; current := Load (wait sl);
                                   callable := callable l |} eq_refl)
        as (tr & Hrun & Hquiet).
      rewrite Hrun. eexists. split; [reflexivity|]. now constructor.
    - destruct m as [|m]; [eexists; split; [reflexivity|]; repeat constructor|].
      destruct m as [|m]; [eexists; split; [reflexivity|]; repeat constructor|].
      rewrite run_Tau.
      destruct (IH m ltac:(lia) {| waiting := fst (call_backoff (callable l));
                                   current := Load (wait sl);
                                   callable := snd (call_backoff (callable l)) |}
                  eq_refl)
        as (tr & Hrun & Hquiet).
      rewrite Hrun. eexists. split; [reflexivity|]. now repeat constructor. }
  destruct (finish_ q).
  - destruct n as [|n]; [eexists; split; [reflexivity|]; repeat constructor|].
    destruct (Hturn n) as (tr & Hrun & Hquiet); [lia|].
    rewrite Hrun. eexists. split; [reflexivity|]. now repeat constructor.
  - destruct (Hturn n) as (tr & Hrun & Hquiet); [lia|].
    rewrite Hrun. eexists. split; [reflexivity|]. now repeat constructor.
Qed.

(** A consumer whose slot does not show the ticket after its
    reservation, on a queue that is not finished or whose [tail_] is
    beyond that ticket, never returns while the queue stays as it is, and
    moves nothing. *)
Lemma Dequeue_stuck (mask : Z) (v : ValueType) (backoff : option Backoff)
    (q : BoundedQueue ValueType) (sl : Slot ValueType) :
  slot_at q (Z.land (head_ q) mask) = Some sl ->
  Load (wait sl) <> u32 (head_ q + 1) ->
  finish_ q = false \/ (u64 (head_ q + 1) >=? tail_ q) = false ->
  forall n : nat,
  exists tr,
    run (handle BoundedQueueNoWait moved_from call_backoff) n
        (Dequeue mask v backoff) q = Timeout tr /\
    Forall (fun o => touches_slot o = false) tr.
Proof.
  intros Hslot Hne Hgo n.
  destruct n as [|n]; [now exists []|].
  unfold Dequeue. rewrite run_bind_trigger. cbn [handle]. cbv zeta.
  set (slot := Z.land (head_ q) mask) in *.
  set (q0 := {| ring_ := ring_ q; mask_ := mask_ q; finish_ := finish_ q;
                head_ := u64 (head_ q + 1); tail_ := tail_ q |}).
  assert (Hslot0 : slot_at q0 slot = Some sl) by exact Hslot.
  assert (Hne0 : Load (wait sl) <> u32 (u64 (head_ q + 1)))
    by now rewrite u32_u64.
  assert (Hgo0 : finish_ q0 = false \/ (u64 (head_ q + 1) >=? tail_ q0) = false)
    by exact Hgo.
  assert (Hwait : exists tr,
             run (handle BoundedQueueNoWait moved_from call_backoff) n
                 (match backoff with
                  | None => WaitHead slot (u64 (head_ q + 1))
                  | Some b => WaitHead_backoff slot (u64 (head_ q + 1)) b
                  end) q0 = Timeout tr /\
             Forall (fun o => touches_slot o = false) tr).
  { destruct n as [|n]; [now exists []|].
    destruct backoff as [b|].
    - unfold WaitHead_backoff. rewrite run_bind_trigger. cbn [handle].
      rewrite Hslot0.
      destruct (WaitHead_backoff_loop_stuck slot _ q0 sl Hslot0 Hne0 Hgo0 n
                  {| waiting := false; current := Load (wait sl); callable := b |}
                  eq_refl) as (tr & Hrun & Hquiet).
      rewrite Hrun. eexists. split; [reflexivity|]. now constructor.
    - unfold WaitHead. rewrite run_bind_trigger. cbn [handle].
      rewrite Hslot0.
      destruct (WaitHead_loop_stuck slot _ q0 sl Hslot0 Hne0 Hgo0 n)
        as (tr & Hrun & Hquiet).
      rewrite Hrun. eexists. split; [reflexivity|]. now constructor. }
  destruct Hwait as (tr & Hrun & Hquiet).
  rewrite (run_bind_Timeout _ _ _ _ _ _ Hrun).
  eexists. split; [reflexivity|]. now constructor.
Qed.

(** A consumer whose slot does not show its ticket, on a finished
    queue whose [tail_] is not beyond that ticket, is turned away at
    once. *)
Lemma Dequeue_refused (mask : Z) (v : ValueType) (backoff : option Backoff)
    (q : BoundedQueue ValueType) (sl : Slot ValueType) :
  slot_at q (Z.land (head_ q) mask) = Some sl ->
  Load (wait sl) <> u32 (head_ q + 1) ->
  finish_ q = true ->
  tail_ q <= u64 (head_ q + 1) ->
  run (handle BoundedQueueNoWait moved_from call_backoff) 5
      (Dequeue mask v backoff) q
  = Done (false, v)
      {| ring_ := ring_ q; mask_ := mask_ q; finish_ := finish_ q;
         head_ := u64 (head_ q + 1); tail_ := tail_ q |}
      [Obs (FetchAdd head_counter memory_order_relaxed) (head_ q);
       Obs (SlotLoad (Z.land (head_ q) mask)) (Load (wait sl));
       Obs FinishLoad true;
       Obs (CounterLoad tail_counter memory_order_seq_cst) (tail_ q)].
Proof.
  intros Hslot Hne Hfin Htail.
  unfold Dequeue. rewrite run_bind_trigger. cbn [handle]. cbv zeta.
  set (slot := Z.land (head_ q) mask) in *.
  set (q0 := {| ring_ := ring_ q; mask_ := mask_ q; finish_ := finish_ q;
                head_ := u64 (head_ q + 1); tail_ := tail_ q |}).
  assert (Hslot0 : slot_at q0 slot = Some sl) by exact Hslot.
  assert (Hge : (u64 (head_ q + 1) >=? tail_ q) = true)
    by (apply Z.geb_le; exact Htail).
  destruct backoff as [b|].
  - unfold WaitHead_backoff.
    rewrite bind_bind, run_bind_trigger. cbn [handle]. rewrite Hslot0.
    rewrite unfold_iter. unfold WaitHead_backoff_iteration at 1. cbn [current].
    rewrite u32_u64.
    destruct (Z.eqb_spec (Load (wait sl)) (u32 (head_ q + 1))); [contradiction|].
    unfold unless_finished, Finished.
    rewrite !bind_bind, run_bind_trigger. cbn [handle finish_ q0]. rewrite Hfin.
    rewrite !bind_bind, run_bind_trigger. cbn [handle tail_ q0]. rewrite Hge.
    rewrite !bind_ret_l. cbn [negb]. now rewrite run_Ret.
  - unfold WaitHead.
    rewrite bind_bind, run_bind_trigger. cbn [handle]. rewrite Hslot0.
    rewrite unfold_iter. unfold WaitHead_iteration at 1.
    rewrite u32_u64.
    destruct (Z.eqb_spec (Load (wait sl)) (u32 (head_ q + 1))); [contradiction|].
    unfold unless_finished, Finished.
    rewrite !bind_bind, run_bind_trigger. cbn [handle finish_ q0]. rewrite Hfin.
    rewrite !bind_bind, run_bind_trigger. cbn [handle tail_ q0]. rewrite Hge.
    rewrite !bind_ret_l. cbn [negb]. now rewrite run_Ret.
Qed.

(** X2. The queue is bounded: on a queue of valid capacity [N >= 2]
    that holds [N] values, an [Enqueue] running on its own, with or
    without a backoff, never returns: run for any number of steps it is
    still waiting, and it has assigned no value and stored no ticket. *)
Theorem full_ring_holds_producer_back (N r : Z) (xs : list ValueType)
    (q : BoundedQueue ValueType) :
  power_of_two N -> 2 <= N < 2 ^ 32 ->
  holding N r xs q ->
  Z.of_nat (length xs) = N ->
  forall (x : ValueType) (backoff : option Backoff) (n : nat),
  exists tr,
    run (handle BoundedQueueNoWait moved_from call_backoff) n
        (Enqueue (N - 1) x backoff) q = Timeout tr /\
    Forall (fun o => touches_slot o = false) tr.
Proof.
  intros Hp HN (Hlen & Hmask & Hhead & Htail & Hheld & Hfree) Hfull x backoff.
  destruct xs as [|y xs]; [cbn in Hfull; lia|].
  pose proof (Hheld 0%nat y eq_refl) as Hslot.
  cbn [Z.of_nat] in Hslot. rewrite Z.add_0_r in Hslot.
  assert (Hidx : Z.land (tail_ q) (N - 1) = r mod N).
  { rewrite Htail, Hfull, land_u64_mask by (assumption || lia).
    rewrite <- (Z.mod_add r 1 N) by lia. f_equal. lia. }
  rewrite <- Hidx in Hslot.
  apply (Enqueue_stuck (N - 1) x backoff q _ Hslot).
  cbn [wait Load ticket_]. rewrite Htail, Hfull, u32_u64.
  apply u32_apart. lia.
Qed.

(** X3. On a queue that holds no value and is not finished, a [Dequeue]
    running on its own, with or without a backoff, never returns: run
    for any number of steps it is still waiting, and it has moved no
    value and stored no ticket. *)
Theorem empty_ring_holds_consumer_back (N r : Z) (q : BoundedQueue ValueType) :
  power_of_two N -> N < 2 ^ 32 ->
  holding N r [] q ->
  finish_ q = false ->
  forall (v : ValueType) (backoff : option Backoff) (n : nat),
  exists tr,
    run (handle BoundedQueueNoWait moved_from call_backoff) n
        (Dequeue (N - 1) v backoff) q = Timeout tr /\
    Forall (fun o => touches_slot o = false) tr.
Proof.
  intros Hp HN (Hlen & Hmask & Hhead & Htail & Hheld & Hfree) Hfin v backoff.
  pose proof (power_of_two_pos N Hp) as Hpos.
  cbn [length Z.of_nat] in Hfree.
  destruct (Hfree r) as (sl & Hslot & Hticket); [lia|].
  assert (Hidx : Z.land (head_ q) (N - 1) = r mod N)
    by (rewrite Hhead; now apply land_u64_mask).
  rewrite <- Hidx in Hslot.
  apply (Dequeue_stuck (N - 1) v backoff q sl Hslot).
  - rewrite Hticket, Hhead, u32_u64_add. apply u32_apart. lia.
  - now left.
Qed.

(** X4. A queue of capacity one does not hold its producers back: the
    ticket [t + 1] that marks the slot as filled by reservation [t] is
    also the ticket the producer of reservation [t + 1] waits for.  So
    on a queue of capacity one that holds [x], [Enqueue(y)] returns at
    once and overwrites [x]; the slot is then two tickets ahead of the
    consumer, and no [Dequeue] running on its own returns any more. *)
Theorem capacity_one_overwrites (r : Z) (x y : ValueType)
    (q : BoundedQueue ValueType) :
  0 <= r -> r + 2 < 2 ^ 64 ->
  holding 1 r [x] q ->
  forall backoff : option Backoff,
  exists q' tr,
    run (handle BoundedQueueNoWait moved_from call_backoff) 5
        (Enqueue (1 - 1) y backoff) q = Done tt q' tr /\
    slot_at q' 0 = Some {| wait := {| ticket_ := u32 (r + 2) |}; value := y |} /\
    forall (v : ValueType) (backoff' : option Backoff) (n : nat),
    exists tr',
      run (handle BoundedQueueNoWait moved_from call_backoff) n
          (Dequeue (1 - 1) v backoff') q' = Timeout tr' /\
      Forall (fun o => touches_slot o = false) tr'.
Proof.
  intros Hr Hr2 (Hlen & Hmask & Hhead & Htail & Hheld & Hfree) backoff.
  pose proof (Hheld 0%nat x eq_refl) as Hslot.
  cbn [length] in *. change (Z.of_nat 1) with 1 in *.
  change (Z.of_nat 0) with 0 in Hslot. rewrite Z.add_0_r, Z.mod_1_r in Hslot.
  assert (Hidx : forall t, Z.land t (1 - 1) = 0) by (intros; apply Z.land_0_r).
  destruct (Enqueue_through moved_from call_backoff (1 - 1) y backoff q
              {| wait := {| ticket_ := u32 (r + 1) |}; value := x |})
    as (q' & Hrun & Hslot' & Hothers & Hhead' & Htail' & Hmask' & Hfin').
  { now rewrite Hidx. }
  { cbn [wait Load ticket_]. now rewrite Htail, u32_u64. }
  rewrite Hidx in Hslot'.
  exists q'. eexists. split; [exact Hrun|]. split.
  - rewrite Hslot'. do 3 f_equal. rewrite Htail, u32_u64_add. f_equal. lia.
  - intros v backoff' n.
    eapply Dequeue_stuck.
    + rewrite Hidx. exact Hslot'.
    + cbn [wait Load ticket_]. rewrite Hhead', Htail, Hhead, !u32_u64_add.
      apply not_eq_sym, u32_apart. lia.
    + right. rewrite Hhead', Htail', Htail, Hhead, !u64_add_l.
      rewrite Z.geb_leb. apply Z.leb_gt.
      replace (r + 1 + 1) with (r + 2) by lia.
      rewrite !u64_small by lia. lia.
Qed.

End Stuck.

Lemma full_ring_holds_producer_back_witness :
  exists tr,
    run default_handle 40 (Enqueue (2 - 1) 30 (Some 2%nat)) full_two = Timeout tr /\
    Forall (fun o => touches_slot o = false) tr.
Proof.
  apply (full_ring_holds_producer_back (fun x => x) countdown 2 0 [10; 20] full_two).
  - exists 1. split; [lia | reflexivity].
  - lia.
  - split; [simpl; lia|]. split; [reflexivity|]. split; [reflexivity|].
    split; [reflexivity|]. split.
    + intros [|[|[|i]]] x Hx; try discriminate Hx;
        injection Hx as <-; reflexivity.
    + intros t Ht. simpl in Ht. lia.
  - reflexivity.
Defined.

Lemma empty_ring_holds_consumer_back_witness :
  exists tr,
    run default_handle 40 (Dequeue (2 - 1) 0 (Some 2%nat)) two_slots = Timeout tr /\
    Forall (fun o => touches_slot o = false) tr.
Proof.
  apply (empty_ring_holds_consumer_back (fun x => x) countdown 2 0 two_slots).
  - exists 1. split; [lia | reflexivity].
  - lia.
  - split; [simpl; lia|]. split; [reflexivity|]. split; [reflexivity|].
    split; [reflexivity|]. split.
    + intros [|i] x Hx; discriminate Hx.
    + intros t Ht. simpl in Ht.
      assert (Hcases : t = 0 \/ t = 1) by lia.
      destruct Hcases as [->| ->]; eexists; split; reflexivity.
  - reflexivity.
Defined.

Lemma capacity_one_overwrites_witness :
  exists q' tr,
    run default_handle 5 (Enqueue (1 - 1) 20 None) full_one = Done tt q' tr /\
    slot_at q' 0 = Some {| wait := {| ticket_ := u32 (0 + 2) |}; value := 20 |} /\
    forall (v : Z) (backoff' : option nat) (n : nat),
    exists tr',
      run default_handle n (Dequeue (1 - 1) v backoff') q' = Timeout tr' /\
      Forall (fun o => touches_slot o = false) tr'.
Proof.
  refine (capacity_one_overwrites (fun x => x) countdown 0 10 20 full_one
            _ _ _ None).
  - lia.
  - lia.
  - split; [simpl; lia|]. split; [reflexivity|]. split; [reflexivity|].
    split; [reflexivity|]. split.
    + intros [|[|i]] x Hx; try discriminate Hx. injection Hx as <-. reflexivity.
    + intros t Ht. simpl in Ht. lia.
Defined.

(* ===================================================================== *)
(** ** Empty *)
(* ===================================================================== *)

Section EmptyFacts.

Context {ValueType Backoff : Type}.
Variable moved_from : ValueType -> ValueType.
Variable call_backoff : Backoff -> bool * Backoff.

(** X5. [Empty] reads the two counters and changes nothing.  On a
    queue that holds the values [xs] under reservation [r] it answers
    [true] when there is no value and [false] when there is one, except
    where the counters straddle [2^63]: it compares them as [int64_t],
    so with [head_ < 2^63 <= tail_] it answers [true] for a queue that
    holds values. *)
Theorem Empty_of_held (N r : Z) (xs : list ValueType) (q : BoundedQueue ValueType) :
  N < 2 ^ 32 ->
  0 <= r < 2 ^ 64 ->
  holding N r xs q ->
  run (handle BoundedQueueNoWait moved_from call_backoff) 3 Empty q
  = Done (match xs with [] => true | _ :: _ => false end
          || ((r <? 2 ^ 63) && (2 ^ 63 <=? r + Z.of_nat (length xs))))
      q
      [Obs (CounterLoad head_counter memory_order_relaxed) (head_ q);
       Obs (CounterLoad tail_counter memory_order_relaxed) (tail_ q)].
Proof.
  intros HN Hr (Hlen & Hmask & Hhead & Htail & _).
  unfold Empty. rewrite run_bind_trigger. cbn [handle prepend].
  rewrite run_bind_trigger. cbn [handle prepend]. rewrite run_Ret. cbn [prepend].
  do 3 f_equal.
  rewrite Hhead, Htail.
  set (k := Z.of_nat (length xs)) in *.
  assert (Hk : 0 <= k) by (unfold k; lia).
  assert (Hxs : match xs with [] => true | _ :: _ => false end = (k =? 0)).
  { unfold k. destruct xs; reflexivity. }
  rewrite Hxs. clear Hxs.
  unfold i64. rewrite !(u64_small (u64 _)) by apply u64_range.
  rewrite (u64_small r) by assumption.
  assert (Htl : u64 (r + k) = if r + k <? 2 ^ 64 then r + k else r + k - 2 ^ 64).
  { destruct (Z.ltb_spec (r + k) (2 ^ 64)).
    - apply u64_small. lia.
    - unfold u64. symmetry. apply (Z.mod_unique _ _ 1); lia. }
  rewrite Htl.
  destruct (Z.ltb_spec (r + k) (2 ^ 64)), (Z.ltb_spec r (2 ^ 63)),
    (Z.eqb_spec k 0), (Z.leb_spec (2 ^ 63) (r + k)); cbn [orb andb];
    repeat match goal with
           | |- context [?a <? ?b] => destruct (Z.ltb_spec a b)
           end;
    try (apply Z.leb_le; lia); try (apply Z.leb_gt; lia); lia.
Qed.

End EmptyFacts.

Lemma Empty_of_held_witness :
  run default_handle 3 Empty at_signed_edge
  = Done (false || ((9223372036854775807 <? 2 ^ 63)
                    && (2 ^ 63 <=? 9223372036854775807 + Z.of_nat (length [10]))))
      at_signed_edge
      [Obs (CounterLoad head_counter memory_order_relaxed) (head_ at_signed_edge);
       Obs (CounterLoad tail_counter memory_order_relaxed) (tail_ at_signed_edge)].
Proof.
  apply (Empty_of_held (fun x => x) countdown 2 9223372036854775807 [10]
           at_signed_edge).
  - lia.
  - lia.
  - split; [simpl; lia|]. split; [reflexivity|]. split; [reflexivity|].
    split; [reflexivity|]. split.
    + intros [|[|i]] x Hx; try discriminate Hx. injection Hx as <-. reflexivity.
    + intros t Ht. simpl in Ht.
      assert (Hcase : t = 9223372036854775808) by lia.
      subst t. eexists. split; reflexivity.
Defined.

(* ===================================================================== *)
(** ** Shutdown with values in the ring *)
(* ===================================================================== *)

Section Drain.

Context {ValueType Backoff : Type}.
Variable moved_from : ValueType -> ValueType.
Variable call_backoff : Backoff -> bool * Backoff.

(** [Wake] leaves the slots, the mask, the counters and the flag
    alone. *)
Lemma replay_wakes (l : list Z) :
  forall q q' : BoundedQueue ValueType,
    replay (handle BoundedQueueNoWait moved_from call_backoff)
      (List.map (fun j => Obs (SlotWake (ValueType := ValueType)
                                 (Backoff := Backoff) j) tt) l) q = Some q' ->
    (forall j, slot_at q' j = slot_at q j) /\
    mask_ q' = mask_ q /\ head_ q' = head_ q /\ tail_ q' = tail_ q /\
    finish_ q' = finish_ q.
Proof.
  induction l as [|i l IH]; intros q q' Hreplay; cbn [List.map replay] in Hreplay.
  - injection Hreplay as <-. repeat split.
  - cbn [handle] in Hreplay.
    destruct (slot_at q i) as [sl|] eqn:Hslot; [|discriminate].
    destruct (IH _ q' Hreplay) as (Hs & Hm & Hh & Ht & Hf).
    split; [|repeat split; assumption].
    intros j. rewrite Hs.
    rewrite slot_at_with_slot by (now apply (slot_at_nonneg q i sl)).
    destruct (Z.eqb_spec j i) as [->|]; [|reflexivity].
    rewrite Hslot. cbn. now destruct sl.
Qed.

(** [Finish] on a ring that holds values raises the flag and changes
    nothing else. *)
Lemma holding_Finish (N r : Z) (xs : list ValueType) (q : BoundedQueue ValueType) :
  0 < N < 2 ^ 32 ->
  holding N r xs q ->
  exists q' tr,
    run (handle BoundedQueueNoWait moved_from call_backoff)
        (2 * Z.to_nat N + 2) (Finish (N - 1)) q = Done tt q' tr /\
    holding N r xs q' /\ finish_ q' = true.
Proof.
  intros HN Hheld.
  pose proof Hheld as (_ & Hmask & _).
  destruct (Finish_runs BoundedQueueNoWait moved_from call_backoff N q HN Hmask
              (holding_slots N r xs q (proj1 HN) Hheld))
    as (q' & Hrun & Hfin).
  rewrite Hmask in Hrun.
  exists q'. eexists. split; [exact Hrun|]. split; [|exact Hfin].
  apply run_replay in Hrun. cbn [replay handle] in Hrun.
  destruct (replay_wakes _ _ q' Hrun) as (Hs & Hm & Hh & Ht & _).
  now apply (holding_ext N r xs q q').
Qed.

Lemma last_cons (x : ValueType) (xs : list ValueType) (v : ValueType) :
  last (x :: xs) v = last xs x.
Proof.
  revert x v. induction xs as [|y xs IH]; intros x v; [reflexivity|].
  change (last (x :: y :: xs) v) with (last (y :: xs) v).
  now rewrite (IH y v), (IH y x).
Qed.

(** On a finished queue the values held still come out in order; the
    next consumer is turned away. *)
Lemma drain_finished (N : Z) (backoff : option Backoff) (xs : list ValueType) :
  power_of_two N -> N < 2 ^ 32 ->
  forall (r : Z) (q : BoundedQueue ValueType) (v : ValueType),
    holding N r xs q ->
    finish_ q = true ->
    u64 (r + Z.of_nat (length xs)) <> 2 ^ 64 - 1 ->
    exists q' tr,
      run (handle BoundedQueueNoWait moved_from call_backoff)
          (6 * length xs + 7)
          (perform (N - 1) backoff (repeat Pop (S (length xs))) v) q
        = Done (List.map (fun x => (true, x)) xs ++ [(false, last xs v)]) q' tr /\
      head_ q' = u64 (r + Z.of_nat (length xs) + 1) /\
      tail_ q' = u64 (r + Z.of_nat (length xs)).
Proof.
  intros Hp Hlt. pose proof (power_of_two_pos N Hp) as HN.
  induction xs as [|x xs IH]; intros r q v Hheld Hfin Hwrap.
  - destruct Hheld as (Hlen & Hmask & Hhead & Htail & Hheld & Hfree).
    cbn [length Z.of_nat] in *. rewrite Z.add_0_r in *.
    destruct (Hfree r) as (sl & Hslot & Hticket); [lia|].
    assert (Hidx : Z.land (head_ q) (N - 1) = r mod N)
      by (rewrite Hhead; now apply land_u64_mask).
    rewrite <- Hidx in Hslot.
    pose proof (Dequeue_refused moved_from call_backoff (N - 1) v backoff q sl
                  Hslot) as Hrun.
    eexists. eexists. split; [|split].
    + cbn [repeat perform List.map app last].
      change (6 * 0 + 7)%nat with (5 + (1 + 1))%nat.
      eapply run_bind_compose.
      * apply Hrun.
        -- rewrite Hticket, Hhead, u32_u64_add. apply u32_apart. lia.
        -- exact Hfin.
        -- rewrite Htail, Hhead, u64_add_l.
           pose proof (u64_range r) as Hr. pose proof (u64_range (r + 1)) as Hr1.
           unfold u64 in *.
           rewrite <- Zplus_mod_idemp_l.
           rewrite (Z.mod_small (r mod 2 ^ 64 + 1)); lia.
      * cbn [snd]. eapply run_bind_compose; reflexivity.
    + cbn [head_]. now rewrite Hhead, u64_add_l.
    + cbn [tail_]. exact Htail.
  - destruct (holding_Dequeue moved_from call_backoff N r x xs v backoff q
                Hp Hlt Hheld)
      as (q1 & tr1 & Hrun1 & Hlen1 & Hheld1 & Hfinish1).
    destruct (IH (r + 1) q1 x Hheld1) as (q' & tr & Hrun & Hhead' & Htail').
    + congruence.
    + replace (r + 1 + Z.of_nat (length xs)) with (r + Z.of_nat (length (x :: xs)))
        by (cbn [length]; lia).
      exact Hwrap.
    + exists q'. eexists. split; [|split].
      * apply (run_mono _ (5 + ((6 * length xs + 7) + 1))); [|cbn [length]; lia].
        cbn [length repeat perform List.map app].
        eapply run_bind_compose; [exact Hrun1|]. cbn [snd].
        eapply run_bind_compose; [exact Hrun|].
        rewrite last_cons. reflexivity.
      * rewrite Hhead'. f_equal. cbn [length]. lia.
      * rewrite Htail'. f_equal. cbn [length]. lia.
Qed.

(** X6. [Finish] on a queue that holds values raises the flag and
    leaves the values, the tickets and the counters as they are.  The
    consumers that come afterwards still receive every value, oldest
    first; the one after the last value is turned away with [false], its
    variable holding what the call before left in it, and it leaves
    [head_] one ahead of [tail_]. *)
Theorem Finish_then_drain (N r : Z) (backoff : option Backoff)
    (xs : list ValueType) (q : BoundedQueue ValueType) (v : ValueType) :
  power_of_two N -> N < 2 ^ 32 ->
  holding N r xs q ->
  u64 (r + Z.of_nat (length xs)) <> 2 ^ 64 - 1 ->
  exists q1 tr1 q2 tr2,
    run (handle BoundedQueueNoWait moved_from call_backoff)
        (2 * Z.to_nat N + 2) (Finish (N - 1)) q = Done tt q1 tr1 /\
    finish_ q1 = true /\
    holding N r xs q1 /\
    run (handle BoundedQueueNoWait moved_from call_backoff)
        (6 * length xs + 7)
        (perform (N - 1) backoff (repeat Pop (S (length xs))) v) q1
      = Done (List.map (fun x => (true, x)) xs ++ [(false, last xs v)]) q2 tr2 /\
    head_ q2 = u64 (r + Z.of_nat (length xs) + 1) /\
    tail_ q2 = u64 (r + Z.of_nat (length xs)).
Proof.
  intros Hp Hlt Hheld Hwrap.
  pose proof (power_of_two_pos N Hp) as HN.
  destruct (holding_Finish N r xs q (conj HN Hlt) Hheld)
    as (q1 & tr1 & Hrun1 & Hheld1 & Hfin1).
  destruct (drain_finished N backoff xs Hp Hlt r q1 v
              Hheld1 Hfin1 Hwrap) as (q2 & tr2 & Hrun2 & Hhead2 & Htail2).
  now exists q1, tr1, q2, tr2.
Qed.

(** X7. A consumer that is turned away keeps the reservation it took:
    on a finished queue that holds no value, [Dequeue] returns [false]
    and leaves [head_] ahead of [tail_]; the value of an [Enqueue] made
    afterwards goes into the slot that the refused consumer had reserved,
    and the next [Dequeue], reserving the slot after it, is turned away
    too. *)
Theorem refused_Dequeue_keeps_its_reservation (N r : Z) (backoff : option Backoff)
    (x v : ValueType) (q : BoundedQueue ValueType) :
  power_of_two N -> N < 2 ^ 32 ->
  0 <= r -> r + 2 < 2 ^ 64 ->
  holding N r [] q ->
  finish_ q = true ->
  exists q' tr,
    run (handle BoundedQueueNoWait moved_from call_backoff) 18
        (perform (N - 1) backoff [Pop; Push x; Pop] v) q
      = Done [(false, v); (false, v)] q' tr /\
    slot_at q' (r mod N)
      = Some {| wait := {| ticket_ := u32 (r + 1) |}; value := x |} /\
    head_ q' = r + 2 /\ tail_ q' = r + 1.
Proof.
  intros Hp Hlt Hr Hr2 (Hlen & Hmask & Hhead & Htail & Hheld & Hfree) Hfin.
  pose proof (power_of_two_pos N Hp) as HN.
  cbn [length Z.of_nat] in *. rewrite Z.add_0_r in *.
  rewrite u64_small in Hhead, Htail by lia.
  destruct (Hfree r) as (sl & Hslot & Hticket); [lia|].
  assert (Hidx : forall t, Z.land t (N - 1) = t mod N)
    by (intros; now apply land_mask_mod).
  (* the first consumer is turned away *)
  assert (Hslot0 : slot_at q (Z.land (head_ q) (N - 1)) = Some sl).
  { rewrite Hhead, Hidx. exact Hslot. }
  pose proof (Dequeue_refused moved_from call_backoff (N - 1) v backoff q sl Hslot0)
    as Hrun1.
  rewrite Hhead, Htail, Hticket, (u64_small (r + 1)) in Hrun1 by lia.
  specialize (Hrun1 ltac:(apply u32_apart; lia) Hfin ltac:(lia)).
  set (q1 := {| ring_ := ring_ q; mask_ := mask_ q; finish_ := finish_ q;
                head_ := r + 1; tail_ := r |}) in *.
  (* the producer fills the slot of reservation [r] *)
  assert (Hslot1 : slot_at q1 (Z.land (tail_ q1) (N - 1)) = Some sl).
  { unfold q1 at 2. cbn [tail_]. rewrite Hidx. exact Hslot. }
  destruct (Enqueue_through moved_from call_backoff (N - 1) x backoff q1 sl Hslot1)
    as (q2 & Hrun2 & Hslot2 & Hothers2 & Hhead2 & Htail2 & Hmask2 & Hfin2).
  { now rewrite Hticket. }
  unfold q1 in Hslot2, Hothers2, Hhead2, Htail2, Hfin2.
  cbn [tail_ head_ finish_] in Hslot2, Hothers2, Hhead2, Htail2, Hfin2.
  rewrite Hidx in Hslot2, Hothers2.
  rewrite (u64_small (r + 1)) in Htail2 by lia.
  (* the slot of reservation [r + 1] shows ticket [r + 1] either way *)
  assert (Hnext : exists sl', slot_at q2 (Z.land (head_ q2) (N - 1)) = Some sl' /\
                              Load (wait sl') = u32 (r + 1)).
  { rewrite Hhead2, Hidx.
    destruct (Z.eq_dec ((r + 1) mod N) (r mod N)) as [Heq|Hne].
    - rewrite Heq, Hslot2. eexists. split; reflexivity.
    - rewrite Hothers2 by exact Hne.
      destruct (Z.eq_dec N 1) as [->|HN1].
      + now rewrite !Z.mod_1_r in Hne.
      + apply (Hfree (r + 1)). lia. }
  destruct Hnext as (sl' & Hslot' & Hticket').
  pose proof (Dequeue_refused moved_from call_backoff (N - 1) v backoff q2 sl' Hslot')
    as Hrun3.
  rewrite Hhead2, Htail2, Hticket', (u64_small (r + 1 + 1)) in Hrun3 by lia.
  specialize (Hrun3 ltac:(apply u32_apart; lia) ltac:(congruence) ltac:(lia)).
  eexists. eexists. split; [|split; [|split]].
  - change 18%nat with (5 + ((5 + (5 + (1 + 1))) + 1))%nat.
    cbn [perform].
    eapply run_bind_compose; [exact Hrun1|]. cbn [snd].
    eapply run_bind_compose; [|reflexivity].
    eapply run_bind_compose; [exact Hrun2|].
    eapply run_bind_compose; [exact Hrun3|]. cbn [snd].
    eapply run_bind_compose; reflexivity.
  - exact Hslot2.
  - cbn [head_]. lia.
  - reflexivity.
Qed.

End Drain.

Lemma Finish_then_drain_witness :
  exists q1 tr1 q2 tr2,
    run default_handle (2 * Z.to_nat 2 + 2) (Finish (2 - 1)) full_two
      = Done tt q1 tr1 /\
    finish_ q1 = true /\
    holding 2 0 [10; 20] q1 /\
    run default_handle (6 * length [10; 20] + 7)
        (perform (2 - 1) None (repeat Pop (S (length [10; 20]))) 0) q1
      = Done (List.map (fun x => (true, x)) [10; 20] ++ [(false, last [10; 20] 0)])
          q2 tr2 /\
    head_ q2 = u64 (0 + Z.of_nat (length [10; 20]) + 1) /\
    tail_ q2 = u64 (0 + Z.of_nat (length [10; 20])).
Proof.
  apply (Finish_then_drain (fun x => x) countdown 2 0 None [10; 20] full_two 0).
  - exists 1. split; [lia | reflexivity].
  - lia.
  - split; [simpl; lia|]. split; [reflexivity|]. split; [reflexivity|].
    split; [reflexivity|]. split.
    + intros [|[|[|i]]] x Hx; try discriminate Hx;
        injection Hx as <-; reflexivity.
    + intros t Ht. simpl in Ht. lia.
  - vm_compute. discriminate.
Defined.

Lemma refused_Dequeue_keeps_its_reservation_witness :
  exists q' tr,
    run default_handle 18 (perform (2 - 1) None [Pop; Push 10; Pop] 0)
        {| ring_ := ring_ two_slots; mask_ := 1; finish_ := true;
           head_ := 0; tail_ := 0 |}
      = Done [(false, 0); (false, 0)] q' tr /\
    slot_at q' (0 mod 2)
      = Some {| wait := {| ticket_ := u32 (0 + 1) |}; value := 10 |} /\
    head_ q' = 0 + 2 /\ tail_ q' = 0 + 1.
Proof.
  apply (refused_Dequeue_keeps_its_reservation (fun x => x) countdown 2 0 None 10 0).
  - exists 1. split; [lia | reflexivity].
  - lia.
  - lia.
  - lia.
  - split; [simpl; lia|]. split; [reflexivity|]. split; [reflexivity|].
    split; [reflexivity|]. split.
    + intros [|i] x Hx; discriminate Hx.
    + intros t Ht. simpl in Ht.
      assert (Hcases : t = 0 \/ t = 1) by lia.
      destruct Hcases as [->| ->]; eexists; split; reflexivity.
  - reflexivity.
Defined.

(* ===================================================================== *)
(** ** After a move, and at the end *)
(* ===================================================================== *)

Section Moved.

Context {ValueType Backoff : Type}.
Variable moved_from : ValueType -> ValueType.
Variable call_backoff : Backoff -> bool * Backoff.

(** X8. The move constructor takes the ring with the tickets it has
    and restarts both counters at 0.  Moved before any value has passed
    ([r = 0]) the new queue is ready at reservation 0.  Moved after [r]
    values have passed, [0 < r <= 2^32 - N] and [N >= 2], slot 0 carries
    a ticket that is neither 0 nor 1, and neither [Enqueue] nor [Dequeue]
    running on its own ever returns on the new queue. *)
Theorem moved_queue_restarts_at_zero (N r : Z) (q : BoundedQueue ValueType) :
  power_of_two N -> 2 <= N ->
  0 <= r -> r + N <= 2 ^ 32 ->
  ready_at N r q ->
  let new := fst (BoundedQueue_move q) in
  (r = 0 -> ready_at N 0 new) /\
  (0 < r ->
   forall (x v : ValueType) (backoff : option Backoff) (n : nat),
     (exists tr,
         run (handle BoundedQueueNoWait moved_from call_backoff) n
             (Enqueue (N - 1) x backoff) new = Timeout tr /\
         Forall (fun o => touches_slot o = false) tr) /\
     (exists tr,
         run (handle BoundedQueueNoWait moved_from call_backoff) n
             (Dequeue (N - 1) v backoff) new = Timeout tr /\
         Forall (fun o => touches_slot o = false) tr)).
Proof.
  intros Hp HN Hr Hwrap (Hmask & Hhead & Htail & Hslots) new.
  assert (Hnew : forall j, slot_at new j = slot_at q j) by reflexivity.
  split.
  - intros ->. repeat split; try assumption.
  - intros Hpos x v backoff n.
    destruct (Hslots 0) as (sl & Hslot & Hticket); [lia|].
    pose proof (Z.mod_pos_bound (0 - r) N ltac:(lia)) as Hb.
    assert (Hdiv : (r + (0 - r) mod N) mod N = 0).
    { rewrite Zplus_mod_idemp_r. replace (r + (0 - r)) with 0 by lia.
      apply Z.mod_0_l. lia. }
    assert (Hm : 2 <= r + (0 - r) mod N < 2 ^ 32).
    { apply Z.mod_divide in Hdiv; [|lia]. destruct Hdiv as [c Hc].
      assert (0 < c) by nia. split; [nia | lia]. }
    rewrite u32_small in Hticket by lia.
    split.
    + apply (Enqueue_stuck moved_from call_backoff (N - 1) x backoff new sl).
      * rewrite Hnew. exact Hslot.
      * rewrite Hticket. cbn [new BoundedQueue_move fst tail_].
        change (u32 0) with 0. lia.
    + apply (Dequeue_stuck moved_from call_backoff (N - 1) v backoff new sl).
      * rewrite Hnew. exact Hslot.
      * rewrite Hticket. cbn [new BoundedQueue_move fst head_].
        change (u32 (0 + 1)) with 1. lia.
      * now left.
Qed.

End Moved.

Lemma moved_queue_restarts_at_zero_witness :
  let new := fst (BoundedQueue_move served_one) in
  (1 = 0 -> ready_at 2 0 new) /\
  (0 < 1 ->
   forall (x v : Z) (backoff : option nat) (n : nat),
     (exists tr,
         run default_handle n (Enqueue (2 - 1) x backoff) new = Timeout tr /\
         Forall (fun o => touches_slot o = false) tr) /\
     (exists tr,
         run default_handle n (Dequeue (2 - 1) v backoff) new = Timeout tr /\
         Forall (fun o => touches_slot o = false) tr)).
Proof.
  apply (moved_queue_restarts_at_zero (fun x => x) countdown 2 1 served_one).
  - exists 1. split; [lia | reflexivity].
  - lia.
  - lia.
  - lia.
  - split; [reflexivity|]. split; [reflexivity|]. split; [reflexivity|].
    intros j Hj. assert (Hcases : j = 0 \/ j = 1) by lia.
    destruct Hcases as [->| ->]; eexists; split; reflexivity.
Defined.

Section Teardown.

Context {ValueType : Type}.
Variable posix_memalign : Z -> Z -> Z.
Variables kCacheLineSize sizeof_Slot : Z.
Variable default_slot : Slot ValueType.

(** X9. The destructor of a constructed queue of capacity [N] runs the
    destructor of the slots [0 .. N-1] in order and then frees the ring.
    After a move the destructors of the new and of the old object do
    that once between them: the ring is freed exactly once. *)
Theorem Destroy_frees_once (N : Z) (q : BoundedQueue ValueType) :
  0 <= N < 2 ^ 32 ->
  BoundedQueue_new posix_memalign kCacheLineSize sizeof_Slot default_slot N = inr q ->
  Destroy q = List.map SlotDestructor (indices 0 (Z.to_nat N)) ++ [Free] /\
  Destroy (fst (BoundedQueue_move q)) ++ Destroy (snd (BoundedQueue_move q))
  = List.map SlotDestructor (indices 0 (Z.to_nat N)) ++ [Free].
Proof.
  intros HN Hnew.
  destruct (BoundedQueue_new_cases posix_memalign kCacheLineSize sizeof_Slot
              default_slot N HN)
    as [[_ Hbad]|[(_ & _ & Hbad)|(Hp & _ & ring & Hq & _)]]; try congruence.
  rewrite Hq in Hnew. injection Hnew as <-.
  pose proof (power_of_two_pos N Hp) as Hpos.
  unfold Destroy. cbn [BoundedQueue_move fst snd ring_ mask_].
  replace (N - 1 + 1) with N by lia. rewrite u32_small by lia.
  now rewrite app_nil_r.
Qed.

End Teardown.

Lemma Destroy_frees_once_witness :
  Destroy four_slots = List.map SlotDestructor (indices 0 (Z.to_nat 4)) ++ [Free] /\
  Destroy (fst (BoundedQueue_move four_slots))
    ++ Destroy (snd (BoundedQueue_move four_slots))
  = List.map SlotDestructor (indices 0 (Z.to_nat 4)) ++ [Free].
Proof.
  apply (Destroy_frees_once (fun _ _ => 0) 64 64
           {| wait := {| ticket_ := 7 |}; value := 0 |} 4 four_slots).
  - lia.
  - reflexivity.
Defined.

(* ===================================================================== *)
(** ** No call leaves the ring *)
(* ===================================================================== *)

Section SafetyFacts.

Context {E : Type -> Type}.
Variable P : forall A : Type, E A -> Prop.

Lemma issues_mono {R : Type} (Q : R -> Prop) (m : nat) :
  forall (n : nat) (t : itree E R),
    issues P Q n t -> (m <= n)%nat -> issues P Q m t.
Proof.
  induction m as [|m IH]; intros n t H Hle; [exact I|].
  destruct n as [|n]; [lia|]. cbn [issues] in *.
  destruct (observe t) as [r|t'|X e k].
  - exact H.
  - apply (IH n); [exact H | lia].
  - split; [exact (proj1 H)|]. intros a. apply (IH n); [apply H | lia].
Qed.

Lemma issues_eq_itree {R : Type} (Q : R -> Prop) (n : nat) :
  forall t1 t2 : itree E R, t1 ≅ t2 -> issues P Q n t1 -> issues P Q n t2.
Proof.
  induction n as [|n IH]; intros t1 t2 Heq H; [exact I|].
  cbn [issues] in *. apply eqit_inv in Heq. unfold observe in *.
  destruct (_observe t1) as [r1|u1|X1 e1 k1], (_observe t2) as [r2|u2|X2 e2 k2];
    cbn in Heq; try contradiction.
  - now subst.
  - now apply (IH u1).
  - destruct Heq as [p [He Hk]]. destruct p. cbn in He, Hk. subst e2.
    split; [exact (proj1 H)|]. intros a. apply (IH (k1 a)); [apply Hk | apply H].
Qed.

Lemma issues_Ret {R : Type} (Q : R -> Prop) (n : nat) (r : R) :
  Q r -> issues P Q n (Ret r).
Proof. destruct n; [exact (fun _ => I) | exact (fun H => H)]. Qed.

Lemma issues_weaken {R : Type} (Q Q' : R -> Prop) (n : nat) :
  (forall r, Q r -> Q' r) ->
  forall t : itree E R, issues P Q n t -> issues P Q' n t.
Proof.
  intros Himp. induction n as [|n IH]; intros t H; [exact I|].
  cbn [issues] in *. destruct (observe t) as [r|t'|X e k].
  - now apply Himp.
  - now apply IH.
  - split; [exact (proj1 H)|]. intros a. apply IH, H.
Qed.

Lemma issues_bind {A R : Type} (Q1 : A -> Prop) (Q : R -> Prop) (n : nat) :
  forall (t : itree E A) (k : A -> itree E R),
    issues P Q1 n t ->
    (forall a, Q1 a -> issues P Q n (k a)) ->
    issues P Q n (ITree.bind t k).
Proof.
  induction n as [|n IH]; intros t k Ht Hk; [exact I|].
  cbn [issues] in Ht |- *. rewrite observe_bind.
  destruct (observe t) as [r|t'|X e k'].
  - apply (Hk r Ht).
  - cbn. apply IH; [exact Ht|].
    intros a Ha. apply (issues_mono Q n (S n)); [now apply Hk | lia].
  - cbn. split; [exact (proj1 Ht)|]. intros x. apply IH; [apply Ht|].
    intros a Ha. apply (issues_mono Q n (S n)); [now apply Hk | lia].
Qed.

Lemma issues_trigger {A : Type} (Q : A -> Prop) (n : nat) (e : E A) :
  P A e -> (forall a, Q a) -> issues P Q n (ITree.trigger e).
Proof.
  intros He HQ. destruct n as [|n]; [exact I|]. cbn.
  split; [exact He|]. intros a. now apply issues_Ret.
Qed.

(** A loop whose body keeps the invariant [J] of its state. *)
Lemma issues_iter {I R : Type} (J : I -> Prop) (Q : R -> Prop)
    (body : I -> itree E (I + R)) :
  (forall i n, J i ->
     issues P (fun lr => match lr with inl i' => J i' | inr r => Q r end) n (body i)) ->
  forall (n : nat) (i : I), J i -> issues P Q n (ITree.iter body i).
Proof.
  intros Hbody n. induction n as [|n IH]; intros i Hi; [exact Logic.I|].
  apply (issues_eq_itree Q (S n) _ _ (symmetry (unfold_iter body i))).
  eapply issues_bind; [apply (Hbody i (S n) Hi)|].
  intros [i'|r] Hlr.
  - cbn. now apply IH.
  - exact Hlr.
Qed.

Context {St : Type}.
Variable h : forall A : Type, E A -> St -> option (St * A).
Variable Inv : St -> Prop.

(** A handler that answers every access satisfying [P] never refuses
    a tree that issues only such accesses. *)
Lemma run_issues {R : Type} (Q : R -> Prop) (n : nat) :
  (forall A (e : E A) s,
      P A e -> Inv s -> exists s' a, h A e s = Some (s', a) /\ Inv s') ->
  forall (t : itree E R) (s : St),
    issues P Q n t -> Inv s ->
    forall tr, run h n t s <> Fault tr.
Proof.
  intros Hh. induction n as [|n IH]; intros t s Ht Hs tr; [discriminate|].
  rewrite run_unfold. cbn [issues] in Ht.
  destruct (observe t) as [r|t'|X e k].
  - discriminate.
  - now apply IH.
  - destruct Ht as [He Hk].
    destruct (Hh X e s He Hs) as (s' & a & -> & Hs').
    pose proof (IH (k a) s' (Hk a) Hs') as Hrec.
    destruct (run h n (k a) s') as [? ? ?|tr0|?]; cbn; try discriminate.
    now destruct (Hrec tr0).
Qed.

End SafetyFacts.

Section InBounds.

Context {ValueType Backoff : Type}.

Lemma access_issues {A : Type} (mask : Z) (Q : A -> Prop) (n : nat)
    (e : queueE ValueType Backoff A) :
  within mask A e -> (forall a, Q a) -> issues (@within ValueType Backoff mask) Q n (ITree.trigger e).
Proof. apply issues_trigger. Qed.

Lemma wait_or_backoff_issues {R : Type} (mask slot : Z) (l : wait_locals Backoff)
    (Q : R -> Prop) (n : nat) :
  0 <= slot <= mask ->
  issues (@within ValueType Backoff mask)
    (fun lr : wait_locals Backoff + R =>
       match lr with inl _ => True | inr r => Q r end)
    n (wait_or_backoff slot l).
Proof.
  intros Hslot. unfold wait_or_backoff. destruct (waiting l).
  - eapply issues_bind; [apply (access_issues mask (fun _ => True)); [exact Hslot | easy]|].
    intros c _. now apply issues_Ret.
  - eapply issues_bind; [apply (access_issues mask (fun _ => True)); [exact I | easy]|].
    intros wb _.
    eapply issues_bind; [apply (access_issues mask (fun _ => True)); [exact Hslot | easy]|].
    intros c _. now apply issues_Ret.
Qed.

Lemma unless_finished_issues {I : Type} (mask required_ticket : Z)
    (otherwise : itree (queueE ValueType Backoff) (I + bool)) (n : nat) :
  (forall m, issues (@within ValueType Backoff mask) (fun _ => True) m otherwise) ->
  issues (@within ValueType Backoff mask) (fun _ => True) n (unless_finished required_ticket otherwise).
Proof.
  intros Ho. unfold unless_finished, Finished.
  eapply issues_bind; [apply (access_issues mask (fun _ => True)); [exact Logic.I | easy]|].
  intros [|] _; [|apply Ho].
  eapply issues_bind; [apply (access_issues mask (fun _ => True)); [exact Logic.I | easy]|].
  intros tail _. destruct (required_ticket >=? tail); [now apply issues_Ret | apply Ho].
Qed.

Lemma WaitTail_issues (mask slot required_ticket : Z) (backoff : option Backoff)
    (n : nat) :
  0 <= slot <= mask ->
  issues (@within ValueType Backoff mask) (fun _ => True) n
    (match backoff with
     | None => WaitTail slot required_ticket
     | Some b => WaitTail_backoff slot required_ticket b
     end).
Proof.
  intros Hslot. destruct backoff as [b|].
  - unfold WaitTail_backoff.
    eapply issues_bind; [apply (access_issues mask (fun _ => True)); [exact Hslot | easy]|].
    intros c _. apply (issues_iter _ (fun _ => True)); [|exact I].
    intros l m _. unfold WaitTail_backoff_iteration.
    destruct (current l =? u32 required_ticket); [now apply issues_Ret|].
    now apply wait_or_backoff_issues.
  - unfold WaitTail.
    eapply issues_bind; [apply (access_issues mask (fun _ => True)); [exact Hslot | easy]|].
    intros c _. apply (issues_iter _ (fun _ => True)); [|exact I].
    intros cur m _. unfold WaitTail_iteration.
    destruct (cur =? u32 required_ticket); [now apply issues_Ret|].
    eapply issues_bind; [apply (access_issues mask (fun _ => True)); [exact Hslot | easy]|].
    intros c' _. now apply issues_Ret.
Qed.

Lemma WaitHead_issues (mask slot required_ticket : Z) (backoff : option Backoff)
    (n : nat) :
  0 <= slot <= mask ->
  issues (@within ValueType Backoff mask) (fun _ => True) n
    (match backoff with
     | None => WaitHead slot required_ticket
     | Some b => WaitHead_backoff slot required_ticket b
     end).
Proof.
  intros Hslot. destruct backoff as [b|].
  - unfold WaitHead_backoff.
    eapply issues_bind; [apply (access_issues mask (fun _ => True)); [exact Hslot | easy]|].
    intros c _. apply (issues_iter _ (fun _ => True)); [|exact I].
    intros l m _. unfold WaitHead_backoff_iteration.
    destruct (current l =? u32 required_ticket); [now apply issues_Ret|].
    apply (issues_weaken _ (fun _ => True)); [now intros [|]|].
    apply unless_finished_issues. intros m'.
    apply (issues_weaken _ (fun lr : wait_locals Backoff + bool =>
                               match lr with inl _ => True | inr _ => True end));
      [easy|].
    now apply wait_or_backoff_issues.
  - unfold WaitHead.
    eapply issues_bind; [apply (access_issues mask (fun _ => True)); [exact Hslot | easy]|].
    intros c _. apply (issues_iter _ (fun _ => True)); [|exact I].
    intros cur m _. unfold WaitHead_iteration.
    destruct (cur =? u32 required_ticket); [now apply issues_Ret|].
    apply (issues_weaken _ (fun _ => True)); [now intros [|]|].
    apply unless_finished_issues. intros m'.
    eapply issues_bind; [apply (access_issues mask (fun _ => True)); [exact Hslot | easy]|].
    intros c' _. now apply issues_Ret.
Qed.

(** Every slot that [Enqueue], [Dequeue] and [Finish] name lies in
    [0 .. mask], whatever the answers they get. *)
Lemma Enqueue_issues (mask : Z) (x : ValueType) (backoff : option Backoff) (n : nat) :
  0 <= mask ->
  issues (@within ValueType Backoff mask) (fun _ => True) n (Enqueue mask x backoff).
Proof.
  intros Hmask. unfold Enqueue.
  eapply issues_bind; [apply (access_issues mask (fun _ => True)); [exact I | easy]|].
  intros tail _. cbv zeta.
  pose proof (land_mask_range tail mask Hmask) as Hslot.
  eapply issues_bind; [now apply WaitTail_issues|]. intros _ _.
  eapply issues_bind; [apply (access_issues mask (fun _ => True)); [exact Hslot | easy]|].
  intros _ _. unfold WakeHead.
  apply access_issues; [exact Hslot | easy].
Qed.

Lemma Dequeue_issues (mask : Z) (v : ValueType) (backoff : option Backoff) (n : nat) :
  0 <= mask ->
  issues (@within ValueType Backoff mask) (fun _ => True) n (Dequeue mask v backoff).
Proof.
  intros Hmask. unfold Dequeue.
  eapply issues_bind; [apply (access_issues mask (fun _ => True)); [exact I | easy]|].
  intros head _. cbv zeta.
  pose proof (land_mask_range head mask Hmask) as Hslot.
  eapply issues_bind; [now apply WaitHead_issues|]. intros ok _.
  destruct (negb ok); [now apply issues_Ret|].
  eapply issues_bind; [apply (access_issues mask (fun _ => True)); [exact Hslot | easy]|].
  intros y _. unfold WakeTail.
  eapply issues_bind; [apply (access_issues mask (fun _ => True)); [exact Hslot | easy]|].
  intros _ _. now apply issues_Ret.
Qed.

Lemma Finish_issues (mask : Z) (n : nat) :
  0 <= mask ->
  issues (@within ValueType Backoff mask)
    (fun _ => True) n (Finish mask).
Proof.
  intros Hmask. unfold Finish.
  eapply issues_bind; [apply (access_issues mask (fun _ => True)); [exact I | easy]|].
  intros _ _. apply (issues_iter _ (fun i => 0 <= i)); [|lia].
  intros i m Hi. unfold Finish_iteration.
  destruct (Z.ltb_spec i (u32 (mask + 1))) as [Hlt|]; [|now apply issues_Ret].
  eapply issues_bind.
  - apply (access_issues mask (fun _ => True)); [|easy].
    cbn. pose proof (Z.mod_le (mask + 1) (2 ^ 32) ltac:(lia) ltac:(lia)).
    unfold u32 in Hlt. lia.
  - intros _ _. apply issues_Ret. apply u32_range.
Qed.

Lemma is_call_issues (mask : Z) (t : thread ValueType Backoff) (n : nat) :
  0 <= mask -> is_call mask t -> issues (@within ValueType Backoff mask) (fun _ => True) n t.
Proof.
  intros Hmask [x b|v b|]; unfold call_Enqueue, call_Dequeue, call_Finish, ITree.map.
  - eapply issues_bind; [now apply Enqueue_issues|]. intros; now apply issues_Ret.
  - eapply issues_bind; [now apply Dequeue_issues|]. intros; now apply issues_Ret.
  - eapply issues_bind; [now apply Finish_issues|]. intros; now apply issues_Ret.
Qed.

End InBounds.

Section NoFault.

Context {ValueType Backoff : Type}.
Context (W : WaitType).
Variable moved_from : ValueType -> ValueType.
Variable call_backoff : Backoff -> bool * Backoff.

(** The handler answers every access that stays inside an intact ring,
    and leaves the ring intact. *)
Lemma handle_within (mask : Z) (A : Type) (e : queueE ValueType Backoff A)
    (q : BoundedQueue ValueType) :
  within mask A e -> intact mask q ->
  exists q' a,
    handle W moved_from call_backoff A e q = Some (q', a) /\
    intact mask q' /\ mask_ q' = mask_ q.
Proof.
  intros He Hq.
  assert (Hkeep : forall i f, 0 <= i -> intact mask (with_slot q i f)).
  { intros i f Hi j Hj. rewrite slot_at_with_slot by exact Hi.
    specialize (Hq j Hj).
    destruct (j =? i), (slot_at q j); cbn; congruence. }
  destruct e; cbn [handle]; unfold within in He; cbn [slot_of] in He;
    try (destruct (slot_at q i) as [sl|] eqn:Hslot; [|now destruct (Hq i He)]);
    try destruct c;
    try (do 2 eexists; split; [reflexivity|]; split; [exact Hq | reflexivity]);
    try (do 2 eexists; split; [reflexivity|]; split; [apply Hkeep; lia | reflexivity]).
Qed.

Lemma step_confined (mask : Z) (tid : nat) (sys : system ValueType Backoff) :
  confined mask sys ->
  (tid < length (threads sys))%nat ->
  exists sys' delta,
    step W moved_from call_backoff tid sys = Some sys' /\
    confined mask sys' /\
    length (threads sys') = length (threads sys) /\
    history sys' = history sys ++ delta /\
    Forall (fun p => in_ring mask (snd p)) delta.
Proof.
  intros (Hm & Hq & Hts) Htid. unfold step.
  destruct (nth_error (threads sys) tid) as [t|] eqn:Ht;
    [|apply nth_error_None in Ht; lia].
  pose proof (proj1 (Forall_forall _ _) Hts t (nth_error_In _ _ Ht)) as Hissues.
  destruct (observe t) as [r|t'|X e k] eqn:Hobs.
  - exists sys, []. rewrite app_nil_r. repeat split; auto.
  - eexists. exists []. split; [reflexivity|]. cbn [shared threads history].
    rewrite app_nil_r, update_length. repeat split; auto.
    apply Forall_update; [exact Hts|]. intros _ _ n.
    specialize (Hissues (S n)). cbn [issues] in Hissues. now rewrite Hobs in Hissues.
  - assert (He : within mask X e).
    { specialize (Hissues 1%nat). cbn [issues] in Hissues.
      rewrite Hobs in Hissues. apply Hissues. }
    destruct (handle_within mask X e (shared sys) He Hq) as (q' & a & -> & Hq' & Hm').
    eexists. exists [(tid, Obs e a)]. split; [reflexivity|].
    unfold confined. cbn [shared threads history]. rewrite update_length.
    split; [split; [congruence | split; [exact Hq'|]] | repeat split; auto].
    apply Forall_update; [exact Hts|]. intros _ _ n.
    specialize (Hissues (S n)). cbn [issues] in Hissues.
    rewrite Hobs in Hissues. apply Hissues.
Qed.

Lemma steps_confined (mask : Z) (tid : nat) (k : nat) :
  forall sys : system ValueType Backoff,
    confined mask sys ->
    (tid < length (threads sys))%nat ->
    exists sys' delta,
      steps W moved_from call_backoff k tid sys = Some sys' /\
      confined mask sys' /\
      length (threads sys') = length (threads sys) /\
      history sys' = history sys ++ delta /\
      Forall (fun p => in_ring mask (snd p)) delta.
Proof.
  induction k as [|k IH]; intros sys Hsys Htid; cbn [steps].
  - exists sys, []. rewrite app_nil_r. repeat split; auto; apply Hsys.
  - destruct (step_confined mask tid sys Hsys Htid)
      as (sys1 & d1 & -> & Hsys1 & Hlen1 & Hh1 & Hd1).
    destruct (IH sys1 Hsys1 ltac:(lia)) as (sys' & d2 & Hrun & Hsys' & Hlen' & Hh' & Hd2).
    exists sys', (d1 ++ d2). rewrite Hrun, Hh', Hh1, app_assoc.
    repeat split; try apply Hsys'; try lia. now apply Forall_app.
Qed.

Lemma schedule_confined (mask : Z) (plan : list (nat * nat)) :
  forall sys : system ValueType Backoff,
    confined mask sys ->
    Forall (fun p => (fst p < length (threads sys))%nat) plan ->
    exists sys' delta,
      schedule W moved_from call_backoff plan sys = Some sys' /\
      confined mask sys' /\
      history sys' = history sys ++ delta /\
      Forall (fun p => in_ring mask (snd p)) delta.
Proof.
  induction plan as [|[tid k] plan IH]; intros sys Hsys Hplan; cbn [schedule].
  - exists sys, []. rewrite app_nil_r. repeat split; auto; apply Hsys.
  - inversion Hplan as [|? ? Htid Hrest]; subst. cbn [fst] in Htid.
    destruct (steps_confined mask tid k sys Hsys Htid)
      as (sys1 & d1 & -> & Hsys1 & Hlen1 & Hh1 & Hd1).
    destruct (IH sys1 Hsys1) as (sys' & d2 & Hrun & Hsys' & Hh' & Hd2).
    { rewrite Hlen1. exact Hrest. }
    exists sys', (d1 ++ d2). rewrite Hrun, Hh', Hh1, app_assoc.
    repeat split; try apply Hsys'. now apply Forall_app.
Qed.

(** X10. No call leaves the ring.  Take any number of threads, each a
    call of [Enqueue], [Dequeue] or [Finish] on one queue whose ring has
    its slots [0 .. mask_] in place, and any schedule of them.  Every
    access is answered (no slot outside the ring is ever named, at any
    step of any interleaving), every slot named in the history lies in
    [0 .. mask_], and the ring and [mask_] are still in place
    afterwards. *)
Theorem calls_stay_inside_the_ring (plan : list (nat * nat))
    (sys : system ValueType Backoff) :
  0 <= mask_ (shared sys) ->
  intact (mask_ (shared sys)) (shared sys) ->
  Forall (is_call (mask_ (shared sys))) (threads sys) ->
  Forall (fun p => (fst p < length (threads sys))%nat) plan ->
  exists sys' delta,
    schedule W moved_from call_backoff plan sys = Some sys' /\
    mask_ (shared sys') = mask_ (shared sys) /\
    intact (mask_ (shared sys)) (shared sys') /\
    history sys' = history sys ++ delta /\
    Forall (fun p => in_ring (mask_ (shared sys)) (snd p)) delta.
Proof.
  intros Hmask Hq Hcalls Hplan.
  destruct (schedule_confined (mask_ (shared sys)) plan sys)
    as (sys' & delta & Hrun & (Hm' & Hq' & _) & Hh & Hd).
  - split; [reflexivity|]. split; [exact Hq|].
    apply Forall_forall. intros t Ht n.
    apply is_call_issues; [exact Hmask|].
    exact (proj1 (Forall_forall _ _) Hcalls t Ht).
  - exact Hplan.
  - now exists sys', delta.
Qed.

End NoFault.

Lemma calls_stay_inside_the_ring_witness :
  exists sys' delta,
    default_schedule full_ring_plan full_ring = Some sys' /\
    mask_ (shared sys') = mask_ (shared full_ring) /\
    intact (mask_ (shared full_ring)) (shared sys') /\
    history sys' = history full_ring ++ delta /\
    Forall (fun p => in_ring (mask_ (shared full_ring)) (snd p)) delta.
Proof.
  apply (calls_stay_inside_the_ring BoundedQueueNoWait (fun x => x) countdown
           full_ring_plan full_ring).
  - change (0 <= 1). lia.
  - change (intact 1 two_slots).
    intros i Hi. assert (Hcases : i = 0 \/ i = 1) by lia.
    destruct Hcases as [->| ->]; discriminate.
  - change (Forall (is_call 1) (threads full_ring)). repeat constructor.
  - repeat constructor; simpl; lia.
Defined.

(* ===================================================================== *)
(** ** Reservations are handed out once *)
(* ===================================================================== *)

Section Replay.

Context {E : Type -> Type} {St : Type}.
Variable h : forall A : Type, E A -> St -> option (St * A).

Lemma follows_app (tr1 tr2 : list (obs E)) (s s1 s2 : St) :
  follows h s tr1 s1 -> follows h s1 tr2 s2 -> follows h s (tr1 ++ tr2) s2.
Proof.
  intros H1 H2. induction H1 as [s|A e a s s' s1 tr Hh H1 IH]; [exact H2|].
  cbn [app]. econstructor; [exact Hh | now apply IH].
Qed.

End Replay.

Section Reservations.

Context {ValueType Backoff : Type}.
Context (W : WaitType).
Variable moved_from : ValueType -> ValueType.
Variable call_backoff : Backoff -> bool * Backoff.

(** The history of a schedule is one sequence of accesses to the shared
    queue, each answered by the queue as the accesses before it left
    it. *)
Lemma step_follows (tid : nat) (sys sys' : system ValueType Backoff) :
  step W moved_from call_backoff tid sys = Some sys' ->
  exists delta,
    history sys' = history sys ++ delta /\
    follows (handle W moved_from call_backoff) (shared sys) (List.map snd delta)
      (shared sys').
Proof.
  unfold step. intros Hstep.
  destruct (nth_error (threads sys) tid) as [t|]; [|discriminate].
  destruct (observe t) as [r|t'|X e k].
  - injection Hstep as <-. exists []. rewrite app_nil_r. split; [reflexivity|].
    constructor.
  - injection Hstep as <-. exists []. cbn. rewrite app_nil_r.
    split; [reflexivity|]. constructor.
  - destruct (handle W moved_from call_backoff X e (shared sys)) as [[q a]|] eqn:Hh;
      [|discriminate].
    injection Hstep as <-. exists [(tid, Obs e a)]. split; [reflexivity|].
    cbn. econstructor; [exact Hh | constructor].
Qed.

Lemma steps_follows (k : nat) :
  forall (tid : nat) (sys sys' : system ValueType Backoff),
    steps W moved_from call_backoff k tid sys = Some sys' ->
    exists delta,
      history sys' = history sys ++ delta /\
      follows (handle W moved_from call_backoff) (shared sys) (List.map snd delta)
        (shared sys').
Proof.
  induction k as [|k IH]; intros tid sys sys' Hsteps; cbn [steps] in Hsteps.
  - injection Hsteps as <-. exists []. rewrite app_nil_r. split; [reflexivity|].
    constructor.
  - destruct (step W moved_from call_backoff tid sys) as [sys1|] eqn:Hstep;
      [|discriminate].
    destruct (step_follows _ _ _ Hstep) as (d1 & Hh1 & Hr1).
    destruct (IH _ _ _ Hsteps) as (d2 & Hh2 & Hr2).
    exists (d1 ++ d2). split; [now rewrite Hh2, Hh1, app_assoc|].
    rewrite map_app. now apply (follows_app _ _ _ _ (shared sys1)).
Qed.

Lemma schedule_follows (plan : list (nat * nat)) :
  forall sys sys' : system ValueType Backoff,
    schedule W moved_from call_backoff plan sys = Some sys' ->
    exists delta,
      history sys' = history sys ++ delta /\
      follows (handle W moved_from call_backoff) (shared sys) (List.map snd delta)
        (shared sys').
Proof.
  induction plan as [|[tid k] plan IH]; intros sys sys' Hsched; cbn [schedule] in Hsched.
  - injection Hsched as <-. exists []. rewrite app_nil_r. split; [reflexivity|].
    constructor.
  - destruct (steps W moved_from call_backoff k tid sys) as [sys1|] eqn:Hsteps;
      [|discriminate].
    destruct (steps_follows _ _ _ _ Hsteps) as (d1 & Hh1 & Hr1).
    destruct (IH _ _ Hsched) as (d2 & Hh2 & Hr2).
    exists (d1 ++ d2). split; [now rewrite Hh2, Hh1, app_assoc|].
    rewrite map_app. now apply (follows_app _ _ _ _ (shared sys1)).
Qed.

(** One access: a fetch-add of [c] hands out the counter's value and
    advances it by one; nothing else moves the counter. *)
Lemma handle_reservation (c : counter) (A : Type) (e : queueE ValueType Backoff A)
    (q q' : BoundedQueue ValueType) (a : A) :
  handle W moved_from call_backoff A e q = Some (q', a) ->
  match reservation_of c (Obs e a) with
  | Some t => t = counter_of c q /\ counter_of c q' = u64 (counter_of c q + 1)
  | None => counter_of c q' = counter_of c q
  end.
Proof.
  destruct e; cbn [handle reservation_of];
    try (destruct (slot_at q i); [|discriminate]);
    try (destruct c0); destruct c; cbn [same_counter];
    intros Hh; injection Hh as <- <-; cbn; auto.
Qed.

(** Along any sequence of accesses a counter hands out consecutive
    reservations. *)
Lemma follows_reservations (c : counter) (q q' : BoundedQueue ValueType)
    (tr : trace ValueType Backoff) :
  follows (handle W moved_from call_backoff) q tr q' ->
  0 <= counter_of c q < 2 ^ 64 ->
  reservations c tr
  = List.map (fun i => u64 (counter_of c q + Z.of_nat i))
      (seq 0 (length (reservations c tr))) /\
  counter_of c q' = u64 (counter_of c q + Z.of_nat (length (reservations c tr))).
Proof.
  intros Hf. induction Hf as [q|A e a q q1 q2 tr Hh Hf IH]; intros Hq.
  - cbn. now rewrite Z.add_0_r, u64_small.
  - pose proof (handle_reservation c A e q q1 a Hh) as Hone.
    cbn [reservations].
    destruct (reservation_of c (Obs e a)) as [t|].
    + destruct Hone as [-> Hq1].
      destruct IH as [IHl IHc]; [rewrite Hq1; apply u64_range|].
      cbn [length seq List.map]. split.
      * rewrite Z.add_0_r, u64_small by assumption. f_equal.
        rewrite IHl at 1. rewrite <- seq_shift, List.map_map.
        apply List.map_ext. intros i. rewrite Hq1, u64_add_l. f_equal. lia.
      * rewrite IHc, Hq1, u64_add_l. f_equal. lia.
    + rewrite <- Hone. apply IH. now rewrite Hone.
Qed.

Lemma consecutive_NoDup (t : Z) (n : nat) :
  Z.of_nat n <= 2 ^ 64 ->
  NoDup (List.map (fun i => u64 (t + Z.of_nat i)) (seq 0 n)).
Proof.
  intros Hn. apply NoDup_map_NoDup_ForallPairs; [|apply seq_NoDup].
  intros i j Hi Hj Heq. apply in_seq in Hi, Hj.
  unfold u64 in Heq.
  assert (Hz : (Z.of_nat i - Z.of_nat j) mod 2 ^ 64 = 0).
  { replace (Z.of_nat i - Z.of_nat j) with ((t + Z.of_nat i) - (t + Z.of_nat j)) by lia.
    rewrite Zminus_mod, Heq, Z.sub_diag. reflexivity. }
  apply Z.mod_divide in Hz; [|lia]. destruct Hz as [k Hk]. nia.
Qed.

(** X11. Reservations are handed out once.  Under any schedule of any
    threads, the values that the fetch-adds of [tail_] (or of [head_])
    answer are, in the order of the history, the counter's first value,
    that plus one, and so on modulo [2^64], and the counter ends behind
    the last of them: no two of fewer than [2^64] reservations of one
    counter are the same. *)
Theorem reservations_are_consecutive (c : counter) (plan : list (nat * nat))
    (sys sys' : system ValueType Backoff) :
  0 <= counter_of c (shared sys) < 2 ^ 64 ->
  schedule W moved_from call_backoff plan sys = Some sys' ->
  exists delta,
    history sys' = history sys ++ delta /\
    let handed := reservations c (List.map snd delta) in
    handed = List.map (fun i => u64 (counter_of c (shared sys) + Z.of_nat i))
               (seq 0 (length handed)) /\
    counter_of c (shared sys')
    = u64 (counter_of c (shared sys) + Z.of_nat (length handed)) /\
    (Z.of_nat (length handed) <= 2 ^ 64 -> NoDup handed).
Proof.
  intros Hc Hsched.
  destruct (schedule_follows plan sys sys' Hsched) as (delta & Hh & Hf).
  exists delta. split; [exact Hh|]. cbv zeta.
  destruct (follows_reservations c _ _ _ Hf Hc) as [Hl Hq].
  split; [exact Hl|]. split; [exact Hq|].
  intros Hn. rewrite Hl. now apply consecutive_NoDup.
Qed.

End Reservations.

Lemma reservations_are_consecutive_witness :
  exists delta,
    history (match default_schedule full_ring_plan full_ring with
             | Some sys' => sys'
             | None => full_ring
             end) = history full_ring ++ delta /\
    let handed := reservations tail_counter (List.map snd delta) in
    handed = List.map (fun i => u64 (counter_of tail_counter (shared full_ring)
                                     + Z.of_nat i))
               (seq 0 (length handed)) /\
    counter_of tail_counter
      (shared (match default_schedule full_ring_plan full_ring with
               | Some sys' => sys'
               | None => full_ring
               end))
    = u64 (counter_of tail_counter (shared full_ring) + Z.of_nat (length handed)) /\
    (Z.of_nat (length handed) <= 2 ^ 64 -> NoDup handed).
Proof.
  apply (reservations_are_consecutive BoundedQueueNoWait (fun x => x) countdown
           tail_counter full_ring_plan full_ring).
  - simpl. lia.
  - vm_compute. reflexivity.
Defined.

(* ===================================================================== *)
(** ** What a consumer takes, a producer put *)
(* ===================================================================== *)

Section MonitorFacts.

Context {E : Type -> Type} {M : Type}.
Variable adv : M -> forall A : Type, E A -> A -> M -> Prop.

Lemma obeys_mono {R : Type} (Q : M -> R -> Prop) (k : nat) :
  forall (n : nat) (m : M) (t : itree E R),
    obeys adv Q n m t -> (k <= n)%nat -> obeys adv Q k m t.
Proof.
  induction k as [|k IH]; intros n m t H Hle; [exact I|].
  destruct n as [|n]; [lia|]. cbn [obeys] in *.
  destruct (observe t) as [r|t'|X e ke].
  - exact H.
  - apply (IH n); [exact H | lia].
  - intros a. destruct (H a) as (m' & Hadv & Hk).
    exists m'. split; [exact Hadv|]. apply (IH n); [exact Hk | lia].
Qed.

Lemma obeys_eq_itree {R : Type} (Q : M -> R -> Prop) (n : nat) :
  forall (m : M) (t1 t2 : itree E R),
    t1 ≅ t2 -> obeys adv Q n m t1 -> obeys adv Q n m t2.
Proof.
  induction n as [|n IH]; intros m t1 t2 Heq H; [exact I|].
  cbn [obeys] in *. apply eqit_inv in Heq. unfold observe in *.
  destruct (_observe t1) as [r1|u1|X1 e1 k1], (_observe t2) as [r2|u2|X2 e2 k2];
    cbn in Heq; try contradiction.
  - now subst.
  - now apply (IH m u1).
  - destruct Heq as [p [He Hk]]. destruct p. cbn in He, Hk. subst e2.
    intros a. destruct (H a) as (m' & Hadv & Hka).
    exists m'. split; [exact Hadv|]. apply (IH m' (k1 a)); [apply Hk | exact Hka].
Qed.

Lemma obeys_Ret {R : Type} (Q : M -> R -> Prop) (n : nat) (m : M) (r : R) :
  Q m r -> obeys adv Q n m (Ret r).
Proof. destruct n; [exact (fun _ => I) | exact (fun H => H)]. Qed.

Lemma obeys_weaken {R : Type} (Q Q' : M -> R -> Prop) (n : nat) :
  (forall m r, Q m r -> Q' m r) ->
  forall (m : M) (t : itree E R), obeys adv Q n m t -> obeys adv Q' n m t.
Proof.
  intros Himp. induction n as [|n IH]; intros m t H; [exact I|].
  cbn [obeys] in *. destruct (observe t) as [r|t'|X e k].
  - now apply Himp.
  - now apply IH.
  - intros a. destruct (H a) as (m' & Hadv & Hk).
    exists m'. split; [exact Hadv | now apply IH].
Qed.

Lemma obeys_bind {A R : Type} (Q1 : M -> A -> Prop) (Q : M -> R -> Prop) (n : nat) :
  forall (m : M) (t : itree E A) (k : A -> itree E R),
    obeys adv Q1 n m t ->
    (forall m' a, Q1 m' a -> obeys adv Q n m' (k a)) ->
    obeys adv Q n m (ITree.bind t k).
Proof.
  induction n as [|n IH]; intros m t k Ht Hk; [exact I|].
  cbn [obeys] in Ht |- *. rewrite observe_bind.
  destruct (observe t) as [r|t'|X e k'].
  - apply (Hk m r Ht).
  - cbn. apply IH; [exact Ht|].
    intros m' a Ha. apply (obeys_mono Q n (S n)); [now apply Hk | lia].
  - cbn. intros x. destruct (Ht x) as (m' & Hadv & Hk').
    exists m'. split; [exact Hadv|]. apply IH; [exact Hk'|].
    intros m'' a Ha. apply (obeys_mono Q n (S n)); [now apply Hk | lia].
Qed.

Lemma obeys_trigger {A : Type} (Q : M -> A -> Prop) (n : nat) (m : M) (e : E A) :
  (forall a, exists m', adv m A e a m' /\ Q m' a) ->
  obeys adv Q n m (ITree.trigger e).
Proof.
  intros He. destruct n as [|n]; [exact I|]. cbn.
  intros a. destruct (He a) as (m' & Hadv & Hq).
  exists m'. split; [exact Hadv | now apply obeys_Ret].
Qed.

(** A loop whose body keeps the invariant [J] between the stage and
    the loop's state. *)
Lemma obeys_iter {I R : Type} (J : M -> I -> Prop) (Q : M -> R -> Prop)
    (body : I -> itree E (I + R)) :
  (forall m i n, J m i ->
     obeys adv (fun m' lr => match lr with inl i' => J m' i' | inr r => Q m' r end)
       n m (body i)) ->
  forall (n : nat) (m : M) (i : I), J m i -> obeys adv Q n m (ITree.iter body i).
Proof.
  intros Hbody n. induction n as [|n IH]; intros m i Hi; [exact Logic.I|].
  apply (obeys_eq_itree Q (S n) m _ _ (symmetry (unfold_iter body i))).
  eapply obeys_bind; [apply (Hbody m i (S n) Hi)|].
  intros m' [i'|r] Hlr.
  - cbn. now apply IH.
  - exact Hlr.
Qed.

End MonitorFacts.

Section CallsObey.

Context {ValueType Backoff : Type}.

Lemma wait_or_backoff_obeys {R : Type} (mask slot : Z) (l : wait_locals Backoff)
    (s : stage ValueType) (next : Z -> stage ValueType)
    (J : stage ValueType -> wait_locals Backoff -> Prop) (Q : stage ValueType -> R -> Prop)
    (n : nat) :
  (forall c cur, advance ValueType Backoff mask s _ (SlotWaitAndLoad slot cur) c (next c)) ->
  (forall c, advance ValueType Backoff mask s _ (SlotLoad slot) c (next c)) ->
  (forall b wb, advance ValueType Backoff mask s _ (CallBackoff b) wb s) ->
  (forall c w b, J (next c) {| waiting := w; current := c; callable := b |}) ->
  obeys (advance ValueType Backoff mask)
    (fun s' (lr : wait_locals Backoff + R) =>
       match lr with inl l' => J s' l' | inr r => Q s' r end)
    n s (wait_or_backoff slot l).
Proof.
  intros Hwait Hload Hback HJ. unfold wait_or_backoff. destruct (waiting l).
  - eapply obeys_bind.
    + apply (obeys_trigger _ (fun s' c => s' = next c)).
      intros c. exists (next c). split; [apply Hwait | reflexivity].
    + intros s' c ->. apply obeys_Ret. apply HJ.
  - eapply obeys_bind.
    + apply (obeys_trigger _ (fun s' _ => s' = s)).
      intros wb. exists s. split; [apply Hback | reflexivity].
    + intros s' wb ->. eapply obeys_bind.
      * apply (obeys_trigger _ (fun s' c => s' = next c)).
        intros c. exists (next c). split; [apply Hload | reflexivity].
      * intros s' c ->. apply obeys_Ret. apply HJ.
Qed.

Lemma unless_finished_obeys {I : Type} (mask h required_ticket : Z)
    (otherwise : itree (queueE ValueType Backoff) (I + bool))
    (Q : stage ValueType -> I + bool -> Prop) (n : nat) :
  (forall m, obeys (advance ValueType Backoff mask) Q m (Dequeue_reserved h false) otherwise) ->
  Q (Dequeue_reserved h false) (inr false) ->
  obeys (advance ValueType Backoff mask) Q n (Dequeue_reserved h false)
    (unless_finished required_ticket otherwise).
Proof.
  intros Ho Hq. unfold unless_finished, Finished.
  eapply obeys_bind.
  - apply (obeys_trigger _ (fun s' _ => s' = Dequeue_reserved h false)).
    intros f. now exists (Dequeue_reserved h false).
  - intros s' [|] ->; [|apply Ho].
    eapply obeys_bind.
    + apply (obeys_trigger _ (fun s' _ => s' = Dequeue_reserved h false)).
      intros f. now exists (Dequeue_reserved h false).
    + intros s' tail ->.
      destruct (required_ticket >=? tail); [now apply obeys_Ret | apply Ho].
Qed.

Lemma WaitTail_obeys (mask : Z) (x : ValueType) (t : Z) (backoff : option Backoff)
    (n : nat) :
  obeys (advance ValueType Backoff mask) (fun s' _ => s' = Enqueue_reserved x t true) n
    (Enqueue_reserved x t false)
    (match backoff with
     | None => WaitTail (Z.land t mask) t
     | Some b => WaitTail_backoff (Z.land t mask) t b
     end).
Proof.
  destruct backoff as [b|].
  - unfold WaitTail_backoff. eapply obeys_bind.
    + apply (obeys_trigger _ (fun s' c => s' = Enqueue_reserved x t (c =? u32 t))).
      intros c. eexists. split; [cbn; split; reflexivity | reflexivity].
    + intros s' c ->.
      apply (obeys_iter _ (fun s' l => s' = Enqueue_reserved x t (current l =? u32 t)));
        [|reflexivity].
      intros s' l m ->. unfold WaitTail_backoff_iteration.
      destruct (current l =? u32 t); [now apply obeys_Ret|].
      apply (wait_or_backoff_obeys mask _ l _
               (fun c => Enqueue_reserved x t (c =? u32 t))); cbn; auto.
  - unfold WaitTail. eapply obeys_bind.
    + apply (obeys_trigger _ (fun s' c => s' = Enqueue_reserved x t (c =? u32 t))).
      intros c. eexists. split; [cbn; split; reflexivity | reflexivity].
    + intros s' c ->.
      apply (obeys_iter _ (fun s' cur => s' = Enqueue_reserved x t (cur =? u32 t)));
        [|reflexivity].
      intros s' cur m ->. unfold WaitTail_iteration.
      destruct (cur =? u32 t); [now apply obeys_Ret|].
      eapply obeys_bind.
      * apply (obeys_trigger _ (fun s' c => s' = Enqueue_reserved x t (c =? u32 t))).
        intros c'. eexists. split; [cbn; split; reflexivity | reflexivity].
      * intros s' c' ->. now apply obeys_Ret.
Qed.

Lemma WaitHead_obeys (mask h : Z) (backoff : option Backoff) (n : nat) :
  obeys (advance ValueType Backoff mask)
    (fun s' (ok : bool) => s' = Dequeue_reserved h ok) n
    (Dequeue_reserved h false)
    (match backoff with
     | None => WaitHead (Z.land h mask) (u64 (h + 1))
     | Some b => WaitHead_backoff (Z.land h mask) (u64 (h + 1)) b
     end).
Proof.
  destruct backoff as [b|].
  - unfold WaitHead_backoff. eapply obeys_bind.
    + apply (obeys_trigger _
               (fun s' c => s' = Dequeue_reserved h (c =? u32 (u64 (h + 1))))).
      intros c. eexists. split; [cbn; split; reflexivity | reflexivity].
    + intros s' c ->.
      apply (obeys_iter _
               (fun s' l => s' = Dequeue_reserved h (current l =? u32 (u64 (h + 1)))));
        [|reflexivity].
      intros s' l m ->. unfold WaitHead_backoff_iteration.
      destruct (current l =? u32 (u64 (h + 1))); [now apply obeys_Ret|].
      apply unless_finished_obeys; [|reflexivity].
      intros m'.
      apply (wait_or_backoff_obeys mask _ l _
               (fun c => Dequeue_reserved h (c =? u32 (u64 (h + 1))))); cbn; auto.
  - unfold WaitHead. eapply obeys_bind.
    + apply (obeys_trigger _
               (fun s' c => s' = Dequeue_reserved h (c =? u32 (u64 (h + 1))))).
      intros c. eexists. split; [cbn; split; reflexivity | reflexivity].
    + intros s' c ->.
      apply (obeys_iter _
               (fun s' cur => s' = Dequeue_reserved h (cur =? u32 (u64 (h + 1)))));
        [|reflexivity].
      intros s' cur m ->. unfold WaitHead_iteration.
      destruct (cur =? u32 (u64 (h + 1))); [now apply obeys_Ret|].
      apply unless_finished_obeys; [|reflexivity].
      intros m'. eapply obeys_bind.
      * apply (obeys_trigger _
                 (fun s' c => s' = Dequeue_reserved h (c =? u32 (u64 (h + 1))))).
        intros c'. eexists. split; [cbn; split; reflexivity | reflexivity].
      * intros s' c' ->. now apply obeys_Ret.
Qed.

Lemma Enqueue_obeys (mask : Z) (x : ValueType) (backoff : option Backoff) (n : nat) :
  obeys (advance ValueType Backoff mask) (fun _ _ => True) n (Enqueue_called x) (Enqueue mask x backoff).
Proof.
  unfold Enqueue. eapply obeys_bind.
  - apply (obeys_trigger _ (fun s' t => s' = Enqueue_reserved x t false)).
    intros t. eexists. split; [cbn; reflexivity | reflexivity].
  - intros s' t ->. cbv zeta. eapply obeys_bind; [apply (WaitTail_obeys mask x t)|].
    intros s' _ ->. eapply obeys_bind.
    + apply (obeys_trigger _ (fun s' _ => s' = Enqueue_assigned x t)).
      intros a. eexists. split; [cbn; repeat split | reflexivity].
    + intros s' _ ->. unfold WakeHead.
      apply obeys_trigger. intros a. eexists. split; [cbn; repeat split | exact I].
Qed.

Lemma Dequeue_obeys (mask : Z) (v : ValueType) (backoff : option Backoff) (n : nat) :
  obeys (advance ValueType Backoff mask)
    (fun s' r => fst r = true -> exists h, s' = Dequeue_released h (snd r)) n
    Dequeue_called (Dequeue mask v backoff).
Proof.
  unfold Dequeue. eapply obeys_bind.
  - apply (obeys_trigger _ (fun s' h => s' = Dequeue_reserved h false)).
    intros h. eexists. split; [cbn; reflexivity | reflexivity].
  - intros s' h ->. cbv zeta. eapply obeys_bind; [apply (WaitHead_obeys mask h)|].
    intros s' ok ->. destruct ok; cbn [negb]; [|now apply obeys_Ret].
    eapply obeys_bind.
    + apply (obeys_trigger _ (fun s' y => s' = Dequeue_moved h y)).
      intros y. eexists. split; [cbn; repeat split | reflexivity].
    + intros s' y ->. unfold WakeTail. eapply obeys_bind.
      * apply (obeys_trigger _ (fun s' _ => s' = Dequeue_released h y)).
        intros a. eexists. split; [cbn; repeat split | reflexivity].
      * intros s' _ ->. apply obeys_Ret. intros _. now exists h.
Qed.

Lemma Finish_obeys (mask : Z) (n : nat) :
  obeys (advance ValueType Backoff mask) (fun _ _ => True) n Finish_called (Finish mask).
Proof.
  unfold Finish. eapply obeys_bind.
  - apply (obeys_trigger _ (fun s' _ => s' = Finish_called)).
    intros a. now exists Finish_called.
  - intros s' _ ->.
    apply (obeys_iter _ (fun s' (_ : Z) => s' = Finish_called)); [|reflexivity].
    intros s' i m ->. unfold Finish_iteration.
    destruct (i <? u32 (mask + 1)); [|now apply obeys_Ret].
    eapply obeys_bind.
    + apply (obeys_trigger _ (fun s' _ => s' = Finish_called)).
      intros a. now exists Finish_called.
    + intros s' _ ->. now apply obeys_Ret.
Qed.

Lemma starts_at_obeys (mask : Z) (t : thread ValueType Backoff) (s : stage ValueType)
    (n : nat) :
  starts_at mask t s -> obeys (advance ValueType Backoff mask) returns_at n s t.
Proof.
  intros [x b|v b|]; unfold call_Enqueue, call_Dequeue, call_Finish, ITree.map.
  - eapply obeys_bind; [apply Enqueue_obeys|]. intros; now apply obeys_Ret.
  - eapply obeys_bind; [apply Dequeue_obeys|].
    intros s' [ok y] Hr. apply obeys_Ret. cbn [fst snd returns_at] in *.
    destruct ok; [now apply Hr | exact I].
  - eapply obeys_bind; [apply Finish_obeys|]. intros; now apply obeys_Ret.
Qed.

End CallsObey.

Lemma update_same {A : Type} (l : list A) :
  forall (n : nat) (x : A), nth_error l n = Some x -> update l n (fun _ => x) = l.
Proof.
  induction l as [|y l IH]; intros [|n] x H; cbn in *; try discriminate.
  - now injection H as ->.
  - f_equal. now apply IH.
Qed.

Lemma count_update {A : Type} (f : A -> bool) (l : list A) :
  forall (n : nat) (x y : A),
    nth_error l n = Some x ->
    Z.of_nat (length (filter f (update l n (fun _ => y)))) =
    Z.of_nat (length (filter f l)) + Z.b2z (f y) - Z.b2z (f x).
Proof.
  induction l as [|z l IH]; intros [|n] x y H; cbn [nth_error] in H; try discriminate.
  - injection H as ->. cbn [update filter].
    destruct (f y), (f x); cbn [length Z.b2z]; lia.
  - cbn [update filter]. specialize (IH n x y H).
    destruct (f z); cbn [length]; lia.
Qed.

Lemma mod_succ_ne (N a : Z) : 2 <= N -> (a + 1) mod N <> a mod N.
Proof.
  intros HN Heq.
  pose proof (Z.div_mod a N ltac:(lia)) as Ha.
  pose proof (Z.div_mod (a + 1) N ltac:(lia)) as Hb.
  pose proof (Z.mod_pos_bound a N ltac:(lia)).
  assert (N * ((a + 1) / N - a / N) = 1) by lia.
  assert ((a + 1) / N - a / N = 0 \/ 0 < (a + 1) / N - a / N \/ (a + 1) / N - a / N < 0)
    by lia.
  nia.
Qed.

Lemma mod_succ_inj (N a b : Z) :
  0 < N -> (a + 1) mod N = (b + 1) mod N -> a mod N = b mod N.
Proof.
  intros HN Heq.
  replace a with ((a + 1) + (-1)) by lia.
  replace b with ((b + 1) + (-1)) by lia.
  now rewrite <- (Zplus_mod_idemp_l (a + 1)), <- (Zplus_mod_idemp_l (b + 1)), Heq.
Qed.

Ltac at_thread Hs H :=
  rewrite nth_error_update in H;
  match type of H with
  | (if Nat.eqb ?i ?tid then _ else _) = _ =>
      destruct (Nat.eqb_spec i tid) as [?|?];
      [subst i; rewrite Hs in H; cbn [option_map] in H;
       injection H as ? | ]
  end.

Section Preserved.

Context {ValueType Backoff : Type}.
Variable moved_from : ValueType -> ValueType.
Variable call_backoff : Backoff -> bool * Backoff.
Variables N r0 : Z.
Hypothesis HN : power_of_two N.
Hypothesis HN2 : 2 <= N.
Hypothesis Hr0 : 0 <= r0.

Lemma consistent_ext (q q' : BoundedQueue ValueType) (ss : list (stage ValueType)) :
  (forall j, slot_at q' j = slot_at q j) ->
  head_ q' = head_ q -> tail_ q' = tail_ q ->
  consistent N r0 q ss -> consistent N r0 q' ss.
Proof.
  intros Hslot Hh Ht [C1 C2 C3 C4 C5 C6 C7 C8 C9].
  constructor; try rewrite Hh; try rewrite Ht; try assumption.
  - intros i s r c H1 H2. rewrite Hslot. eauto.
  - intros j Hj. rewrite Hslot. eauto.
  - intros i x t H1. rewrite Hslot. eauto.
Qed.

Lemma consistent_bounds (q : BoundedQueue ValueType) (ss : list (stage ValueType)) :
  consistent N r0 q ss ->
  r0 <= head_ q <= r0 + Z.of_nat (length ss) /\
  r0 <= tail_ q <= r0 + Z.of_nat (length ss).
Proof.
  intros [C1 _ _ _ _ _ _ _ _].
  pose proof (filter_length_le has_reserved ss). lia.
Qed.

(** The slot predicate after one call moved to another stage. *)
Lemma slot_ok_update (ss : list (stage ValueType)) (tid : nat) (s s' : stage ValueType)
    (sl : Slot ValueType) (j : Z) :
  nth_error ss tid = Some s ->
  (forall x t, s <> Enqueue_published x t) ->
  (ticket_ (wait sl) mod N = (j + 1) mod N ->
   forall y, s <> Dequeue_moved (ticket_ (wait sl) - 1) y) ->
  slot_ok N ss sl j -> slot_ok N (update ss tid (fun _ => s')) sl j.
Proof.
  intros Hs Hpub Hmov [Hc Hok]. split; [exact Hc|].
  destruct Hok as [Hfree|(Hheld & i & x & Hi & Hval)]; [now left|right].
  split; [exact Hheld|]. exists i, x. split.
  - rewrite nth_error_update. destruct (Nat.eqb_spec i tid) as [->|]; [|exact Hi].
    rewrite Hs in Hi. injection Hi as ->. now destruct (Hpub x (ticket_ (wait sl) - 1)).
  - intros Hnone. apply Hval. intros i' y Hi'.
    apply (Hnone i' y). rewrite nth_error_update.
    destruct (Nat.eqb_spec i' tid) as [->|]; [|exact Hi'].
    rewrite Hs in Hi'. injection Hi' as ->. now destruct (Hmov Hheld y).
Qed.

(** A call that reads the ticket of its slot. *)
Lemma consistent_read (q : BoundedQueue ValueType) (ss : list (stage ValueType))
    (tid : nat) (s s' : stage ValueType) :
  consistent N r0 q ss -> nth_error ss tid = Some s ->
  tail_reservation s' = tail_reservation s ->
  head_reservation s' = head_reservation s ->
  has_reserved s' = has_reserved s ->
  owns s = None ->
  (forall x t, s <> Enqueue_published x t) -> (forall x t, s' <> Enqueue_published x t) ->
  (forall h y, s' <> Dequeue_moved h y) -> (forall h y, s' <> Dequeue_released h y) ->
  (forall x t, s' <> Enqueue_assigned x t) ->
  (forall r c, owns s' = Some (r, c) ->
     exists sl, slot_at q (r mod N) = Some sl /\ ticket_ (wait sl) = c) ->
  consistent N r0 q (update ss tid (fun _ => s')).
Proof.
  intros [C1 C2 C3 C4 C5 C6 C7 C8 C9] Hs Htail Hhead Hres Hown Hpub Hpub' Hmov' Hrel' Hasg' Hsees.
  constructor.
  - rewrite (count_update _ _ _ _ _ Hs), Hres. lia.
  - intros i s1 t H1 H2. at_thread Hs H1; [subst s1; rewrite Htail in H2|]; eauto.
  - intros i s1 t H1 H2. at_thread Hs H1; [subst s1; rewrite Hhead in H2|]; eauto.
  - intros i j s1 s2 t H1 H2 H3 H4.
    at_thread Hs H1; at_thread Hs H2; subst; try rewrite Htail in *; eauto.
  - intros i j s1 s2 t H1 H2 H3 H4.
    at_thread Hs H1; at_thread Hs H2; subst; try rewrite Hhead in *; eauto.
  - intros i s1 r c H1 H2. at_thread Hs H1; [subst s1|]; eauto.
  - intros j Hj. destruct (C7 j Hj) as (sl & Hsl & Hok).
    exists sl. split; [exact Hsl|].
    apply (slot_ok_update ss tid s s' sl j Hs Hpub); [|exact Hok].
    intros _ y ->. discriminate.
  - intros i x t H1. at_thread Hs H1; [now destruct (Hasg' x t)|]; eauto.
  - intros i h y [H1|H1]; (at_thread Hs H1; [first [now destruct (Hmov' h y) | now destruct (Hrel' h y)]|]).
    + destruct (C9 i h y (or_introl H1)) as (i' & Hi'). exists i'.
      rewrite nth_error_update. destruct (Nat.eqb_spec i' tid) as [->|]; [|exact Hi'].
      rewrite Hs in Hi'. injection Hi' as ->. now destruct (Hpub y h).
    + destruct (C9 i h y (or_intror H1)) as (i' & Hi'). exists i'.
      rewrite nth_error_update. destruct (Nat.eqb_spec i' tid) as [->|]; [|exact Hi'].
      rewrite Hs in Hi'. injection Hi' as ->. now destruct (Hpub y h).
Qed.

Lemma published_kept (ss : list (stage ValueType)) (tid : nat) (s s' : stage ValueType)
    (i : nat) (y : ValueType) (h : Z) :
  nth_error ss tid = Some s ->
  (forall x t, s <> Enqueue_published x t) ->
  nth_error ss i = Some (Enqueue_published y h) ->
  nth_error (update ss tid (fun _ => s')) i = Some (Enqueue_published y h).
Proof.
  intros Hs Hpub Hi. rewrite nth_error_update.
  destruct (Nat.eqb_spec i tid) as [->|]; [|exact Hi].
  rewrite Hs in Hi. injection Hi as ->. now destruct (Hpub y h).
Qed.

Lemma taken_from_kept (ss : list (stage ValueType)) (tid : nat) (s s' : stage ValueType) :
  nth_error ss tid = Some s ->
  (forall x t, s <> Enqueue_published x t) ->
  (forall i h y,
     nth_error ss i = Some (Dequeue_moved h y) \/
     nth_error ss i = Some (Dequeue_released h y) ->
     exists i', nth_error ss i' = Some (Enqueue_published y h)) ->
  (forall h y, s' = Dequeue_moved h y \/ s' = Dequeue_released h y ->
     exists i', nth_error ss i' = Some (Enqueue_published y h)) ->
  forall i h y,
    nth_error (update ss tid (fun _ => s')) i = Some (Dequeue_moved h y) \/
    nth_error (update ss tid (fun _ => s')) i = Some (Dequeue_released h y) ->
    exists i', nth_error (update ss tid (fun _ => s')) i' = Some (Enqueue_published y h).
Proof.
  intros Hs Hpub C9 Hnew i h y Hi.
  assert (Hold : exists i', nth_error ss i' = Some (Enqueue_published y h)).
  { destruct Hi as [H1|H1]; at_thread Hs H1.
    - apply Hnew. now left.
    - apply (C9 i). now left.
    - apply Hnew. now right.
    - apply (C9 i). now right. }
  destruct Hold as (i' & Hi'). exists i'. now apply (published_kept ss tid s).
Qed.

Lemma slot_at_volatile (q : BoundedQueue ValueType) (head tail : Z) (finish : bool) (j : Z) :
  slot_at {| ring_ := ring_ q; mask_ := mask_ q; finish_ := finish;
             head_ := head; tail_ := tail |} j = slot_at q j.
Proof. reflexivity. Qed.

(** A producer draws its reservation. *)
Lemma consistent_reserve_tail (q : BoundedQueue ValueType) (ss : list (stage ValueType))
    (tid : nat) (x : ValueType) :
  r0 + Z.of_nat (length ss) + N < 2 ^ 32 ->
  consistent N r0 q ss -> nth_error ss tid = Some (Enqueue_called x) ->
  consistent N r0
    {| ring_ := ring_ q; mask_ := mask_ q; finish_ := finish_ q;
       head_ := head_ q; tail_ := u64 (tail_ q + 1) |}
    (update ss tid (fun _ => Enqueue_reserved x (tail_ q) false)).
Proof.
  intros Hlen Hc Hs. pose proof (consistent_bounds q ss Hc) as [Hbh Hbt].
  destruct Hc as [C1 C2 C3 C4 C5 C6 C7 C8 C9].
  assert (Htail : u64 (tail_ q + 1) = tail_ q + 1) by (apply u64_small; lia).
  constructor; cbn [head_ tail_]; try rewrite Htail.
  - rewrite (count_update _ _ _ _ _ Hs). cbn [has_reserved Z.b2z]. lia.
  - intros i s1 t H1 H2. at_thread Hs H1.
    + subst s1. cbn in H2. injection H2 as <-. lia.
    + specialize (C2 i s1 t H1 H2). lia.
  - intros i s1 t H1 H2. at_thread Hs H1; [subst s1; discriminate|]; eauto.
  - intros i j s1 s2 t H1 H2 H3 H4.
    at_thread Hs H1; at_thread Hs H2; subst; cbn in *; auto.
    + injection H3 as <-. specialize (C2 j s2 _ H2 H4). lia.
    + injection H4 as <-. specialize (C2 i s1 _ H1 H3). lia.
    + eauto.
  - intros i j s1 s2 t H1 H2 H3 H4.
    at_thread Hs H1; at_thread Hs H2; subst; try discriminate; eauto.
  - intros i s1 r c H1 H2. rewrite slot_at_volatile.
    at_thread Hs H1; [subst s1; discriminate|]; eauto.
  - intros j Hj. rewrite slot_at_volatile. destruct (C7 j Hj) as (sl & Hsl & Hok).
    exists sl. split; [exact Hsl|].
    apply (slot_ok_update ss tid _ _ sl j Hs); [discriminate| |exact Hok].
    intros _ y. discriminate.
  - intros i x' t H1. rewrite slot_at_volatile.
    at_thread Hs H1; [discriminate|]; eauto.
  - apply (taken_from_kept ss tid _ _ Hs); [discriminate | exact C9|].
    intros h y [?|?]; discriminate.
Qed.

(** A consumer draws its reservation. *)
Lemma consistent_reserve_head (q : BoundedQueue ValueType) (ss : list (stage ValueType))
    (tid : nat) :
  r0 + Z.of_nat (length ss) + N < 2 ^ 32 ->
  consistent N r0 q ss -> nth_error ss tid = Some Dequeue_called ->
  consistent N r0
    {| ring_ := ring_ q; mask_ := mask_ q; finish_ := finish_ q;
       head_ := u64 (head_ q + 1); tail_ := tail_ q |}
    (update ss tid (fun _ => Dequeue_reserved (head_ q) false)).
Proof.
  intros Hlen Hc Hs. pose proof (consistent_bounds q ss Hc) as [Hbh Hbt].
  destruct Hc as [C1 C2 C3 C4 C5 C6 C7 C8 C9].
  assert (Hhead : u64 (head_ q + 1) = head_ q + 1) by (apply u64_small; lia).
  constructor; cbn [head_ tail_]; try rewrite Hhead.
  - rewrite (count_update _ _ _ _ _ Hs). cbn [has_reserved Z.b2z]. lia.
  - intros i s1 t H1 H2. at_thread Hs H1; [subst s1; discriminate|]; eauto.
  - intros i s1 t H1 H2. at_thread Hs H1.
    + subst s1. cbn in H2. injection H2 as <-. lia.
    + specialize (C3 i s1 t H1 H2). lia.
  - intros i j s1 s2 t H1 H2 H3 H4.
    at_thread Hs H1; at_thread Hs H2; subst; try discriminate; eauto.
  - intros i j s1 s2 t H1 H2 H3 H4.
    at_thread Hs H1; at_thread Hs H2; subst; cbn in *; auto.
    + injection H3 as <-. specialize (C3 j s2 _ H2 H4). lia.
    + injection H4 as <-. specialize (C3 i s1 _ H1 H3). lia.
    + eauto.
  - intros i s1 r c H1 H2. rewrite slot_at_volatile.
    at_thread Hs H1; [subst s1; discriminate|]; eauto.
  - intros j Hj. rewrite slot_at_volatile. destruct (C7 j Hj) as (sl & Hsl & Hok).
    exists sl. split; [exact Hsl|].
    apply (slot_ok_update ss tid _ _ sl j Hs); [discriminate| |exact Hok].
    intros _ y. discriminate.
  - intros i x' t H1. rewrite slot_at_volatile.
    at_thread Hs H1; [discriminate|]; eauto.
  - apply (taken_from_kept ss tid _ _ Hs); [discriminate | exact C9|].
    intros h y [?|?]; discriminate.
Qed.

Lemma mod_slot (t : Z) : 0 <= t mod N < N.
Proof. apply Z.mod_pos_bound. lia. Qed.

(** A producer that owns its slot assigns the value. *)
Lemma consistent_assign (q : BoundedQueue ValueType) (ss : list (stage ValueType))
    (tid : nat) (x : ValueType) (t : Z) :
  r0 + Z.of_nat (length ss) + N < 2 ^ 32 ->
  consistent N r0 q ss -> nth_error ss tid = Some (Enqueue_reserved x t true) ->
  consistent N r0 (with_slot q (t mod N) (on_value (fun _ => x)))
    (update ss tid (fun _ => Enqueue_assigned x t)).
Proof.
  intros Hlen Hc Hs. pose proof (consistent_bounds q ss Hc) as [Hbh Hbt].
  destruct Hc as [C1 C2 C3 C4 C5 C6 C7 C8 C9].
  pose proof (mod_slot t) as Hj.
  pose proof (C2 tid _ t Hs eq_refl) as Ht.
  destruct (C6 tid _ t (u32 t) Hs eq_refl) as (sl0 & Hsl0 & Htk0).
  rewrite u32_small in Htk0 by lia.
  constructor; cbn [head_ tail_ with_slot].
  - rewrite (count_update _ _ _ _ _ Hs). cbn [has_reserved Z.b2z]. lia.
  - intros i s1 t1 H1 H2. at_thread Hs H1; [subst s1|]; eauto.
  - intros i s1 t1 H1 H2. at_thread Hs H1; [subst s1; discriminate|]; eauto.
  - intros i j s1 s2 t1 H1 H2 H3 H4.
    at_thread Hs H1; at_thread Hs H2; subst; eauto.
  - intros i j s1 s2 t1 H1 H2 H3 H4.
    at_thread Hs H1; at_thread Hs H2; subst; try discriminate; eauto.
  - intros i s1 r c H1 H2.
    assert (Hold : exists sl, slot_at q (r mod N) = Some sl /\ ticket_ (wait sl) = c).
    { at_thread Hs H1; [subst s1|]; eauto. }
    destruct Hold as (sl & Hsl & Htk).
    rewrite slot_at_with_slot, Hsl by lia.
    destruct (r mod N =? t mod N); eexists; (split; [reflexivity | exact Htk]).
  - intros j Hjr. destruct (C7 j Hjr) as (sl & Hsl & Hok).
    rewrite slot_at_with_slot, Hsl by lia.
    destruct (Z.eqb_spec j (t mod N)) as [->|Hne]; eexists; (split; [reflexivity|]).
    + rewrite Hsl0 in Hsl. injection Hsl as <-.
      split; cbn [on_value wait]; rewrite Htk0; [lia | now left].
    + apply (slot_ok_update ss tid _ _ sl j Hs); [discriminate| |exact Hok].
      intros _ y. discriminate.
  - intros i x1 t1 H1. at_thread Hs H1.
    + subst x1 t1.
      rewrite slot_at_with_slot, Hsl0, Z.eqb_refl by lia. eexists. split; reflexivity.
    + destruct (C8 i x1 t1 H1) as (sl & Hsl & Hval).
      rewrite slot_at_with_slot, Hsl by lia.
      destruct (Z.eqb_spec (t1 mod N) (t mod N)) as [Heq|Hne];
        [|eexists; split; [reflexivity | exact Hval]].
      exfalso.
      destruct (C6 i _ t1 (u32 t1) H1 eq_refl) as (sl1 & Hsl1 & Htk1).
      pose proof (C2 i _ t1 H1 eq_refl) as Ht1.
      rewrite u32_small in Htk1 by lia.
      rewrite Heq, Hsl0 in Hsl1. injection Hsl1 as <-.
      assert (Heqt : t1 = t) by lia. rewrite Heqt in H1.
      now pose proof (C4 i tid _ _ t H1 Hs eq_refl eq_refl).
  - apply (taken_from_kept ss tid _ _ Hs); [discriminate | exact C9|].
    intros h y [?|?]; discriminate.
Qed.

(** What the owner of a slot knows of another owner of the same slot. *)
Lemma owners_ticket (q : BoundedQueue ValueType) (ss : list (stage ValueType))
    (i : nat) (s : stage ValueType) (r c : Z) :
  r0 + Z.of_nat (length ss) + N < 2 ^ 32 ->
  consistent N r0 q ss -> nth_error ss i = Some s -> owns s = Some (r, c) ->
  (tail_reservation s = Some r /\ c = r) \/ (head_reservation s = Some r /\ c = r + 1).
Proof.
  intros Hlen Hc Hs Hown. pose proof (consistent_bounds q ss Hc) as [Hbh Hbt].
  destruct s as [x|x t [|]|x t|x t| |h [|]|h y|h y|]; cbn in Hown; try discriminate;
    injection Hown as <- <-.
  - pose proof (tails_in_range _ _ _ _ Hc i _ t Hs eq_refl).
    left. split; [reflexivity | apply u32_small; lia].
  - pose proof (tails_in_range _ _ _ _ Hc i _ t Hs eq_refl).
    left. split; [reflexivity | apply u32_small; lia].
  - pose proof (heads_in_range _ _ _ _ Hc i _ h Hs eq_refl).
    right. split; [reflexivity|]. rewrite u32_u64. apply u32_small; lia.
  - pose proof (heads_in_range _ _ _ _ Hc i _ h Hs eq_refl).
    right. split; [reflexivity|]. rewrite u32_u64. apply u32_small; lia.
Qed.

(** A producer publishes its slot. *)
Lemma consistent_publish (q : BoundedQueue ValueType) (ss : list (stage ValueType))
    (tid : nat) (x : ValueType) (t : Z) :
  r0 + Z.of_nat (length ss) + N < 2 ^ 32 ->
  consistent N r0 q ss -> nth_error ss tid = Some (Enqueue_assigned x t) ->
  consistent N r0 (with_slot q (t mod N) (on_wait (Store (t + 1))))
    (update ss tid (fun _ => Enqueue_published x t)).
Proof.
  intros Hlen Hc Hs. pose proof (consistent_bounds q ss Hc) as [Hbh Hbt].
  pose proof (owners_ticket q ss) as Hown.
  destruct Hc as [C1 C2 C3 C4 C5 C6 C7 C8 C9].
  pose proof (mod_slot t) as Hj.
  pose proof (C2 tid _ t Hs eq_refl) as Ht.
  destruct (C6 tid _ t (u32 t) Hs eq_refl) as (sl0 & Hsl0 & Htk0).
  rewrite u32_small in Htk0 by lia.
  destruct (C8 tid x t Hs) as (sl0' & Hsl0' & Hval0).
  rewrite Hsl0 in Hsl0'. injection Hsl0' as <-.
  constructor; cbn [head_ tail_ with_slot].
  - rewrite (count_update _ _ _ _ _ Hs). cbn [has_reserved Z.b2z]. lia.
  - intros i s1 t1 H1 H2. at_thread Hs H1; [subst s1|]; eauto.
  - intros i s1 t1 H1 H2. at_thread Hs H1; [subst s1; discriminate|]; eauto.
  - intros i j s1 s2 t1 H1 H2 H3 H4.
    at_thread Hs H1; at_thread Hs H2; subst; eauto.
  - intros i j s1 s2 t1 H1 H2 H3 H4.
    at_thread Hs H1; at_thread Hs H2; subst; try discriminate; eauto.
  - intros i s1 r c H1 H2. at_thread Hs H1; [subst s1; discriminate|].
    destruct (C6 i s1 r c H1 H2) as (sl & Hsl & Htk).
    rewrite slot_at_with_slot, Hsl by lia.
    destruct (Z.eqb_spec (r mod N) (t mod N)) as [Heq|Hne];
      [|eexists; split; [reflexivity | exact Htk]].
    exfalso. rewrite Heq, Hsl0 in Hsl. injection Hsl as <-.
    destruct (Hown i s1 r c Hlen) as [[Hres Hcr]|[Hres Hcr]]; auto.
    + constructor; assumption.
    + assert (Hrt : r = t) by lia. rewrite Hrt in Hres.
      now pose proof (C4 i tid _ _ t H1 Hs Hres eq_refl).
    + assert (Hrt : t = r + 1) by lia. rewrite Hrt in Heq.
      now apply (mod_succ_ne N r HN2).
  - intros j Hjr. destruct (C7 j Hjr) as (sl & Hsl & Hok).
    rewrite slot_at_with_slot, Hsl by lia.
    destruct (Z.eqb_spec j (t mod N)) as [->|Hne]; eexists; (split; [reflexivity|]).
    + rewrite Hsl0 in Hsl. injection Hsl as <-.
      split; cbn [on_wait wait value Store ticket_]; [lia|right]. split.
      * now rewrite Zplus_mod_idemp_l.
      * exists tid, x. split; [|intros _; exact Hval0].
        rewrite nth_error_update, Nat.eqb_refl, Hs. cbn. do 2 f_equal. lia.
    + apply (slot_ok_update ss tid _ _ sl j Hs); [discriminate| |].
      * intros _ y. discriminate.
      * destruct Hok as [Hc Hok]. split; [exact Hc|exact Hok].
  - intros i x1 t1 H1. at_thread Hs H1; [discriminate|].
    destruct (C8 i x1 t1 H1) as (sl & Hsl & Hval).
    rewrite slot_at_with_slot, Hsl by lia.
    destruct (t1 mod N =? t mod N); eexists; (split; [reflexivity | exact Hval]).
  - apply (taken_from_kept ss tid _ _ Hs); [discriminate | exact C9|].
    intros h y [?|?]; discriminate.
Qed.

(** A consumer that owns its slot moves the value out. *)
Lemma consistent_move (q : BoundedQueue ValueType) (ss : list (stage ValueType))
    (tid : nat) (h : Z) (sl0 : Slot ValueType) :
  r0 + Z.of_nat (length ss) + N < 2 ^ 32 ->
  consistent N r0 q ss -> nth_error ss tid = Some (Dequeue_reserved h true) ->
  slot_at q (h mod N) = Some sl0 ->
  consistent N r0 (with_slot q (h mod N) (on_value moved_from))
    (update ss tid (fun _ => Dequeue_moved h (value sl0))).
Proof.
  intros Hlen Hc Hs Hsl0. pose proof (consistent_bounds q ss Hc) as [Hbh Hbt].
  pose proof (owners_ticket q ss) as Hown.
  destruct Hc as [C1 C2 C3 C4 C5 C6 C7 C8 C9].
  pose proof (mod_slot h) as Hj.
  pose proof (C3 tid _ h Hs eq_refl) as Hh.
  destruct (C6 tid _ h _ Hs eq_refl) as (sl0' & Hsl0' & Htk0).
  rewrite Hsl0 in Hsl0'. injection Hsl0' as <-.
  rewrite u32_u64, u32_small in Htk0 by lia.
  assert (Hpub : exists i, nth_error ss i = Some (Enqueue_published (value sl0) h)).
  { destruct (C7 (h mod N) Hj) as (sl & Hsl & Hc & Hok).
    rewrite Hsl0 in Hsl. injection Hsl as <-. rewrite Htk0 in Hok.
    destruct Hok as [Hfree|(_ & i & x & Hi & Hval)];
      [now destruct (mod_succ_ne N h HN2)|].
    replace (h + 1 - 1) with h in * by lia.
    exists i. rewrite Hval; [exact Hi|].
    intros i' y Hi'.
    pose proof (C5 i' tid _ _ h Hi' Hs eq_refl eq_refl). subst i'.
    rewrite Hs in Hi'. discriminate. }
  constructor; cbn [head_ tail_ with_slot].
  - rewrite (count_update _ _ _ _ _ Hs). cbn [has_reserved Z.b2z]. lia.
  - intros i s1 t1 H1 H2. at_thread Hs H1; [subst s1; discriminate|]; eauto.
  - intros i s1 t1 H1 H2. at_thread Hs H1; [subst s1|]; eauto.
  - intros i j s1 s2 t1 H1 H2 H3 H4.
    at_thread Hs H1; at_thread Hs H2; subst; try discriminate; eauto.
  - intros i j s1 s2 t1 H1 H2 H3 H4.
    at_thread Hs H1; at_thread Hs H2; subst; eauto.
  - intros i s1 r c H1 H2.
    assert (Hold : exists sl, slot_at q (r mod N) = Some sl /\ ticket_ (wait sl) = c).
    { at_thread Hs H1; [subst s1|]; eauto. }
    destruct Hold as (sl & Hsl & Htk).
    rewrite slot_at_with_slot, Hsl by lia.
    destruct (r mod N =? h mod N); eexists; (split; [reflexivity | exact Htk]).
  - intros j Hjr. destruct (C7 j Hjr) as (sl & Hsl & Hok).
    rewrite slot_at_with_slot, Hsl by lia.
    destruct (Z.eqb_spec j (h mod N)) as [->|Hne]; eexists; (split; [reflexivity|]).
    + rewrite Hsl0 in Hsl. injection Hsl as <-.
      destruct Hpub as (i & Hi).
      split; cbn [on_value wait]; rewrite Htk0; [lia|right].
      split; [now rewrite Zplus_mod_idemp_l|].
      exists i, (value sl0).
      replace (h + 1 - 1) with h by lia. split.
      * apply (published_kept ss tid _ _ i _ _ Hs); [discriminate | exact Hi].
      * intros Hnone. exfalso. apply (Hnone tid (value sl0)).
        now rewrite nth_error_update, Nat.eqb_refl, Hs.
    + apply (slot_ok_update ss tid _ _ sl j Hs); [discriminate| |exact Hok].
      intros _ y. discriminate.
  - intros i x1 t1 H1. at_thread Hs H1; [discriminate|].
    destruct (C8 i x1 t1 H1) as (sl & Hsl & Hval).
    rewrite slot_at_with_slot, Hsl by lia.
    destruct (Z.eqb_spec (t1 mod N) (h mod N)) as [Heq|Hne];
      [|eexists; split; [reflexivity | exact Hval]].
    exfalso.
    destruct (C6 i _ t1 (u32 t1) H1 eq_refl) as (sl1 & Hsl1 & Htk1).
    rewrite Heq, Hsl0 in Hsl1. injection Hsl1 as <-.
    destruct (Hown i (Enqueue_assigned x1 t1) t1 (u32 t1) Hlen) as [[_ Hcr]|[Hres _]];
      [constructor; assumption | exact H1 | reflexivity | | discriminate].
    assert (Hrt : t1 = h + 1) by lia. rewrite Hrt in Heq.
    now apply (mod_succ_ne N h HN2).
  - apply (taken_from_kept ss tid _ _ Hs); [discriminate | exact C9|].
    intros h' y [Heq|?]; [|discriminate]. injection Heq as <- <-. exact Hpub.
Qed.

(** A consumer hands its slot to the producer one lap ahead. *)
Lemma consistent_release (q : BoundedQueue ValueType) (ss : list (stage ValueType))
    (tid : nat) (h : Z) (y : ValueType) :
  r0 + Z.of_nat (length ss) + N < 2 ^ 32 ->
  consistent N r0 q ss -> nth_error ss tid = Some (Dequeue_moved h y) ->
  consistent N r0 (with_slot q (h mod N) (on_wait (Store (h + N))))
    (update ss tid (fun _ => Dequeue_released h y)).
Proof.
  intros Hlen Hc Hs. pose proof (consistent_bounds q ss Hc) as [Hbh Hbt].
  pose proof (owners_ticket q ss) as Hown.
  destruct Hc as [C1 C2 C3 C4 C5 C6 C7 C8 C9].
  pose proof (mod_slot h) as Hj.
  pose proof (C3 tid _ h Hs eq_refl) as Hh.
  destruct (C6 tid _ h _ Hs eq_refl) as (sl0 & Hsl0 & Htk0).
  rewrite u32_u64, u32_small in Htk0 by lia.
  constructor; cbn [head_ tail_ with_slot].
  - rewrite (count_update _ _ _ _ _ Hs). cbn [has_reserved Z.b2z]. lia.
  - intros i s1 t1 H1 H2. at_thread Hs H1; [subst s1; discriminate|]; eauto.
  - intros i s1 t1 H1 H2. at_thread Hs H1; [subst s1|]; eauto.
  - intros i j s1 s2 t1 H1 H2 H3 H4.
    at_thread Hs H1; at_thread Hs H2; subst; try discriminate; eauto.
  - intros i j s1 s2 t1 H1 H2 H3 H4.
    at_thread Hs H1; at_thread Hs H2; subst; eauto.
  - intros i s1 r c H1 H2. at_thread Hs H1; [subst s1; discriminate|].
    destruct (C6 i s1 r c H1 H2) as (sl & Hsl & Htk).
    rewrite slot_at_with_slot, Hsl by lia.
    destruct (Z.eqb_spec (r mod N) (h mod N)) as [Heq|Hne];
      [|eexists; split; [reflexivity | exact Htk]].
    exfalso. rewrite Heq, Hsl0 in Hsl. injection Hsl as <-.
    destruct (Hown i s1 r c Hlen) as [[Hres Hcr]|[Hres Hcr]]; auto.
    + constructor; assumption.
    + assert (Hrt : r = h + 1) by lia. rewrite Hrt in Heq.
      now apply (mod_succ_ne N h HN2).
    + assert (Hrt : r = h) by lia. rewrite Hrt in Hres.
      now pose proof (C5 i tid _ _ h H1 Hs Hres eq_refl).
  - intros j Hjr. destruct (C7 j Hjr) as (sl & Hsl & Hok).
    rewrite slot_at_with_slot, Hsl by lia.
    destruct (Z.eqb_spec j (h mod N)) as [->|Hne]; eexists; (split; [reflexivity|]).
    + split; cbn [on_wait wait value Store ticket_]; [lia|left].
      rewrite <- (Z.mul_1_l N) at 1. apply Z.mod_add. lia.
    + apply (slot_ok_update ss tid _ _ sl j Hs); [discriminate| |exact Hok].
      intros Hheld y' Heq. injection Heq as Hh' _. apply Hne.
      rewrite Hh' in Hj |- *.
      replace (ticket_ (wait sl)) with (ticket_ (wait sl) - 1 + 1) in Hheld by lia.
      apply mod_succ_inj in Hheld; [|lia].
      rewrite Hheld. symmetry. apply Z.mod_small. exact Hjr.
  - intros i x1 t1 H1. at_thread Hs H1; [discriminate|].
    destruct (C8 i x1 t1 H1) as (sl & Hsl & Hval).
    rewrite slot_at_with_slot, Hsl by lia.
    destruct (t1 mod N =? h mod N); eexists; (split; [reflexivity | exact Hval]).
  - apply (taken_from_kept ss tid _ _ Hs); [discriminate | exact C9|].
    intros h' y' [?|Heq]; [discriminate|]. injection Heq as <- <-.
    apply (C9 tid). now left.
Qed.

(** Waking a slot leaves it as it is. *)
Lemma slot_at_Wake (q : BoundedQueue ValueType) (i j : Z) (sl : Slot ValueType) :
  slot_at q i = Some sl ->
  slot_at (with_slot q i (on_wait (@Wake BoundedQueueNoWait))) j = slot_at q j.
Proof.
  intros Hsl. pose proof (slot_at_nonneg q i sl Hsl) as Hi.
  rewrite slot_at_with_slot by exact Hi.
  destruct (Z.eqb_spec j i) as [->|]; [|reflexivity].
  rewrite Hsl. cbn. now destruct sl as [[tk] v].
Qed.

(** One access of one call, made as its stage allows, keeps the queue
    and the stages consistent. *)
Lemma advance_consistent (q q' : BoundedQueue ValueType) (ss : list (stage ValueType))
    (tid : nat) (s s' : stage ValueType) (A : Type) (e : queueE ValueType Backoff A)
    (a : A) :
  r0 + Z.of_nat (length ss) + N < 2 ^ 32 ->
  consistent N r0 q ss -> nth_error ss tid = Some s ->
  advance ValueType Backoff (N - 1) s A e a s' ->
  handle BoundedQueueNoWait moved_from call_backoff A e q = Some (q', a) ->
  consistent N r0 q' (update ss tid (fun _ => s')).
Proof.
  intros Hlen Hc Hs Hadv Hh. pose proof (consistent_bounds q ss Hc) as [Hbh Hbt].
  destruct e; cbn [advance handle] in Hadv, Hh.
  - (* FetchAdd *)
    destruct s as [x|x t [|]|x t|x t| |h [|]|h y|h y|]; try contradiction;
      destruct c, mo; try contradiction; subst s';
      injection Hh as <- <-.
    + now apply consistent_reserve_tail.
    + now apply consistent_reserve_head.
  - (* CounterLoad *)
    destruct s as [x|x t [|]|x t|x t| |h [|]|h y|h y|]; try contradiction;
      destruct c, mo; try contradiction; subst s';
      injection Hh as <- <-.
    now rewrite (update_same ss tid _ Hs).
  - (* FinishLoad *)
    destruct s as [x|x t [|]|x t|x t| |h [|]|h y|h y|]; try contradiction; subst s'.
    injection Hh as <- <-. now rewrite (update_same ss tid _ Hs).
  - (* FinishStore *)
    destruct s as [x|x t [|]|x t|x t| |h [|]|h y|h y|]; try contradiction; subst s'.
    injection Hh as <- <-. rewrite (update_same ss tid _ Hs).
    now apply (consistent_ext q).
  - (* SlotLoad *)
    destruct s as [x|x t [|]|x t|x t| |h [|]|h y|h y|]; try contradiction;
      destruct Hadv as [-> ->];
      rewrite (land_mask_mod N _ HN) in Hh;
      (destruct (slot_at q _) as [sl|] eqn:Hsl; [|discriminate]);
      injection Hh as <- <-;
      apply (consistent_read q ss tid _ _ Hc Hs);
        try reflexivity; try discriminate.
    + intros r c Hown. cbn [owns] in Hown.
      destruct (Z.eqb_spec (Load (wait sl)) (u32 t)) as [Heq|]; [|discriminate].
      injection Hown as <- <-. now exists sl.
    + intros r c Hown. cbn [owns] in Hown.
      destruct (Z.eqb_spec (Load (wait sl)) (u32 (u64 (h + 1)))) as [Heq|]; [|discriminate].
      injection Hown as <- <-. now exists sl.
  - (* SlotWaitAndLoad *)
    destruct s as [x|x t [|]|x t|x t| |h [|]|h y|h y|]; try contradiction;
      destruct Hadv as [-> ->];
      rewrite (land_mask_mod N _ HN) in Hh;
      (destruct (slot_at q _) as [sl|] eqn:Hsl; [|discriminate]);
      injection Hh as <- <-;
      apply (consistent_read q ss tid _ _ Hc Hs);
        try reflexivity; try discriminate.
    + intros r c Hown. cbn [owns] in Hown.
      destruct (Z.eqb_spec (Load (wait sl)) (u32 t)) as [Heq|]; [|discriminate].
      injection Hown as <- <-. now exists sl.
    + intros r c Hown. cbn [owns] in Hown.
      destruct (Z.eqb_spec (Load (wait sl)) (u32 (u64 (h + 1)))) as [Heq|]; [|discriminate].
      injection Hown as <- <-. now exists sl.
  - (* SlotStoreAndWake *)
    destruct s as [x|x t [|]|x t|x t| |h [|]|h y|h y|]; try contradiction;
      destruct Hadv as (-> & -> & ->);
      rewrite (land_mask_mod N _ HN) in Hh;
      (destruct (slot_at q _) as [sl|] eqn:Hsl; [|discriminate]);
      injection Hh as <-.
    + pose proof (tails_in_range _ _ _ _ Hc tid _ t Hs eq_refl) as Ht.
      rewrite u32_u64, u32_small by lia.
      now apply consistent_publish.
    + pose proof (heads_in_range _ _ _ _ Hc tid _ h Hs eq_refl) as Hhd.
      rewrite u32_wake_tail, u32_small by lia.
      replace (h + (N - 1 + 1)) with (h + N) by lia.
      now apply consistent_release.
  - (* SlotWake *)
    destruct s as [x|x t [|]|x t|x t| |h [|]|h y|h y|]; try contradiction; subst s'.
    destruct (slot_at q i) as [sl|] eqn:Hsl; [|discriminate].
    injection Hh as <-. rewrite (update_same ss tid _ Hs).
    apply (consistent_ext q); [|reflexivity|reflexivity|exact Hc].
    intros j. now apply (slot_at_Wake q i j sl).
  - (* SlotAssign *)
    destruct s as [x0|x0 t [|]|x0 t|x0 t| |h [|]|h y|h y|]; try contradiction;
      destruct Hadv as (-> & -> & ->);
      rewrite (land_mask_mod N _ HN) in Hh;
      (destruct (slot_at q _) as [sl|] eqn:Hsl; [|discriminate]);
      injection Hh as <-.
    now apply consistent_assign.
  - (* SlotMove *)
    destruct s as [x0|x0 t [|]|x0 t|x0 t| |h [|]|h y|h y|]; try contradiction;
      destruct Hadv as (-> & ->);
      rewrite (land_mask_mod N _ HN) in Hh;
      (destruct (slot_at q _) as [sl|] eqn:Hsl; [|discriminate]);
      injection Hh as <- <-.
    now apply consistent_move.
  - (* CallBackoff *)
    destruct s as [x|x t [|]|x t|x t| |h [|]|h y|h y|]; try contradiction; subst s';
      injection Hh as <- <-; now rewrite (update_same ss tid _ Hs).
Qed.

End Preserved.

Lemma Forall2_nth_error_l {A B : Type} (P : A -> B -> Prop) (l1 : list A) (l2 : list B) :
  Forall2 P l1 l2 ->
  forall i a, nth_error l1 i = Some a -> exists b, nth_error l2 i = Some b /\ P a b.
Proof.
  induction 1 as [|x y l1 l2 Hxy _ IH]; intros [|i] a Hi; cbn in *; try discriminate.
  - injection Hi as <-. now exists y.
  - now apply IH.
Qed.

Lemma Forall2_nth_error_r {A B : Type} (P : A -> B -> Prop) (l1 : list A) (l2 : list B) :
  Forall2 P l1 l2 ->
  forall i b, nth_error l2 i = Some b -> exists a, nth_error l1 i = Some a /\ P a b.
Proof.
  induction 1 as [|x y l1 l2 Hxy _ IH]; intros [|i] b Hi; cbn in *; try discriminate.
  - injection Hi as <-. now exists x.
  - now apply IH.
Qed.

Lemma Forall2_update {A B : Type} (P : A -> B -> Prop) (l1 : list A) (l2 : list B)
    (a : A) (b : B) :
  Forall2 P l1 l2 -> P a b ->
  forall i, Forall2 P (update l1 i (fun _ => a)) (update l2 i (fun _ => b)).
Proof.
  intros H Hab. induction H as [|x y l1 l2 Hxy H IH]; intros [|i]; cbn;
    constructor; auto.
Qed.

Lemma Forall2_length_eq {A B : Type} (P : A -> B -> Prop) (l1 : list A) (l2 : list B) :
  Forall2 P l1 l2 -> length l1 = length l2.
Proof. induction 1; cbn; congruence. Qed.

Section StageFacts.

Context {ValueType Backoff : Type}.

Lemma advance_deterministic (mask : Z) (s s1 s2 : stage ValueType) (A : Type)
    (e : queueE ValueType Backoff A) (a : A) :
  advance ValueType Backoff mask s A e a s1 ->
  advance ValueType Backoff mask s A e a s2 -> s1 = s2.
Proof.
  destruct e; cbn;
    destruct s as [?|? ? [|]|? ?|? ?| |? [|]|? ?|? ?|]; try contradiction;
    try destruct c; try destruct mo; try contradiction;
    intuition congruence.
Qed.

Lemma advance_origin (mask : Z) (s s' : stage ValueType) (A : Type)
    (e : queueE ValueType Backoff A) (a : A) :
  advance ValueType Backoff mask s A e a s' -> origin s' = origin s.
Proof.
  destruct e; cbn;
    destruct s as [?|? ? [|]|? ?|? ?| |? [|]|? ?|? ?|]; try contradiction;
    try destruct c; try destruct mo; try contradiction;
    intuition (subst; reflexivity).
Qed.

Lemma advance_tail_reservation (mask : Z) (s s' : stage ValueType) (A : Type)
    (e : queueE ValueType Backoff A) (a : A) (t : Z) :
  advance ValueType Backoff mask s A e a s' ->
  (tail_reservation s' = Some t <->
   tail_reservation s = Some t \/ reservation_of tail_counter (Obs e a) = Some t).
Proof.
  destruct e; cbn;
    destruct s as [?|? ? [|]|? ?|? ?| |? [|]|? ?|? ?|]; try contradiction;
    try destruct c; try destruct mo; try contradiction;
    intuition (subst; cbn in *; congruence).
Qed.

Lemma advance_head_reservation (mask : Z) (s s' : stage ValueType) (A : Type)
    (e : queueE ValueType Backoff A) (a : A) (h : Z) :
  advance ValueType Backoff mask s A e a s' ->
  (head_reservation s' = Some h <->
   head_reservation s = Some h \/ reservation_of head_counter (Obs e a) = Some h).
Proof.
  destruct e; cbn;
    destruct s as [?|? ? [|]|? ?|? ?| |? [|]|? ?|? ?|]; try contradiction;
    try destruct c; try destruct mo; try contradiction;
    intuition (subst; cbn in *; congruence).
Qed.

Lemma drawn_snoc (c : counter) (hist : list (nat * obs (queueE ValueType Backoff)))
    (tid : nat) (o : obs (queueE ValueType Backoff)) (i : nat) (r : Z) :
  In (i, r) (drawn c (hist ++ [(tid, o)])) <->
  In (i, r) (drawn c hist) \/ (i = tid /\ reservation_of c o = Some r).
Proof.
  unfold drawn. rewrite flat_map_app, in_app_iff. cbn [flat_map fst snd].
  rewrite app_nil_r. destruct (reservation_of c o) as [r'|]; cbn [In].
  - intuition congruence.
  - intuition discriminate.
Qed.

Lemma starts_at_Enqueue (mask : Z) (t : thread ValueType Backoff) (y : ValueType) :
  starts_at mask t (Enqueue_called y) -> exists b, t = call_Enqueue mask y b.
Proof.
  intros H. remember (Enqueue_called y) as s eqn:Hs.
  destruct H as [x b|v b|]; try discriminate.
  injection Hs as ->. now exists b.
Qed.

Lemma is_call_starts (mask : Z) (ts : list (thread ValueType Backoff)) :
  Forall (is_call mask) ts -> exists ss, Forall2 (starts_at mask) ts ss /\
    Forall (fun s => has_reserved s = false /\ origin s = s) ss.
Proof.
  induction 1 as [|t ts Ht _ (ss & Hss & Hnone)]; [exists []; split; constructor|].
  destruct Ht as [x b|v b|].
  - exists (Enqueue_called x :: ss). split; constructor; auto. constructor.
  - exists (Dequeue_called :: ss). split; constructor; auto. constructor.
  - exists (Finish_called :: ss). split; constructor; auto. constructor.
Qed.

End StageFacts.

Section Delivery.

Context {ValueType Backoff : Type}.
Variable moved_from : ValueType -> ValueType.
Variable call_backoff : Backoff -> bool * Backoff.
Variables N r0 : Z.
Hypothesis HN : power_of_two N.
Hypothesis HN2 : 2 <= N.
Hypothesis Hr0 : 0 <= r0.
Variable ss0 : list (stage ValueType).
Hypothesis Hlen : r0 + Z.of_nat (length ss0) + N < 2 ^ 32.

Lemma step_agree (tid : nat) (sys sys' : system ValueType Backoff)
    (ss : list (stage ValueType)) (delta : list (nat * obs (queueE ValueType Backoff))) :
  agree N r0 ss0 sys ss delta ->
  step BoundedQueueNoWait moved_from call_backoff tid sys = Some sys' ->
  exists ss' d,
    agree N r0 ss0 sys' ss' (delta ++ d) /\ history sys' = history sys ++ d.
Proof.
  intros [At Aq Ao Atl Ahd] Hstep. unfold step in Hstep.
  destruct (nth_error (threads sys) tid) as [t|] eqn:Ht; [|discriminate].
  destruct (Forall2_nth_error_l _ _ _ At tid t Ht) as (s & Hs & Hobeys).
  destruct (observe t) as [r|t'|X e k] eqn:Hobs.
  - injection Hstep as <-. exists ss, []. rewrite !app_nil_r.
    split; [now constructor | reflexivity].
  - injection Hstep as <-. exists ss, []. rewrite app_nil_r. cbn [history].
    split; [|now rewrite app_nil_r]. constructor; cbn [threads shared]; auto.
    rewrite <- (update_same ss tid s Hs). apply Forall2_update; [exact At|].
    intros n. specialize (Hobeys (S n)). cbn [obeys] in Hobeys.
    now rewrite Hobs in Hobeys.
  - destruct (handle BoundedQueueNoWait moved_from call_backoff X e (shared sys))
      as [[q a]|] eqn:Hh; [|discriminate].
    injection Hstep as <-.
    assert (Hadv : exists s', advance ValueType Backoff (N - 1) s X e a s').
    { specialize (Hobeys 1%nat). cbn [obeys] in Hobeys. rewrite Hobs in Hobeys.
      destruct (Hobeys a) as (s' & Hadv & _). now exists s'. }
    destruct Hadv as (s' & Hadv).
    assert (Hnew : nth_error (update ss tid (fun _ => s')) tid = Some s')
      by now rewrite nth_error_update, Nat.eqb_refl, Hs.
    assert (Hother : forall i, i <> tid ->
              nth_error (update ss tid (fun _ => s')) i = nth_error ss i).
    { intros i Hne. rewrite nth_error_update.
      now destruct (Nat.eqb_spec i tid). }
    exists (update ss tid (fun _ => s')), [(tid, Obs e a)].
    split; [|reflexivity]. constructor; cbn [threads shared].
    + apply Forall2_update; [exact At|].
      intros n. specialize (Hobeys (S n)). cbn [obeys] in Hobeys.
      rewrite Hobs in Hobeys. destruct (Hobeys a) as (s'' & Hadv' & Hk).
      now rewrite (advance_deterministic _ _ _ _ _ _ _ Hadv Hadv').
    + apply (advance_consistent moved_from call_backoff N r0 HN HN2 Hr0
               (shared sys) q ss tid s s' X e a); auto.
      now rewrite <- (Forall2_length_eq _ _ _ Ao).
    + destruct (Forall2_nth_error_r _ _ _ Ao tid s Hs) as (s0 & Hs0 & Horigin).
      rewrite <- (update_same ss0 tid s0 Hs0). apply Forall2_update; [exact Ao|].
      now rewrite (advance_origin _ _ _ _ _ _ Hadv).
    + intros i t0. rewrite drawn_snoc, Atl. split.
      * intros [(s1 & Hs1 & Hres)|(-> & Hres)].
        -- destruct (Nat.eq_dec i tid) as [->|Hne].
           ++ rewrite Hs in Hs1. injection Hs1 as <-. exists s'. split; [exact Hnew|].
              apply (advance_tail_reservation _ _ _ _ _ _ t0 Hadv). now left.
           ++ exists s1. now rewrite Hother.
        -- exists s'. split; [exact Hnew|].
           apply (advance_tail_reservation _ _ _ _ _ _ t0 Hadv). now right.
      * intros (s1 & Hs1 & Hres). destruct (Nat.eq_dec i tid) as [->|Hne].
        -- rewrite Hnew in Hs1. injection Hs1 as <-.
           apply (advance_tail_reservation _ _ _ _ _ _ t0 Hadv) in Hres.
           destruct Hres as [Hres|Hres]; [left; now exists s | now right].
        -- rewrite Hother in Hs1 by exact Hne. left. now exists s1.
    + intros i t0. rewrite drawn_snoc, Ahd. split.
      * intros [(s1 & Hs1 & Hres)|(-> & Hres)].
        -- destruct (Nat.eq_dec i tid) as [->|Hne].
           ++ rewrite Hs in Hs1. injection Hs1 as <-. exists s'. split; [exact Hnew|].
              apply (advance_head_reservation _ _ _ _ _ _ t0 Hadv). now left.
           ++ exists s1. now rewrite Hother.
        -- exists s'. split; [exact Hnew|].
           apply (advance_head_reservation _ _ _ _ _ _ t0 Hadv). now right.
      * intros (s1 & Hs1 & Hres). destruct (Nat.eq_dec i tid) as [->|Hne].
        -- rewrite Hnew in Hs1. injection Hs1 as <-.
           apply (advance_head_reservation _ _ _ _ _ _ t0 Hadv) in Hres.
           destruct Hres as [Hres|Hres]; [left; now exists s | now right].
        -- rewrite Hother in Hs1 by exact Hne. left. now exists s1.
Qed.

Lemma steps_agree (tid : nat) (k : nat) :
  forall (sys sys' : system ValueType Backoff) (ss : list (stage ValueType))
         (delta : list (nat * obs (queueE ValueType Backoff))),
    agree N r0 ss0 sys ss delta ->
    steps BoundedQueueNoWait moved_from call_backoff k tid sys = Some sys' ->
    exists ss' d,
      agree N r0 ss0 sys' ss' (delta ++ d) /\ history sys' = history sys ++ d.
Proof.
  induction k as [|k IH]; intros sys sys' ss delta Hag Hrun; cbn [steps] in Hrun.
  - injection Hrun as <-. exists ss, []. now rewrite !app_nil_r.
  - destruct (step BoundedQueueNoWait moved_from call_backoff tid sys) as [sys1|] eqn:Hstep;
      [|discriminate].
    destruct (step_agree tid sys sys1 ss delta Hag Hstep) as (ss1 & d1 & Hag1 & Hh1).
    destruct (IH sys1 sys' ss1 (delta ++ d1) Hag1 Hrun) as (ss' & d2 & Hag' & Hh').
    exists ss', (d1 ++ d2). rewrite app_assoc. split; [exact Hag'|].
    now rewrite Hh', Hh1, app_assoc.
Qed.

Lemma schedule_agree (plan : list (nat * nat)) :
  forall (sys sys' : system ValueType Backoff) (ss : list (stage ValueType))
         (delta : list (nat * obs (queueE ValueType Backoff))),
    agree N r0 ss0 sys ss delta ->
    schedule BoundedQueueNoWait moved_from call_backoff plan sys = Some sys' ->
    exists ss' d,
      agree N r0 ss0 sys' ss' (delta ++ d) /\ history sys' = history sys ++ d.
Proof.
  induction plan as [|[tid k] plan IH]; intros sys sys' ss delta Hag Hrun;
    cbn [schedule] in Hrun.
  - injection Hrun as <-. exists ss, []. now rewrite !app_nil_r.
  - destruct (steps BoundedQueueNoWait moved_from call_backoff k tid sys) as [sys1|] eqn:Hsteps;
      [|discriminate].
    destruct (steps_agree tid k sys sys1 ss delta Hag Hsteps) as (ss1 & d1 & Hag1 & Hh1).
    destruct (IH sys1 sys' ss1 (delta ++ d1) Hag1 Hrun) as (ss' & d2 & Hag' & Hh').
    exists ss', (d1 ++ d2). rewrite app_assoc. split; [exact Hag'|].
    now rewrite Hh', Hh1, app_assoc.
Qed.

(** Calls that have not started agree with a queue on which nothing
    is pending. *)
Lemma agree_at_start (sys : system ValueType Backoff) :
  ready_at N r0 (shared sys) ->
  Forall2 (starts_at (N - 1)) (threads sys) ss0 ->
  Forall (fun s => has_reserved s = false /\ origin s = s) ss0 ->
  agree N r0 ss0 sys ss0 [].
Proof.
  intros (Hmask & Hhead & Htail & Hslots) Hstart Hnone.
  assert (Hcalled : forall i s, nth_error ss0 i = Some s ->
            has_reserved s = false /\ origin s = s).
  { intros i s Hi. apply (proj1 (Forall_forall _ _) Hnone). eapply nth_error_In, Hi. }
  constructor.
  - eapply Forall2_impl; [|exact Hstart].
    intros t s Hts n. now apply starts_at_obeys.
  - constructor; try rewrite Hhead; try rewrite Htail.
    + lia.
    + intros i s t Hi Hres. destruct (Hcalled i s Hi) as [Hr _]. now destruct s.
    + intros i s t Hi Hres. destruct (Hcalled i s Hi) as [Hr _]. now destruct s.
    + intros i j s s' t Hi _ Hres. destruct (Hcalled i s Hi) as [Hr _]. now destruct s.
    + intros i j s s' t Hi _ Hres. destruct (Hcalled i s Hi) as [Hr _]. now destruct s.
    + intros i s r c Hi Hown. destruct (Hcalled i s Hi) as [Hr _].
      now destruct s as [?|? ? [|]|? ?|? ?| |? [|]|? ?|? ?|].
    + intros j Hj. destruct (Hslots j Hj) as (sl & Hsl & Htk).
      exists sl. split; [exact Hsl|]. unfold Load in Htk.
      pose proof (Z.mod_pos_bound (j - r0) N ltac:(lia)) as Hd.
      rewrite u32_small in Htk by lia.
      split; cbv zeta; rewrite Htk; [lia|left].
      rewrite Zplus_mod_idemp_r. replace (r0 + (j - r0)) with j by lia.
      now apply Z.mod_small.
    + intros i x t Hi. now destruct (Hcalled i _ Hi).
    + intros i h y [Hi|Hi]; now destruct (Hcalled i _ Hi).
  - clear Hstart Hcalled Hlen. induction Hnone as [|s l [_ Hs] _ IH]; constructor; auto.
  - intros i t. split; [intros []|].
    intros (s & Hi & Hres). destruct (Hcalled i s Hi) as [Hr _]. now destruct s.
  - intros i t. split; [intros []|].
    intros (s & Hi & Hres). destruct (Hcalled i s Hi) as [Hr _]. now destruct s.
Qed.

End Delivery.

Section Delivered.

Context {ValueType Backoff : Type}.
Variable moved_from : ValueType -> ValueType.
Variable call_backoff : Backoff -> bool * Backoff.

(** X12. Every value a [Dequeue] hands out was passed to an [Enqueue].
    Take any number of threads, each a call of [Enqueue], [Dequeue] or
    [Finish], on a queue of capacity [N >= 2] on which nothing is pending,
    and any schedule of them, as long as the tickets stay below [2^32].
    A [Dequeue] that returns [true] with the value [y] drew the head
    reservation [h] that some call [Enqueue(y)] drew from the tail; no
    two calls drew the same head reservation, and no [Enqueue] drew
    two. *)
Theorem dequeued_values_were_enqueued (N r0 : Z) (plan : list (nat * nat))
    (sys sys' : system ValueType Backoff) :
  power_of_two N -> 2 <= N -> 0 <= r0 ->
  r0 + Z.of_nat (length (threads sys)) + N < 2 ^ 32 ->
  ready_at N r0 (shared sys) ->
  Forall (is_call (N - 1)) (threads sys) ->
  schedule BoundedQueueNoWait moved_from call_backoff plan sys = Some sys' ->
  exists delta,
    history sys' = history sys ++ delta /\
    (forall tid y,
       returned_by tid sys' = Some (ReturnedDequeue true y) ->
       exists tid' backoff h,
         nth_error (threads sys) tid' = Some (call_Enqueue (N - 1) y backoff) /\
         In (tid', h) (drawn tail_counter delta) /\
         In (tid, h) (drawn head_counter delta)) /\
    (forall tid1 tid2 h,
       In (tid1, h) (drawn head_counter delta) ->
       In (tid2, h) (drawn head_counter delta) -> tid1 = tid2) /\
    (forall tid h1 h2,
       In (tid, h1) (drawn tail_counter delta) ->
       In (tid, h2) (drawn tail_counter delta) -> h1 = h2).
Proof.
  intros HN HN2 Hr0 Hlen Hready Hcalls Hrun.
  destruct (is_call_starts (N - 1) (threads sys) Hcalls) as (ss0 & Hstart & Hnone).
  rewrite (Forall2_length_eq _ _ _ Hstart) in Hlen.
  pose proof (agree_at_start N r0 HN2 Hr0 ss0 Hlen sys Hready Hstart Hnone) as Hag.
  destruct (schedule_agree moved_from call_backoff N r0 HN HN2 Hr0 ss0 Hlen
              plan sys sys' ss0 [] Hag Hrun) as (ss & delta & Hag' & Hh).
  cbn [app] in Hag'. destruct Hag' as [At Aq Ao Atl Ahd].
  exists delta. split; [exact Hh|]. split; [|split].
  - intros tid y Hret. unfold returned_by in Hret.
    destruct (nth_error (threads sys') tid) as [t|] eqn:Ht; [|discriminate].
    destruct (Forall2_nth_error_l _ _ _ At tid t Ht) as (s & Hs & Hobeys).
    specialize (Hobeys 1%nat). cbn [obeys] in Hobeys.
    destruct (observe t) as [r| |]; try discriminate.
    injection Hret as ->. cbn [returns_at] in Hobeys. destruct Hobeys as (h & ->).
    destruct (taken_from _ _ _ _ Aq tid h y (or_intror Hs)) as (tid' & Hpub).
    destruct (Forall2_nth_error_r _ _ _ Ao tid' _ Hpub) as (s0 & Hs0 & Horigin).
    cbn [origin] in Horigin. subst s0.
    destruct (Forall2_nth_error_r _ _ _ Hstart tid' _ Hs0) as (t0 & Ht0 & Hst).
    destruct (starts_at_Enqueue _ _ _ Hst) as (b & ->).
    exists tid', b, h. split; [exact Ht0|]. split.
    + apply Atl. now exists (Enqueue_published y h).
    + apply Ahd. now exists (Dequeue_released h y).
  - intros tid1 tid2 h H1 H2.
    apply Ahd in H1, H2. destruct H1 as (s1 & Hs1 & Hr1), H2 as (s2 & Hs2 & Hr2).
    exact (heads_unique _ _ _ _ Aq tid1 tid2 s1 s2 h Hs1 Hs2 Hr1 Hr2).
  - intros tid h1 h2 H1 H2.
    apply Atl in H1, H2. destruct H1 as (s1 & Hs1 & Hr1), H2 as (s2 & Hs2 & Hr2).
    congruence.
Qed.

End Delivered.

Lemma dequeued_values_were_enqueued_witness :
  exists delta,
    history (match default_schedule full_ring_plan full_ring with
             | Some sys' => sys'
             | None => full_ring
             end) = history full_ring ++ delta /\
    (forall tid y,
       returned_by tid (match default_schedule full_ring_plan full_ring with
                        | Some sys' => sys'
                        | None => full_ring
                        end) = Some (ReturnedDequeue true y) ->
       exists tid' backoff h,
         nth_error (threads full_ring) tid' = Some (call_Enqueue (2 - 1) y backoff) /\
         In (tid', h) (drawn tail_counter delta) /\
         In (tid, h) (drawn head_counter delta)) /\
    (forall tid1 tid2 h,
       In (tid1, h) (drawn head_counter delta) ->
       In (tid2, h) (drawn head_counter delta) -> tid1 = tid2) /\
    (forall tid h1 h2,
       In (tid, h1) (drawn tail_counter delta) ->
       In (tid, h2) (drawn tail_counter delta) -> h1 = h2).
Proof.
  apply (dequeued_values_were_enqueued (fun x => x) countdown 2 0
           full_ring_plan full_ring).
  - exists 1. split; [lia | reflexivity].
  - lia.
  - lia.
  - change (0 + Z.of_nat 6 + 2 < 2 ^ 32). lia.
  - change (ready_at 2 0 two_slots).
    split; [reflexivity|]. split; [reflexivity|]. split; [reflexivity|].
    intros j Hj. assert (Hcases : j = 0 \/ j = 1) by lia.
    destruct Hcases as [->| ->]; eexists; split; reflexivity.
  - change (Forall (is_call 1) (threads full_ring)). repeat constructor.
  - vm_compute. reflexivity.
Defined.
